(** * A paged storage engine: buffer pool, heap file, B+-tree pages

    Shallow embedding of the C++ sources (Tuple.cpp, HeapPage.cpp,
    IndexPage.hpp, LeafPage.hpp, LeafPage.cpp, BufferPool.cpp, DbFile.cpp,
    Database.cpp, HeapFile.cpp) together with the properties the
    specification states about them.

    Conventions.
    - A byte is a [Z] in [0, 256); a buffer is a [list Z].
    - [size_t], [uint16_t] and [int32_t] values are [Z] (or [nat] when they
      only index containers); the wrap-around of an operation is written
      out where the source can reach it.
    - A C++ exception is a [Throw] result; state that was changed before the
      throw stays changed. *)

From Stdlib Require Import ZArith Lia.
From stdpp Require Import base gmap strings list sorting.

Local Open Scope Z_scope.

(** ** Constants of types.hpp *)

(** Modelled from the spec: types.hpp is not part of the sources; the
    specification fixes PAGE_SIZE = 4096, INT_SIZE = 4, DOUBLE_SIZE = 8 and
    gives 64 as the usual CHAR_SIZE. *)
Definition DEFAULT_PAGE_SIZE : nat := 4096.
Definition INT_SIZE : nat := 4.
Definition DOUBLE_SIZE : nat := 8.
Definition CHAR_SIZE : nat := 64.


(** [Page = std::array<uint8_t, DEFAULT_PAGE_SIZE>]. *)
Abbreviation Page := (list Z).
Definition zero_page : Page := replicate DEFAULT_PAGE_SIZE 0.

(** ** Exceptions *)

(** The last one stands for undefined behaviour ([back()] of an empty
    container); the operation stops there. *)
Inductive exn : Type :=
| logic_error
| out_of_range
| runtime_error
| bad_variant_access
| undefined_behavior.

Inductive result (A : Type) : Type :=
| Ok (a : A)
| Throw (e : exn).
Arguments Ok {A} a.
Arguments Throw {A} e.

(** ** Raw memory: memcpy, memmove, memset on a byte buffer *)

(** The source only reads and writes inside its buffers (anything else is
    undefined behaviour in C++); the facts proved about these functions
    assume ranges that lie inside the buffer. *)
Module Mem.

(** The [n] bytes at offset [off]. *)
Definition read_at {A} (off n : nat) (buf : list A) : list A :=
  take n (drop off buf).

(** [memcpy(buf + off, bs, |bs|)]. *)
Definition write_at {A} (off : nat) (bs buf : list A) : list A :=
  take off buf ++ bs ++ drop (off + length bs) buf.

(** [memmove(buf + dst, buf + src, n)]: the source bytes are read before
    anything is written. *)
Definition memmove {A} (dst src n : nat) (buf : list A) : list A :=
  write_at dst (read_at src n buf) buf.

(** [memset(buf + off, 0, n)]. *)
Definition memset0 (off n : nat) (buf : list Z) : list Z :=
  write_at off (replicate n 0) buf.

End Mem.


(** ** Tuple.hpp / Tuple.cpp: tuples and the fixed-width codec *)

Inductive type_t : Type := INT | DOUBLE | CHAR.

Global Instance type_t_eq_dec : EqDecision type_t.
Proof. solve_decision. Defined.

(** [field_t = std::variant<int, double, std::string>].  The codec only
    copies the eight bytes of a [double], so a double is carried as its
    64-bit pattern; a [std::string] is its sequence of bytes. *)
Inductive field_t : Type :=
| FInt (v : Z)
| FDouble (bits : Z)
| FChar (s : list Z).

(** [class Tuple { std::vector<field_t> fields_; }]. *)
Abbreviation Tuple := (list field_t).

(** [class TupleDesc].  [offsets_], [length_] and [name2idx_] are private
    and written by the constructor only, from [types_] and [names_]; they
    are the functions [offsets_], [length] and [index_of] below. *)
Record TupleDesc : Type := mkTupleDesc {
  types_ : list type_t;
  names_ : list string
}.

Module Codec.

(** Little-endian bytes of the [n]-byte unsigned value [u]. *)
Fixpoint le_bytes (n : nat) (u : Z) : list Z :=
  match n with
  | O => []
  | S n' => (u mod 256) :: le_bytes n' (u / 256)
  end.

Fixpoint le_value (bs : list Z) : Z :=
  match bs with
  | [] => 0
  | b :: r => b + 256 * le_value r
  end.

(** [memcpy(ptr, &v, INT_SIZE)] for an [int v]. *)
Definition int_bytes (v : Z) : list Z := le_bytes INT_SIZE (v mod 2 ^ 32).

(** [int v; memcpy(&v, ptr, INT_SIZE)]: two's complement. *)
Definition int_of_bytes (bs : list Z) : Z :=
  let u := le_value bs in
  if u <? 2 ^ 31 then u else u - 2 ^ 32.

Definition double_bytes (bits : Z) : list Z := le_bytes DOUBLE_SIZE bits.
Definition double_of_bytes (bs : list Z) : Z := le_value bs.

(** What [serialize] stores for a string: at most [CHAR_SIZE] bytes of
    it, then NUL bytes up to [CHAR_SIZE]. *)
Definition char_bytes (s : list Z) : list Z :=
  let n := Nat.min (length s) CHAR_SIZE in
  take n s ++ replicate (CHAR_SIZE - n) 0.

(** [while (len < CHAR_SIZE && csrc[len] != 0) ++len;] over the
    [CHAR_SIZE] bytes of the field. *)
Fixpoint cstr (bs : list Z) : list Z :=
  match bs with
  | [] => []
  | b :: r => if b =? 0 then [] else b :: cstr r
  end.

Definition char_of_bytes (bs : list Z) : list Z := cstr (take CHAR_SIZE bs).

End Codec.

Module Tup.

(** [Tuple::field_type]: [fields_.at(i)] throws when [i] is out of range. *)
Definition field_type (t : Tuple) (i : nat) : result type_t :=
  match t !! i with
  | Some (FInt _) => Ok INT
  | Some (FDouble _) => Ok DOUBLE
  | Some (FChar _) => Ok CHAR
  | None => Throw out_of_range
  end.

Definition size (t : Tuple) : nat := length t.

Definition get_field (t : Tuple) (i : nat) : result field_t :=
  match t !! i with
  | Some f => Ok f
  | None => Throw out_of_range
  end.

(** [std::get<int>(t.get_field(i))]. *)
Definition get_int (t : Tuple) (i : nat) : result Z :=
  match t !! i with
  | Some (FInt v) => Ok v
  | Some _ => Throw bad_variant_access
  | None => Throw out_of_range
  end.

End Tup.

Module TD.

Definition size_of_fixed (ty : type_t) : nat :=
  match ty with
  | INT => INT_SIZE
  | DOUBLE => DOUBLE_SIZE
  | CHAR => CHAR_SIZE
  end.

(** The constructor's loop [offsets_[i] = off; off += size_of_fixed(types_[i])],
    started at [off].  The sum is at most 64 bytes per field, so it stays far
    below [2^64] for any vector of fields that fits in memory and is kept as
    a [nat]. *)
Fixpoint offsets_from (off : nat) (tys : list type_t) : list nat :=
  match tys with
  | [] => []
  | ty :: r => off :: offsets_from (off + size_of_fixed ty) r
  end.

Fixpoint length_from (off : nat) (tys : list type_t) : nat :=
  match tys with
  | [] => off
  | ty :: r => length_from (off + size_of_fixed ty) r
  end.

Definition offsets_ (td : TupleDesc) : list nat := offsets_from 0 (types_ td).
Definition length (td : TupleDesc) : nat := length_from 0 (types_ td).
Definition size (td : TupleDesc) : nat := List.length (types_ td).

(** [TupleDesc::TupleDesc(types, names)]. *)
Definition make (types : list type_t) (names : list string) : result TupleDesc :=
  if negb (List.length types =? List.length names)%nat then Throw logic_error
  else if bool_decide (NoDup names) then Ok (mkTupleDesc types names)
  else Throw logic_error.

Definition field_type (td : TupleDesc) (i : nat) : result type_t :=
  match types_ td !! i with
  | Some ty => Ok ty
  | None => Throw out_of_range
  end.

Definition offset_of (td : TupleDesc) (i : nat) : result nat :=
  match offsets_ td !! i with
  | Some o => Ok o
  | None => Throw out_of_range
  end.

(** The loop of [compatible] over [i = 0 .. types_.size()-1]. *)
Fixpoint compatible_from (tys : list type_t) (t : Tuple) (i : nat) : bool :=
  match tys with
  | [] => true
  | ty :: r =>
      match Tup.field_type t i with
      | Ok ty' => if decide (ty' = ty) then compatible_from r t (S i) else false
      | Throw _ => false
      end
  end.

Definition compatible (td : TupleDesc) (t : Tuple) : bool :=
  if negb (Tup.size t =? List.length (types_ td))%nat then false
  else compatible_from (types_ td) t 0.

(** One iteration of the loop of [deserialize]: the field at index [i],
    read from [data + base + offsets_[i]]. *)
Definition deserialize_field (td : TupleDesc) (data : list Z) (base i : nat)
  : field_t :=
  let ptr := (base + default 0%nat (offsets_ td !! i))%nat in
  match default INT (types_ td !! i) with
  | INT => FInt (Codec.int_of_bytes (Mem.read_at ptr INT_SIZE data))
  | DOUBLE => FDouble (Codec.double_of_bytes (Mem.read_at ptr DOUBLE_SIZE data))
  | CHAR => FChar (Codec.char_of_bytes (Mem.read_at ptr CHAR_SIZE data))
  end.

(** [TupleDesc::deserialize(data + base)]. *)
Definition deserialize (td : TupleDesc) (data : list Z) (base : nat) : Tuple :=
  map (deserialize_field td data base) (seq 0 (size td)).

(** The CHAR case of [serialize]:
    [n = min(s.size(), CHAR_SIZE); memcpy(ptr, s.data(), n);
     if (n < CHAR_SIZE) memset(ptr + n, 0, CHAR_SIZE - n)]. *)
Definition write_char (ptr : nat) (s : list Z) (data : list Z) : list Z :=
  let n := if (CHAR_SIZE <? List.length s)%nat then CHAR_SIZE else List.length s in
  let data1 := Mem.write_at ptr (take n s) data in
  if (n <? CHAR_SIZE)%nat then Mem.memset0 (ptr + n) (CHAR_SIZE - n) data1
  else data1.

(** One iteration of the loop of [serialize].  The last case is the
    [std::get] of the wrong alternative, which [compatible] excludes. *)
Definition serialize_field (td : TupleDesc) (t : Tuple) (base : nat)
    (data : list Z) (i : nat) : list Z :=
  let ptr := (base + default 0%nat (offsets_ td !! i))%nat in
  match default INT (types_ td !! i), t !! i with
  | INT, Some (FInt v) => Mem.write_at ptr (Codec.int_bytes v) data
  | DOUBLE, Some (FDouble b) => Mem.write_at ptr (Codec.double_bytes b) data
  | CHAR, Some (FChar s) => write_char ptr s data
  | _, _ => data
  end.

(** [TupleDesc::serialize(data + base, t)]. *)
Definition serialize (td : TupleDesc) (data : list Z) (base : nat) (t : Tuple)
  : result (list Z) :=
  if negb (compatible td t) then Throw logic_error
  else Ok (foldl (serialize_field td t base) data (seq 0 (size td))).

(** [TupleDesc::index_of]. *)
Fixpoint index_from (names : list string) (name : string) (i : nat) : result nat :=
  match names with
  | [] => Throw out_of_range
  | n :: r => if decide (n = name) then Ok i else index_from r name (S i)
  end.

Definition index_of (td : TupleDesc) (name : string) : result nat :=
  index_from (names_ td) name 0.

Definition merge (td1 td2 : TupleDesc) : result TupleDesc :=
  make (types_ td1 ++ types_ td2) (names_ td1 ++ names_ td2).

End TD.

(** Values a C++ [Tuple] can hold: an [int] is a 32-bit signed integer and
    a [double] has 64 bits. *)
Definition field_ok (f : field_t) : Prop :=
  match f with
  | FInt v => - 2 ^ 31 <= v < 2 ^ 31
  | FDouble b => 0 <= b < 2 ^ 64
  | FChar _ => True
  end.

Definition tuple_ok (t : Tuple) : Prop := Forall field_ok t.

(** The tuple read back after a store: a string is cut at [CHAR_SIZE]
    bytes, padded with NUL bytes, and read back up to the first NUL. *)
Definition stored_field (f : field_t) : field_t :=
  match f with
  | FChar s => FChar (Codec.char_of_bytes (Codec.char_bytes s))
  | _ => f
  end.

Definition stored (t : Tuple) : Tuple := map stored_field t.

(** The bytes [serialize] writes for field [f]. *)
Definition payload (f : field_t) : list Z :=
  match f with
  | FInt v => Codec.int_bytes v
  | FDouble b => Codec.double_bytes b
  | FChar s => Codec.char_bytes s
  end.

Definition type_of (f : field_t) : type_t :=
  match f with FInt _ => INT | FDouble _ => DOUBLE | FChar _ => CHAR end.

(** A string that the codec stores without loss: shorter than [CHAR_SIZE]
    and free of NUL bytes. *)
Definition plain_field (f : field_t) : Prop :=
  match f with
  | FChar s => (List.length s < CHAR_SIZE)%nat /\ Forall (fun b => b <> 0) s
  | _ => True
  end.

(** ** HeapPage.cpp: a page with a bitmap slot directory *)

Module HeapPage.

(** [capacity = (8 * P) / (8 * T + 1)] in [size_t] arithmetic. *)
Definition capacity (td : TupleDesc) : nat :=
  Z.to_nat (((8 * Z.of_nat DEFAULT_PAGE_SIZE) mod 2 ^ 64)
            / ((8 * Z.of_nat (TD.length td) + 1) mod 2 ^ 64)).

(** [headerBytes = (capacity + 7) / 8]; [header] is the start of the page
    and [data] starts [headerBytes] bytes into it. *)
Definition headerBytes (td : TupleDesc) : nat := ((capacity td + 7) / 8)%nat.

(** [byte = i >> 3]. *)
Definition slot_byte (i : nat) : nat := Z.to_nat (Z.shiftr (Z.of_nat i) 3).

(** [mask = static_cast<uint8_t>(0x80u >> (i & 7))]. *)
Definition slot_mask (i : nat) : Z :=
  (Z.shiftr 128 (Z.land (Z.of_nat i) 7)) mod 256.

(** [header[byte]]. *)
Definition header_at (page : Page) (b : nat) : Z := default 0 (page !! b).

(** [header[byte] & mask] is non-zero. *)
Definition occupied (page : Page) (i : nat) : bool :=
  negb (Z.land (header_at page (slot_byte i)) (slot_mask i) =? 0).

(** [header[byte] |= mask]. *)
Definition set_bit (page : Page) (i : nat) : Page :=
  <[slot_byte i := Z.lor (header_at page (slot_byte i)) (slot_mask i)]> page.

(** [header[byte] &= ~mask]: the complement is taken on the promoted [int]
    and the result is stored into a [uint8_t]. *)
Definition clear_bit (page : Page) (i : nat) : Page :=
  <[slot_byte i :=
      (Z.land (header_at page (slot_byte i)) (Z.lnot (slot_mask i))) mod 256]> page.

(** [for (i = start; i < start + fuel; ++i) if (test(i)) return i;] *)
Fixpoint scan (test : nat -> bool) (start fuel : nat) : option nat :=
  match fuel with
  | O => None
  | S k => if test start then Some start else scan test (S start) k
  end.

Definition end_ (td : TupleDesc) : nat := capacity td.

Definition begin (td : TupleDesc) (page : Page) : nat :=
  match scan (occupied page) 0 (capacity td) with
  | Some i => i
  | None => capacity td
  end.

(** [insertTuple]: the first slot whose bit is clear receives the tuple.
    [serialize] throws before anything is written. *)
Definition insertTuple (td : TupleDesc) (page : Page) (t : Tuple)
  : result (Page * bool) :=
  match scan (fun i => negb (occupied page i)) 0 (capacity td) with
  | Some i =>
      match TD.serialize td page (headerBytes td + i * TD.length td) t with
      | Ok page1 => Ok (set_bit page1 i, true)
      | Throw e => Throw e
      end
  | None => Ok (page, false)
  end.

Definition deleteTuple (td : TupleDesc) (page : Page) (slot : nat) : result Page :=
  if (capacity td <=? slot)%nat then Throw out_of_range
  else if negb (occupied page slot) then Throw logic_error
  else Ok (clear_bit
             (Mem.memset0 (headerBytes td + slot * TD.length td) (TD.length td) page)
             slot).

Definition getTuple (td : TupleDesc) (page : Page) (slot : nat) : result Tuple :=
  if (capacity td <=? slot)%nat then Throw out_of_range
  else if negb (occupied page slot) then Throw logic_error
  else Ok (TD.deserialize td page (headerBytes td + slot * TD.length td)).

Definition empty (td : TupleDesc) (page : Page) (slot : nat) : bool :=
  if (capacity td <=? slot)%nat then true
  else negb (occupied page slot).

(** [next(slot)], returning the new value of [slot]. *)
Definition next (td : TupleDesc) (page : Page) (slot : nat) : nat :=
  if (capacity td <=? slot)%nat then capacity td
  else match scan (occupied page) (slot + 1) (capacity td - (slot + 1)) with
       | Some i => i
       | None => capacity td
       end.

(** The occupancy bit of slot [i], MSB first: bit [7 - i mod 8] (of value
    [0x80 >> (i mod 8)]) of header byte [i / 8]. *)
Definition msb_bit (page : Page) (i : nat) : bool :=
  Z.testbit (header_at page (i / 8)%nat) (7 - Z.of_nat (i mod 8)).

End HeapPage.

(** [static_cast<uint16_t>] of an integer, as an index. *)
Definition to_uint16 (v : Z) : nat := Z.to_nat (v mod 2 ^ 16).

(** ** IndexPage.hpp: an internal node of the B+-tree *)

Module IndexPage.

(** The view over a page: the header fields [size] and [index_children],
    the array [keys] of [capacity] 32-bit keys and the array [children] of
    [capacity + 1] page numbers. *)
Record t : Type := mk {
  capacity : nat;
  size : nat;
  index_children : Z;
  keys : list Z;
  children : list Z
}.

(** The capacity the constructor computes: [sizeof(IndexPageHeader) = 4],
    [sizeof(int32_t) = 4], [sizeof(size_t) = 8]. *)
Definition capacity_of_page : nat :=
  let rem := (DEFAULT_PAGE_SIZE - 4)%nat in
  let ksz := 4%nat in
  let csz := 8%nat in
  let cap := if (csz <? rem)%nat then ((rem - csz) / (ksz + csz))%nat else 0%nat in
  (cap mod 2 ^ 16)%nat.

(** The end of the constructor: [if (header->size > capacity) header->size = 0]. *)
Definition attach (p : t) : t :=
  if (capacity p <? size p)%nat
  then mk (capacity p) 0 (index_children p) (keys p) (children p)
  else p.

Definition key_at (p : t) (i : nat) : Z := default 0 (keys p !! i).
Definition child_at (p : t) (i : nat) : Z := default 0 (children p !! i).

(** [while (pos < n && keys[pos] < key) ++pos;] with at most [fuel] steps. *)
Fixpoint find_pos (p : t) (key : Z) (n pos fuel : nat) : nat :=
  match fuel with
  | O => pos
  | S k =>
      if (pos <? n)%nat && (key_at p pos <? key)
      then find_pos p key n (S pos) k
      else pos
  end.

(** [int32_t] value of an [int]. *)
Definition to_int32 (v : Z) : Z := (v + 2 ^ 31) mod 2 ^ 32 - 2 ^ 31.

Definition insert (p : t) (key child : Z) : t * bool :=
  let n := size p in
  if (capacity p <=? n)%nat then (p, true)
  else
    let pos := find_pos p key n 0 n in
    let keys1 :=
      if (pos <? n)%nat then Mem.memmove (pos + 1) pos (n - pos) (keys p)
      else keys p in
    let children1 :=
      if (pos + 1 <? n + 1)%nat
      then Mem.memmove (pos + 2) (pos + 1) (n - pos) (children p)
      else children p in
    let keys2 := <[pos := to_int32 key]> keys1 in
    let children2 := <[(pos + 1)%nat := child]> children1 in
    let size' := to_uint16 (Z.of_nat n + 1) in
    (mk (capacity p) size' (index_children p) keys2 children2,
     (size' =? capacity p)%nat).

(** [split(new_page)]: the page, the new page and the key pushed up. *)
Definition split (p new_page : t) : t * t * Z :=
  let n := size p in
  let mid := to_uint16 (Z.of_nat n / 2) in
  let up_key := key_at p mid in
  let right := to_uint16 (Z.of_nat n - Z.of_nat mid - 1) in
  let new_keys :=
    if (0 <? right)%nat
    then Mem.write_at 0 (Mem.read_at (mid + 1) right (keys p)) (keys new_page)
    else keys new_page in
  let new_children :=
    if (0 <? right + 1)%nat
    then Mem.write_at 0 (Mem.read_at (mid + 1) (right + 1) (children p))
           (children new_page)
    else children new_page in
  (mk (capacity p) mid (index_children p) (keys p) (children p),
   mk (capacity new_page) right (index_children p) new_keys new_children,
   up_key).

(** The keys and children that are in use. *)
Definition valid_keys (p : t) : list Z := take (size p) (keys p).
Definition valid_children (p : t) : list Z := take (size p + 1) (children p).

(** What the constructor guarantees of a view. *)
Definition wf (p : t) : Prop :=
  Z.of_nat (capacity p) < 2 ^ 16
  /\ (size p <= capacity p)%nat
  /\ length (keys p) = capacity p
  /\ length (children p) = (capacity p + 1)%nat
  /\ Forall (fun k => - 2 ^ 31 <= k < 2 ^ 31) (keys p).

End IndexPage.

(** ** LeafPage.hpp / LeafPage.cpp: a leaf of the B+-tree *)

Module LeafPage.

(** The view over a page: the schema, the key column, the capacity, the
    header fields [next_leaf] and [size], and [data], the bytes of the page
    after the header. *)
Record t : Type := mk {
  td : TupleDesc;
  key_index : nat;
  capacity : nat;
  next_leaf : Z;
  size : nat;
  data : list Z
}.

(** [sizeof(LeafPageHeader)]: a [size_t] and a [uint16_t], padded to 16. *)
Definition header_size : nat := 16.

(** The constructor over a page whose header holds [next] and [sz]. *)
Definition make (page : Page) (next : Z) (sz : nat)
    (td_ : TupleDesc) (key_idx : nat) : t :=
  let bytes_for_tuples := (length page - header_size)%nat in
  let tbytes := TD.length td_ in
  let cap := to_uint16 (Z.of_nat (bytes_for_tuples / tbytes)) in
  mk td_ key_idx cap next (if (cap <? sz)%nat then 0%nat else sz)
     (drop header_size page).

(** [key_at(td, key_index, base, tbytes, slot)]. *)
Definition key_at (td_ : TupleDesc) (key_idx : nat) (base : list Z)
    (tbytes slot : nat) : result Z :=
  Tup.get_int (TD.deserialize td_ base (slot * tbytes)) key_idx.

Definition key_of (p : t) (slot : nat) : result Z :=
  key_at (td p) (key_index p) (data p) (TD.length (td p)) slot.

(** The binary search of [insertTuple]:
    [while (lo < hi) { mid = (lo + hi) >> 1;
                       if (key_at(mid) < k) lo = mid + 1; else hi = mid; }]
    with at most [fuel] iterations; the result is [lo]. *)
Fixpoint lower_bound (p : t) (k : Z) (lo hi fuel : nat) : result nat :=
  match fuel with
  | O => Ok lo
  | S fuel' =>
      if (lo <? hi)%nat then
        let mid := to_uint16 (Z.shiftr (Z.of_nat lo + Z.of_nat hi) 1) in
        match key_of p mid with
        | Ok km =>
            if km <? k
            then lower_bound p k (to_uint16 (Z.of_nat mid + 1)) hi fuel'
            else lower_bound p k lo mid fuel'
        | Throw e => Throw e
        end
      else Ok lo
  end.

Definition set_data (p : t) (d : list Z) : t :=
  mk (td p) (key_index p) (capacity p) (next_leaf p) (size p) d.

Definition set_size (p : t) (n : nat) : t :=
  mk (td p) (key_index p) (capacity p) (next_leaf p) n (data p).

Definition set_next_leaf (p : t) (nl : Z) : t :=
  mk (td p) (key_index p) (capacity p) nl (size p) (data p).

(** [insertTuple]: the page afterwards and the value returned (or the
    exception thrown). *)
Definition insertTuple (p : t) (tup : Tuple) : t * result bool :=
  let tbytes := TD.length (td p) in
  let n := size p in
  match Tup.get_int tup (key_index p) with
  | Throw e => (p, Throw e)
  | Ok k =>
      match lower_bound p k 0 n n with
      | Throw e => (p, Throw e)
      | Ok pos =>
          let hit :=
            if (pos <? n)%nat then
              match key_of p pos with
              | Ok kp => Ok (kp =? k)
              | Throw e => Throw e
              end
            else Ok false in
          match hit with
          | Throw e => (p, Throw e)
          | Ok true =>
              match TD.serialize (td p) (data p) (pos * tbytes) tup with
              | Ok d => (set_data p d, Ok (n =? capacity p)%nat)
              | Throw e => (p, Throw e)
              end
          | Ok false =>
              if (capacity p <=? n)%nat then (p, Ok true)
              else
                let move_bytes := ((n - pos) * tbytes)%nat in
                let d1 :=
                  if (move_bytes =? 0)%nat then data p
                  else Mem.memmove ((pos + 1) * tbytes) (pos * tbytes)
                         move_bytes (data p) in
                match TD.serialize (td p) d1 (pos * tbytes) tup with
                | Ok d2 =>
                    let size' := to_uint16 (Z.of_nat n + 1) in
                    (set_size (set_data p d2) size',
                     Ok (size' =? capacity p)%nat)
                | Throw e => (set_data p d1, Throw e)
                end
          end
      end
  end.

(** [split(new_page)]: the page, the new page and the split key. *)
Definition split (p new_page : t) : result (t * t * Z) :=
  let n := size p in
  if (n =? 0)%nat then Throw logic_error
  else
    let tbytes := TD.length (td p) in
    let mid := to_uint16 (Z.of_nat n / 2) in
    let right_cnt := to_uint16 (Z.of_nat n - Z.of_nat mid) in
    match key_of p mid with
    | Throw e => Throw e
    | Ok split_key =>
        let nd := Mem.write_at 0
                    (Mem.read_at (mid * tbytes) (right_cnt * tbytes) (data p))
                    (data new_page) in
        Ok (set_size p mid,
            set_next_leaf (set_size (set_data new_page nd) right_cnt) (next_leaf p),
            split_key)
    end.

Definition getTuple (p : t) (slot : nat) : result Tuple :=
  if (size p <=? slot)%nat then Throw out_of_range
  else Ok (TD.deserialize (td p) (data p) (slot * TD.length (td p))).

(** The bytes of slot [i]. *)
Definition slot_bytes (p : t) (i : nat) : list Z :=
  Mem.read_at (i * TD.length (td p)) (TD.length (td p)) (data p).

(** What the constructor and the schema guarantee of a view: the key column
    is an INT column, [size <= capacity] and the [capacity] slots lie inside
    the page. *)
Definition wf (p : t) : Prop :=
  types_ (td p) !! key_index p = Some INT
  /\ Z.of_nat (capacity p) < 2 ^ 16
  /\ (size p <= capacity p)%nat
  /\ (capacity p * TD.length (td p) <= length (data p))%nat.

(** The key stored in slot [i], when the key column is an INT column. *)
Definition key_val (p : t) (i : nat) : Z :=
  Codec.int_of_bytes
    (Mem.read_at (i * TD.length (td p) + default 0%nat (TD.offsets_ (td p) !! key_index p))
       INT_SIZE (data p)).

(** The tuples are in ascending order of their keys. *)
Definition sorted (p : t) : Prop :=
  forall i j, (i <= j < size p)%nat -> key_val p i <= key_val p j.

End LeafPage.

(** ** PageId, DbFile.cpp, Database.cpp: files and the registry *)

(** Modelled from the spec: types.hpp is not part of the sources; a page id
    is the pair of a file name and a page number. *)
Record PageId : Type := mkPageId { file : string; page : nat }.

Global Instance PageId_eq_dec : EqDecision PageId.
Proof. solve_decision. Defined.

Global Instance PageId_countable : Countable PageId.
Proof.
  refine (inj_countable' (fun p => (file p, page p))
            (fun q => mkPageId q.1 q.2) _).
  by intros [].
Defined.

(** [PageId{}]. *)
Definition PageId0 : PageId := mkPageId "" 0.

(** Modelled from the spec: DbFile.hpp is not part of the sources.  The
    members are those DbFile.cpp uses: the name, the schema, [numPages], the
    audit trails [reads] and [writes]; [bytes] is the content of the file
    behind the descriptor [fd]. *)
Record DbFile : Type := mkDbFile {
  name : string;
  td : TupleDesc;
  numPages : nat;
  reads : list nat;
  writes : list nat;
  bytes : list Z
}.

Module File.

(** [pread(fd, page, DEFAULT_PAGE_SIZE, id * DEFAULT_PAGE_SIZE)] followed by
    the zero fill of a short read. *)
Definition pread_page (f : DbFile) (id : nat) : Page :=
  let got := Mem.read_at (id * DEFAULT_PAGE_SIZE) DEFAULT_PAGE_SIZE (bytes f) in
  got ++ replicate (DEFAULT_PAGE_SIZE - length got) 0.

(** [readPage(page, id)]: the file afterwards and the page read. *)
Definition readPage (f : DbFile) (id : nat) : DbFile * Page :=
  (mkDbFile (name f) (td f) (numPages f) (reads f ++ [id]) (writes f) (bytes f),
   pread_page f id).

(** [pwrite(fd, page, DEFAULT_PAGE_SIZE, id * DEFAULT_PAGE_SIZE)]: a write
    past the end of the file extends it, the gap reading as zeros. *)
Definition pwrite_page (f : DbFile) (pg : Page) (id : nat) : list Z :=
  let off := (id * DEFAULT_PAGE_SIZE)%nat in
  let grown := bytes f ++ replicate (off + length pg - length (bytes f)) 0 in
  Mem.write_at off pg grown.

Definition writePage (f : DbFile) (pg : Page) (id : nat) : DbFile :=
  mkDbFile (name f) (td f) (numPages f) (reads f) (writes f ++ [id])
    (pwrite_page f pg id).

Definition set_numPages (f : DbFile) (n : nat) : DbFile :=
  mkDbFile (name f) (td f) n (reads f) (writes f) (bytes f).

End File.

(** ** BufferPool.cpp *)

(** Modelled from the spec: BufferPool.hpp is not part of the sources.  The
    members are those BufferPool.cpp uses: the frames [pages], the map
    [pid_to_pos], the reverse map [pos_to_pid] (a missing entry reads as
    [PageId{}]), the frames [pos_to_lru] that have a node in [lru_list], the
    list [lru_list] (most recently used first), the set [dirty] and the stack
    [available], whose head is the back of the vector. *)
Record BufferPool : Type := mkBufferPool {
  pages : list Page;
  pid_to_pos : gmap PageId nat;
  pos_to_pid : gmap nat PageId;
  pos_to_lru : gset nat;
  lru_list : list nat;
  dirty : gset nat;
  available : list nat
}.

(** Modelled from the spec: Database.hpp is not part of the sources; a
    database is the registry of files by name and the one buffer pool. *)
Record Database : Type := mkDatabase {
  files : gmap string DbFile;
  bufferPool : BufferPool
}.

(** A computation on the database that returns a value or throws; the
    state changed before a throw stays changed. *)
Definition M (A : Type) : Type := Database -> Database * result A.

Definition ret {A} (a : A) : M A := fun db => (db, Ok a).
Definition throw {A} (e : exn) : M A := fun db => (db, Throw e).
Definition bind {A B} (m : M A) (k : A -> M B) : M B :=
  fun db =>
    match m db with
    | (db', Ok a) => k a db'
    | (db', Throw e) => (db', Throw e)
    end.

Notation "x <- m ;; k" := (bind m (fun x => k))
  (at level 100, m at next level, right associativity).
Notation "m ;;; k" := (bind m (fun _ => k))
  (at level 100, right associativity).

Definition get_pool : M BufferPool := fun db => (db, Ok (bufferPool db)).
Definition put_pool (bp : BufferPool) : M unit :=
  fun db => (mkDatabase (files db) bp, Ok tt).
Definition when (b : bool) (m : M unit) : M unit := if b then m else ret tt.

Module Db.

(** [Database::get]: [files.at(name)] throws [std::out_of_range]. *)
Definition get (nm : string) : M DbFile :=
  fun db =>
    match files db !! nm with
    | Some f => (db, Ok f)
    | None => (db, Throw out_of_range)
    end.

(** The file object registered under [nm] is replaced by [f]. *)
Definition set_file (nm : string) (f : DbFile) : M unit :=
  fun db => (mkDatabase (<[nm := f]> (files db)) (bufferPool db), Ok tt).

(** [getDatabase().get(nm).readPage(page, id)], returning the page read. *)
Definition readPage (nm : string) (id : nat) : M Page :=
  f <- get nm ;;
  set_file nm (File.readPage f id).1 ;;;
  ret (File.readPage f id).2.

(** [getDatabase().get(nm).writePage(page, id)]. *)
Definition writePage (nm : string) (pg : Page) (id : nat) : M unit :=
  f <- get nm ;;
  set_file nm (File.writePage f pg id).

End Db.

Module BP.

(** [BufferPool::BufferPool()] with [n] frames: [available] holds
    [n-1, ..., 1, 0], its back is frame 0. *)
Definition init (n : nat) : BufferPool :=
  mkBufferPool (replicate n zero_page) ∅ ∅ ∅ [] ∅ (seq 0 n).

Definition set_pages (bp : BufferPool) (ps : list Page) : BufferPool :=
  mkBufferPool ps (pid_to_pos bp) (pos_to_pid bp) (pos_to_lru bp)
    (lru_list bp) (dirty bp) (available bp).

(** [pages[pos]]. *)
Definition page_at (bp : BufferPool) (pos : nat) : Page :=
  default zero_page (pages bp !! pos).

(** [pos_to_pid[pos]]. *)
Definition pid_at (bp : BufferPool) (pos : nat) : PageId :=
  default PageId0 (pos_to_pid bp !! pos).

(** The node of frame [pos] leaves the list. *)
Definition lru_erase (pos : nat) (l : list nat) : list nat :=
  filter (fun x => x <> pos) l.

Definition contains (pid : PageId) : M bool :=
  bp <- get_pool ;; ret (bool_decide (is_Some (pid_to_pos bp !! pid))).

Definition isDirty (pid : PageId) : M bool :=
  bp <- get_pool ;;
  match pid_to_pos bp !! pid with
  | None => ret false
  | Some pos => ret (bool_decide (pos ∈ dirty bp))
  end.

Definition markDirty (pid : PageId) : M unit :=
  bp <- get_pool ;;
  match pid_to_pos bp !! pid with
  | None => ret tt
  | Some pos =>
      put_pool (mkBufferPool (pages bp) (pid_to_pos bp) (pos_to_pid bp)
                  (pos_to_lru bp) (lru_list bp) ({[pos]} ∪ dirty bp) (available bp))
  end.

Definition discardPage (pid : PageId) : M unit :=
  bp <- get_pool ;;
  match pid_to_pos bp !! pid with
  | None => ret tt
  | Some pos =>
      let in_lru := bool_decide (pos ∈ pos_to_lru bp) in
      put_pool (mkBufferPool (pages bp)
                  (delete pid (pid_to_pos bp))
                  (<[pos := PageId0]> (pos_to_pid bp))
                  (if in_lru then pos_to_lru bp ∖ {[pos]} else pos_to_lru bp)
                  (if in_lru then lru_erase pos (lru_list bp) else lru_list bp)
                  (dirty bp ∖ {[pos]})
                  (pos :: available bp))
  end.

(** [flushPage]: the frame leaves [dirty] before the write. *)
Definition flushPage (pid : PageId) : M unit :=
  bp <- get_pool ;;
  match pid_to_pos bp !! pid with
  | None => ret tt
  | Some pos =>
      if bool_decide (pos ∈ dirty bp) then
        put_pool (mkBufferPool (pages bp) (pid_to_pos bp) (pos_to_pid bp)
                    (pos_to_lru bp) (lru_list bp) (dirty bp ∖ {[pos]})
                    (available bp)) ;;;
        Db.writePage (file pid) (page_at bp pos) (page pid)
      else ret tt
  end.

(** [for (pid : to_flush) flushPage(pid)]. *)
Fixpoint flush_all (pids : list PageId) : M unit :=
  match pids with
  | [] => ret tt
  | pid :: r => flushPage pid ;;; flush_all r
  end.

(** [flushFile]: the dirty frames are visited in the order of the set. *)
Definition flushFile (nm : string) : M unit :=
  bp <- get_pool ;;
  flush_all (filter (fun pid => file pid = nm)
               (map (pid_at bp) (elements (dirty bp)))).

(** The first branch of [getPage]: the page is cached. *)
Definition touch (bp : BufferPool) (pos : nat) : BufferPool :=
  if bool_decide (pos ∈ pos_to_lru bp)
  then mkBufferPool (pages bp) (pid_to_pos bp) (pos_to_pid bp) (pos_to_lru bp)
         (pos :: lru_erase pos (lru_list bp)) (dirty bp) (available bp)
  else bp.

(** The second branch of [getPage]: [if (available.empty()) { ... }]. *)
Definition evict : M unit :=
  bp <- get_pool ;;
  match available bp with
  | _ :: _ => ret tt
  | [] =>
      match last (lru_list bp) with
      | None => throw undefined_behavior
      | Some pos =>
          let old_pid := pid_at bp pos in
          if bool_decide (file old_pid = "") then ret tt
          else
            d <- isDirty old_pid ;;
            when d (flushPage old_pid) ;;;
            discardPage old_pid
      end
  end.

(** [getPage], returning the frame whose buffer the caller receives. *)
Definition getPage (pid : PageId) : M nat :=
  bp <- get_pool ;;
  match pid_to_pos bp !! pid with
  | Some pos => put_pool (touch bp pos) ;;; ret pos
  | None =>
      evict ;;;
      bp1 <- get_pool ;;
      match available bp1 with
      | [] => throw undefined_behavior
      | pos :: rest =>
          put_pool (mkBufferPool (pages bp1) (pid_to_pos bp1) (pos_to_pid bp1)
                      (pos_to_lru bp1) (lru_list bp1) (dirty bp1) rest) ;;;
          pg <- Db.readPage (file pid) (page pid) ;;
          bp2 <- get_pool ;;
          put_pool (mkBufferPool (<[pos := pg]> (pages bp2))
                      (<[pid := pos]> (pid_to_pos bp2))
                      (<[pos := pid]> (pos_to_pid bp2))
                      ({[pos]} ∪ pos_to_lru bp2)
                      (pos :: lru_list bp2) (dirty bp2) (available bp2)) ;;;
          ret pos
      end
  end.


End BP.

(** ** Database.cpp: adding and removing files *)

Module Registry.

(** [Database::remove]: the entry is extracted from the map before
    [flushFile] runs. *)
Definition remove (nm : string) : M DbFile :=
  fun db =>
    match files db !! nm with
    | None => (db, Throw logic_error)
    | Some f =>
        (BP.flushFile nm ;;; ret f)
          (mkDatabase (delete nm (files db)) (bufferPool db))
    end.

(** [Database::add]. *)
Definition add (f : DbFile) : M unit :=
  present <- (fun db => (db, Ok (bool_decide (is_Some (files db !! name f))))) ;;
  when present (_ <- remove (name f) ;; ret tt) ;;;
  Db.set_file (name f) f.

End Registry.

(** ** HeapFile.cpp *)

(** Modelled from the spec: Iterator.hpp is not part of the sources; an
    iterator of a file is the pair of a page number and a slot. *)
Record Iterator : Type := mkIterator { it_page : nat; it_slot : nat }.

Module HeapFile.

(** [pages[pos] = pg], the write through the reference [getPage] returned. *)
Definition store_page (pos : nat) (pg : Page) : M unit :=
  bp <- get_pool ;;
  put_pool (BP.set_pages bp (<[pos := pg]> (pages bp))).

(** [HeapPage hp(bp.getPage(pid), td); hp.insertTuple(t)], with the result
    of [hp.insertTuple(t)]. *)
Definition insert_into (pid : PageId) (tdesc : TupleDesc) (t : Tuple) : M bool :=
  pos <- BP.getPage pid ;;
  bp <- get_pool ;;
  match HeapPage.insertTuple tdesc (BP.page_at bp pos) t with
  | Throw e => throw e
  | Ok (pg, true) => store_page pos pg ;;; ret true
  | Ok (_, false) => ret false
  end.

(** [HeapFile::insertTuple] on the file registered under [nm]. *)
Definition insertTuple (nm : string) (t : Tuple) : M unit :=
  this <- Db.get nm ;;
  if negb (TD.compatible (td this) t) then throw logic_error
  else
    placed <-
      (if (0 <? numPages this)%nat then
         let pid := mkPageId (name this) (numPages this - 1) in
         ok <- insert_into pid (td this) t ;;
         if ok then BP.markDirty pid ;;; ret true else ret false
       else ret false) ;;
    if placed then ret tt
    else
      let new_pid := mkPageId (name this) (numPages this) in
      ok <- insert_into new_pid (td this) t ;;
      if negb ok then throw runtime_error
      else
        BP.markDirty new_pid ;;;
        this' <- Db.get nm ;;
        Db.set_file nm (File.set_numPages this' (numPages this' + 1)).

Definition deleteTuple (nm : string) (it : Iterator) : M unit :=
  this <- Db.get nm ;;
  if (numPages this <=? it_page it)%nat then throw out_of_range
  else
    let pid := mkPageId (name this) (it_page it) in
    pos <- BP.getPage pid ;;
    bp <- get_pool ;;
    match HeapPage.deleteTuple (td this) (BP.page_at bp pos) (it_slot it) with
    | Throw e => throw e
    | Ok pg => store_page pos pg ;;; BP.markDirty pid
    end.

Definition getTuple (nm : string) (it : Iterator) : M Tuple :=
  this <- Db.get nm ;;
  if (numPages this <=? it_page it)%nat then throw out_of_range
  else
    pos <- BP.getPage (mkPageId (name this) (it_page it)) ;;
    bp <- get_pool ;;
    match HeapPage.getTuple (td this) (BP.page_at bp pos) (it_slot it) with
    | Throw e => throw e
    | Ok t => ret t
    end.

(** [for (p : ps) { b = HeapPage(getPage({name, p})).begin();
                    if (b != end) return (p, b); }] *)
Fixpoint first_from (nm : string) (tdesc : TupleDesc) (ps : list nat)
  : M (option Iterator) :=
  match ps with
  | [] => ret None
  | p :: r =>
      pos <- BP.getPage (mkPageId nm p) ;;
      bp <- get_pool ;;
      let b := HeapPage.begin tdesc (BP.page_at bp pos) in
      if (b =? HeapPage.end_ tdesc)%nat then first_from nm tdesc r
      else ret (Some (mkIterator p b))
  end.

(** [HeapFile::next(it)], returning the new value of [it]. *)
Definition next (nm : string) (it : Iterator) : M Iterator :=
  this <- Db.get nm ;;
  if (numPages this <=? it_page it)%nat then ret (mkIterator (numPages this) 0)
  else
    pos <- BP.getPage (mkPageId (name this) (it_page it)) ;;
    bp <- get_pool ;;
    let s := HeapPage.next (td this) (BP.page_at bp pos) (it_slot it) in
    if negb (s =? HeapPage.end_ (td this))%nat then ret (mkIterator (it_page it) s)
    else
      found <- first_from (name this) (td this)
                 (seq (it_page it + 1) (numPages this - (it_page it + 1))) ;;
      match found with
      | Some it' => ret it'
      | None => ret (mkIterator (numPages this) 0)
      end.

Definition begin (nm : string) : M Iterator :=
  this <- Db.get nm ;;
  found <- first_from (name this) (td this) (seq 0 (numPages this)) ;;
  match found with
  | Some it => ret it
  | None => ret (mkIterator (numPages this) 0)
  end.

Definition end_ (nm : string) : M Iterator :=
  this <- Db.get nm ;;
  ret (mkIterator (numPages this) 0).

End HeapFile.

(** ** The steps of the buffer pool, in the words of the specification *)

Module PoolSpec.

(** Frame [pos] becomes the most recently used. *)
Definition promoted (bp : BufferPool) (pos : nat) : BufferPool :=
  mkBufferPool (pages bp) (pid_to_pos bp) (pos_to_pid bp) (pos_to_lru bp)
    (pos :: BP.lru_erase pos (lru_list bp)) (dirty bp) (available bp).

(** Frame [pos], which held page [pid], is dissociated: it is in neither
    map, not in the LRU order, not dirty, and free. *)
Definition dissociated (bp : BufferPool) (pid : PageId) (pos : nat) : BufferPool :=
  mkBufferPool (pages bp) (delete pid (pid_to_pos bp))
    (<[pos := PageId0]> (pos_to_pid bp)) (pos_to_lru bp ∖ {[pos]})
    (BP.lru_erase pos (lru_list bp)) (dirty bp ∖ {[pos]}) (pos :: available bp).

(** The free frame on top of [available] receives the bytes [pg] of page
    [pid]: both maps associate them and the frame is the most recently
    used. *)
Definition installed (bp : BufferPool) (pid : PageId) (pg : Page) : BufferPool :=
  match available bp with
  | [] => bp
  | pos :: rest =>
      mkBufferPool (<[pos := pg]> (pages bp)) (<[pid := pos]> (pid_to_pos bp))
        (<[pos := pid]> (pos_to_pid bp)) ({[pos]} ∪ pos_to_lru bp)
        (pos :: lru_list bp) (dirty bp) rest
  end.

(** The files after frame [pos], which holds page [pid], has been written
    back if it is dirty. *)
Definition written_back (fs : gmap string DbFile) (bp : BufferPool)
    (pid : PageId) (pos : nat) : gmap string DbFile :=
  if bool_decide (pos ∈ dirty bp) then
    match fs !! file pid with
    | Some f => <[file pid := File.writePage f (BP.page_at bp pos) (page pid)]> fs
    | None => fs
    end
  else fs.

(** The files after page [pid] has been read through [readPage] of its
    file, and the page read. *)
Definition read_from (fs : gmap string DbFile) (pid : PageId)
  : gmap string DbFile * Page :=
  match fs !! file pid with
  | Some f => (<[file pid := (File.readPage f (page pid)).1]> fs,
               (File.readPage f (page pid)).2)
  | None => (fs, zero_page)
  end.

End PoolSpec.

(** ** The buffer pool as a state machine *)

Inductive pool_op : Type :=
| GetPage (pid : PageId)
| MarkDirty (pid : PageId)
| DiscardPage (pid : PageId)
| FlushPage (pid : PageId)
| FlushFile (nm : string).

(** One call; a caller that catches the exception goes on with the state
    the call left. *)
Definition run_op (o : pool_op) (db : Database) : Database * result unit :=
  match o with
  | GetPage pid => (_ <- BP.getPage pid ;; ret tt) db
  | MarkDirty pid => BP.markDirty pid db
  | DiscardPage pid => BP.discardPage pid db
  | FlushPage pid => BP.flushPage pid db
  | FlushFile nm => BP.flushFile nm db
  end.

Fixpoint run_ops (ops : list pool_op) (db : Database) : Database :=
  match ops with
  | [] => db
  | o :: r => run_ops r (run_op o db).1
  end.

(** The page id of a [getPage] names a registered file. *)
Definition op_registered (fs : gmap string DbFile) (o : pool_op) : Prop :=
  match o with
  | GetPage pid => is_Some (fs !! file pid)
  | _ => True
  end.



(** The state of a pool of [n] frames over files named by [D], with all
    that the operations keep true, also when they throw. *)
Record pool_wf (n : nat) (D : gset string) (db : Database) : Prop := mk_pool_wf {
  wf_dom : dom (files db) = D;
  wf_pid : forall pid pos,
    pid_to_pos (bufferPool db) !! pid = Some pos ->
    pos_to_pid (bufferPool db) !! pos = Some pid /\ file pid ∈ D;
  wf_lru_keys : forall pos,
    pos ∈ pos_to_lru (bufferPool db)
    <-> exists pid, pid_to_pos (bufferPool db) !! pid = Some pos;
  wf_lru_nodup : NoDup (lru_list (bufferPool db));
  wf_lru_list : forall pos,
    pos ∈ lru_list (bufferPool db) <-> pos ∈ pos_to_lru (bufferPool db);
  wf_dirty : dirty (bufferPool db) ⊆ pos_to_lru (bufferPool db);
  wf_free_nodup : NoDup (available (bufferPool db));
  wf_free : forall pos,
    pos ∈ available (bufferPool db) -> pos ∉ pos_to_lru (bufferPool db);
  wf_frames : forall pos,
    pos ∈ available (bufferPool db) \/ pos ∈ pos_to_lru (bufferPool db) ->
    (pos < n)%nat;
  wf_pages : length (pages (bufferPool db)) = n
}.

(** No frame is lost: each of the [n] frames is free or resident. *)
Definition pool_full (n : nat) (db : Database) : Prop :=
  forall pos, (pos < n)%nat ->
    pos ∈ available (bufferPool db) \/ pos ∈ pos_to_lru (bufferPool db).

(** A frame that is free or resident stays so. *)
Definition keeps_frames (db db' : Database) : Prop :=
  forall pos,
    pos ∈ available (bufferPool db) \/ pos ∈ pos_to_lru (bufferPool db) ->
    pos ∈ available (bufferPool db') \/ pos ∈ pos_to_lru (bufferPool db').


(** ** Further definitions *)

(** The loop [for (s = page.begin(); s != page.end(); page.next(s))] over
    the slots of a heap page, collecting the slots it visits.  [None] when
    the loop has not reached [end()] within [fuel] iterations. *)
Module HeapScan.

Fixpoint from (td : TupleDesc) (page : Page) (slot fuel : nat)
  : option (list nat) :=
  if (slot =? HeapPage.end_ td)%nat then Some []
  else match fuel with
       | O => None
       | S k =>
           match from td page (HeapPage.next td page slot) k with
           | Some l => Some (slot :: l)
           | None => None
           end
       end.

Definition slots (td : TupleDesc) (page : Page) (fuel : nat) : option (list nat) :=
  from td page (HeapPage.begin td page) fuel.

End HeapScan.

(** ** The pages as their readers see them *)

(** The bytes of page [pid] as a caller of [getPage] is given them: those
    of the frame when the page is cached, those of the file otherwise. *)
Definition page_view (db : Database) (pid : PageId) : Page :=
  match pid_to_pos (bufferPool db) !! pid with
  | Some pos => BP.page_at (bufferPool db) pos
  | None =>
      match files db !! file pid with
      | Some f => File.pread_page f (page pid)
      | None => zero_page
      end
  end.

(** Every frame is a whole page, and a cached page that is not dirty has
    the bytes of its file. *)
Record pool_coherent (db : Database) : Prop := mk_pool_coherent {
  co_pages :
    Forall (fun pg => length pg = DEFAULT_PAGE_SIZE) (pages (bufferPool db));
  co_clean : forall pid pos f,
    pid_to_pos (bufferPool db) !! pid = Some pos ->
    pos ∉ dirty (bufferPool db) ->
    files db !! file pid = Some f ->
    BP.page_at (bufferPool db) pos = File.pread_page f (page pid)
}.

(** [Database::add] registers a file under its own name. *)
Definition registry_ok (db : Database) : Prop :=
  forall nm f, files db !! nm = Some f -> name f = nm.


(** The offset of slot [i] in a heap page: [data + i * td.length()]. *)
Definition slot_base (td : TupleDesc) (i : nat) : nat :=
  (HeapPage.headerBytes td + i * TD.length td)%nat.

(** The state after the frame [pos] of page [pid] has been written back
    when dirty. *)
Definition flushed (db : Database) (pid : PageId) (pos : nat) : Database :=
  mkDatabase (PoolSpec.written_back (files db) (bufferPool db) pid pos)
    (mkBufferPool (pages (bufferPool db)) (pid_to_pos (bufferPool db))
       (pos_to_pid (bufferPool db)) (pos_to_lru (bufferPool db))
       (lru_list (bufferPool db)) (dirty (bufferPool db) ∖ {[pos]})
       (available (bufferPool db))).

(** What the pool never changes of a file: its name, schema and page
    count. *)
Definition file_meta (f : DbFile) : string * TupleDesc * nat :=
  (name f, td f, numPages f).

(** Two states show the same pages to their readers and have the same
    files, with the same names, schemas and page counts. *)
Definition same_content (db db' : Database) : Prop :=
  (forall pid, page_view db' pid = page_view db pid)
  /\ file_meta <$> files db' = file_meta <$> files db.

(** ** HeapFile.cpp over the pages as their readers see them *)

(** A database in use: a reachable pool of [n] frames that has lost none,
    whose clean frames agree with their files, over files registered under
    their own, non-empty names. *)
Record db_ok (n : nat) (D : gset string) (db : Database) : Prop := mk_db_ok {
  ok_wf : pool_wf n D db;
  ok_full : pool_full n db;
  ok_coherent : pool_coherent db;
  ok_registry : registry_ok db;
  ok_names : ""%string ∉ D;
  ok_frames : (0 < n)%nat
}.

(** The tuple at [it] in the heap file registered under [nm], read from the
    page as its readers see it. *)
Definition heap_tuple (db : Database) (nm : string) (it : Iterator)
  : result Tuple :=
  match files db !! nm with
  | None => Throw out_of_range
  | Some f =>
      if (numPages f <=? it_page it)%nat then Throw out_of_range
      else HeapPage.getTuple (td f) (page_view db (mkPageId nm (it_page it)))
             (it_slot it)
  end.






(** ** The keys of a B+-tree leaf *)

(** The tuples of a leaf are in strictly ascending order of their keys: no
    key occurs twice. *)
Definition leaf_strict (p : LeafPage.t) : Prop :=
  forall i j, (i < j < LeafPage.size p)%nat ->
    LeafPage.key_val p i < LeafPage.key_val p j.

(** Some tuple of the leaf has the key [v]. *)
Definition leaf_has_key (p : LeafPage.t) (v : Z) : Prop :=
  exists j, (j < LeafPage.size p)%nat /\ LeafPage.key_val p j = v.

(** ** Sample values used by the examples *)

Definition sample_td : TupleDesc := mkTupleDesc [INT; DOUBLE; CHAR] ["id"; "x"; "name"]%string.

Definition sample_tuple : Tuple := [FInt (-7); FDouble 4614253070214989087; FChar [104; 105]].

Definition sample_index : IndexPage.t :=
  IndexPage.mk 4 2 0 [10; 30; 0; 0] [1; 2; 3; 0; 0].

Definition full_index : IndexPage.t :=
  IndexPage.mk 4 4 1 [10; 20; 30; 40] [1; 2; 3; 4; 5].

Definition empty_index : IndexPage.t :=
  IndexPage.mk 4 0 0 [0; 0; 0; 0] [0; 0; 0; 0; 0].

Definition leaf_td : TupleDesc := mkTupleDesc [INT; DOUBLE] ["id"; "x"]%string.

(** A leaf of capacity 3 holding the keys 10 and 30. *)
Definition sample_leaf : LeafPage.t :=
  LeafPage.mk leaf_td 0 3 (2 ^ 64 - 1) 2
    ([10; 0; 0; 0; 1; 0; 0; 0; 0; 0; 0; 0;
      30; 0; 0; 0; 3; 0; 0; 0; 0; 0; 0; 0] ++ replicate 12 0).

Definition leaf_tuple : Tuple := [FInt 20; FDouble 2].

Definition empty_leaf : LeafPage.t :=
  LeafPage.mk leaf_td 0 3 0 0 (replicate 36 0).

Definition sample_file : DbFile :=
  mkDbFile "emp" leaf_td 2 [] [] (replicate (2 * DEFAULT_PAGE_SIZE) 0).

Definition sample_db : Database :=
  mkDatabase {["emp" := sample_file]} (BP.init 3).

Definition sample_files : gmap string DbFile := {["emp" := sample_file]}.



(** Three frames, all in use; page 0 of "emp" is the least recently used
    and is dirty. *)
Definition full_ops : list pool_op :=
  [GetPage (mkPageId "emp" 0); GetPage (mkPageId "emp" 1);
   MarkDirty (mkPageId "emp" 0); GetPage (mkPageId "emp" 2)].

Definition full_db : Database :=
  run_ops full_ops (mkDatabase sample_files (BP.init 3)).

(** The schema of the scenarios of the specification: [{id: INT, name: CHAR}]. *)
Definition people_td : TupleDesc := mkTupleDesc [INT; CHAR] ["id"; "name"]%string.

Definition people_file : DbFile := mkDbFile "people" people_td 0 [] [] [].

Definition people_db : Database :=
  mkDatabase {["people" := people_file]} (BP.init 3).

(** Three inserts into the empty file. *)
Definition people_loaded : Database :=
  (HeapFile.insertTuple "people" [FInt 3; FChar [99]]
     (HeapFile.insertTuple "people" [FInt 2; FChar [98]]
        (HeapFile.insertTuple "people" [FInt 1; FChar [97]] people_db).1).1).1.

(** [begin], [getTuple], then [n] times [next] and [getTuple]. *)
Fixpoint scan_from (nm : string) (it : Iterator) (n : nat) (db : Database)
  : list (result Tuple) :=
  match n with
  | O => []
  | S k =>
      let r := HeapFile.getTuple nm it db in
      match HeapFile.next nm it r.1 with
      | (db', Ok it') => r.2 :: scan_from nm it' k db'
      | (_, Throw e) => [r.2; Throw e]
      end
  end.

(** ** Further sample values *)

Definition people2_td : TupleDesc :=
  mkTupleDesc [INT; CHAR] ["pid"; "city"]%string.

(** A heap page of [leaf_td] tuples holding [leaf_tuple] in slot 0. *)
Definition heap_page1 : Page :=
  match HeapPage.insertTuple leaf_td zero_page leaf_tuple with
  | Ok (p, _) => p
  | Throw _ => zero_page
  end.



(** * Properties *)

(** *** Facts about raw memory *)

Section MemFacts.

Import Mem.

Lemma length_write_at {A} off (bs buf : list A) :
  (off + length bs <= length buf)%nat ->
  length (write_at off bs buf) = length buf.
Proof.
  intros H. unfold write_at.
  rewrite !length_app, length_take, length_drop. lia.
Qed.

Lemma length_read_at {A} off n (buf : list A) :
  (off + n <= length buf)%nat -> length (read_at off n buf) = n.
Proof.
  intros H. unfold read_at. rewrite length_take, length_drop. lia.
Qed.

Lemma read_write_same {A} off (bs buf : list A) :
  (off + length bs <= length buf)%nat ->
  read_at off (length bs) (write_at off bs buf) = bs.
Proof.
  intros H. unfold read_at, write_at.
  rewrite drop_app_length'; [| rewrite length_take; lia].
  by rewrite take_app_length.
Qed.

Lemma lookup_write_at_lt {A} off (bs buf : list A) (i : nat) :
  (i < off)%nat -> (off <= length buf)%nat ->
  write_at off bs buf !! i = buf !! i.
Proof.
  intros Hi Hl. unfold write_at.
  rewrite lookup_app_l; [| rewrite length_take; lia].
  by rewrite lookup_take_lt.
Qed.

Lemma lookup_write_at_in {A} off (bs buf : list A) (i : nat) :
  (off <= length buf)%nat -> (off <= i < off + length bs)%nat ->
  write_at off bs buf !! i = bs !! (i - off)%nat.
Proof.
  intros Hl Hi. unfold write_at.
  rewrite lookup_app_r; rewrite length_take; [| lia].
  rewrite lookup_app_l; [| lia].
  f_equal. lia.
Qed.

Lemma lookup_write_at_ge {A} off (bs buf : list A) (i : nat) :
  (off <= length buf)%nat -> (off + length bs <= i)%nat ->
  write_at off bs buf !! i = buf !! i.
Proof.
  intros Hl Hi. unfold write_at.
  rewrite lookup_app_r; rewrite length_take; [| lia].
  rewrite lookup_app_r; [| lia].
  rewrite lookup_drop. f_equal. lia.
Qed.

Lemma lookup_read_at {A} off n (buf : list A) (i : nat) :
  (i < n)%nat -> read_at off n buf !! i = buf !! (off + i)%nat.
Proof.
  intros Hi. unfold read_at.
  rewrite lookup_take_lt by done. by rewrite lookup_drop.
Qed.

Lemma read_at_ext {A} off off' n (b1 b2 : list A) :
  (forall i : nat, (i < n)%nat -> b1 !! (off + i)%nat = b2 !! (off' + i)%nat) ->
  read_at off n b1 = read_at off' n b2.
Proof.
  intros H. apply list_eq. intros i.
  destruct (decide (i < n)%nat) as [Hi|Hi].
  - rewrite !lookup_read_at by done. by apply H.
  - unfold read_at. rewrite !lookup_take_ge by lia. done.
Qed.

Lemma read_write_disjoint {A} q n off (bs buf : list A) :
  (off + length bs <= length buf)%nat ->
  (q + n <= off \/ off + length bs <= q)%nat ->
  read_at q n (write_at off bs buf) = read_at q n buf.
Proof.
  intros Hl Hd. apply read_at_ext. intros i Hi.
  destruct Hd as [Hd|Hd].
  - apply lookup_write_at_lt; lia.
  - apply lookup_write_at_ge; lia.
Qed.

End MemFacts.

(** *** Facts about the codec *)

Section CodecFacts.

Lemma length_le_bytes n u : length (Codec.le_bytes n u) = n.
Proof. revert u. induction n as [|n IH]; intros u; simpl; [done | by rewrite IH]. Qed.

Lemma le_value_le_bytes n u :
  Codec.le_value (Codec.le_bytes n u) = u mod 256 ^ Z.of_nat n.
Proof.
  revert u. induction n as [|n IH]; intros u.
  - simpl. by rewrite Z.mod_1_r.
  - cbn [Codec.le_bytes Codec.le_value]. rewrite IH.
    rewrite Nat2Z.inj_succ, Z.pow_succ_r by lia.
    rewrite Z.rem_mul_r; lia.
Qed.

Lemma int_roundtrip v :
  - 2 ^ 31 <= v < 2 ^ 31 -> Codec.int_of_bytes (Codec.int_bytes v) = v.
Proof.
  intros Hv. unfold Codec.int_of_bytes, Codec.int_bytes.
  rewrite le_value_le_bytes.
  change (256 ^ Z.of_nat INT_SIZE) with (2 ^ 32).
  rewrite Z.mod_mod by lia.
  destruct (Z.ltb_spec (v mod 2 ^ 32) (2 ^ 31)) as [H|H].
  - destruct (Z.le_gt_cases 0 v) as [Hp|Hn].
    + rewrite Z.mod_small; lia.
    + rewrite <- (Z.mod_add v 1) in H by lia.
      rewrite Z.mod_small in H; lia.
  - destruct (Z.le_gt_cases 0 v) as [Hp|Hn].
    + rewrite Z.mod_small in H; lia.
    + rewrite <- (Z.mod_add v 1) by lia.
      rewrite Z.mod_small; lia.
Qed.

Lemma double_roundtrip b :
  0 <= b < 2 ^ 64 -> Codec.double_of_bytes (Codec.double_bytes b) = b.
Proof.
  intros Hb. unfold Codec.double_of_bytes, Codec.double_bytes.
  rewrite le_value_le_bytes.
  change (256 ^ Z.of_nat DOUBLE_SIZE) with (2 ^ 64).
  apply Z.mod_small; lia.
Qed.

Lemma length_char_bytes s : length (Codec.char_bytes s) = CHAR_SIZE.
Proof.
  unfold Codec.char_bytes. rewrite length_app, length_take, length_replicate. lia.
Qed.

Lemma cstr_no_nul s : Forall (fun b => b <> 0) s -> Codec.cstr s = s.
Proof.
  induction 1 as [|b r Hb _ IH]; simpl; [done|].
  destruct (Z.eqb_spec b 0); [done | by rewrite IH].
Qed.

Lemma cstr_app_nul s r :
  Forall (fun b => b <> 0) s -> Codec.cstr (s ++ 0 :: r) = s.
Proof.
  induction 1 as [|b q Hb _ IH]; simpl; [done|].
  destruct (Z.eqb_spec b 0); [done | by rewrite IH].
Qed.

(** A string no longer than [CHAR_SIZE] and free of NUL bytes is read
    back as it was stored. *)
Lemma char_roundtrip s :
  (length s <= CHAR_SIZE)%nat -> Forall (fun b => b <> 0) s ->
  Codec.char_of_bytes (Codec.char_bytes s) = s.
Proof.
  intros Hl Hs. unfold Codec.char_of_bytes, Codec.char_bytes.
  rewrite Nat.min_l by done. rewrite (take_ge s) by lia.
  rewrite take_ge by (rewrite length_app, length_replicate; lia).
  destruct (CHAR_SIZE - length s)%nat as [|k] eqn:E.
  - simpl. rewrite app_nil_r. by apply cstr_no_nul.
  - simpl. by apply cstr_app_nul.
Qed.

Lemma write_char_eq ptr s data :
  (ptr + CHAR_SIZE <= length data)%nat ->
  TD.write_char ptr s data = Mem.write_at ptr (Codec.char_bytes s) data.
Proof.
  intros Hl. unfold TD.write_char, Codec.char_bytes.
  destruct (Nat.ltb_spec CHAR_SIZE (length s)) as [Hlong|Hshort].
  - rewrite Nat.ltb_irrefl, Nat.min_r by lia.
    by rewrite Nat.sub_diag, app_nil_r.
  - rewrite Nat.min_l by lia.
    destruct (Nat.ltb_spec (length s) CHAR_SIZE) as [Hlt|Hge].
    + unfold Mem.memset0, Mem.write_at.
      rewrite (take_ge s) by lia.
      rewrite length_app, length_replicate.
      rewrite take_app_ge; rewrite length_take; [| lia].
      rewrite Nat.min_l by lia.
      replace (ptr + length s - ptr)%nat with (length s) by lia.
      rewrite take_app_length'; [| done].
      rewrite <- !app_assoc. do 3 f_equal.
      rewrite drop_app_ge; rewrite length_take; [| lia].
      rewrite drop_app_ge by lia. rewrite drop_drop. f_equal. lia.
    + replace (CHAR_SIZE - length s)%nat with 0%nat by lia.
      by rewrite app_nil_r.
Qed.

End CodecFacts.

(** *** Layout of a tuple: the fields occupy consecutive, disjoint ranges *)

Section Layout.

Lemma length_offsets_from off tys : length (TD.offsets_from off tys) = length tys.
Proof. revert off. induction tys as [|ty r IH]; intros off; simpl; [done | by rewrite IH]. Qed.

Lemma length_from_mono off tys : (off <= TD.length_from off tys)%nat.
Proof.
  revert off. induction tys as [|ty r IH]; intros off; simpl; [lia|].
  specialize (IH (off + TD.size_of_fixed ty)%nat). lia.
Qed.

(** Field [i] lies inside the tuple and ends before field [j > i] starts. *)
Lemma offsets_from_spec off tys (i : nat) ty :
  tys !! i = Some ty ->
  exists o, TD.offsets_from off tys !! i = Some o
    /\ (off <= o)%nat
    /\ (o + TD.size_of_fixed ty <= TD.length_from off tys)%nat
    /\ (forall (j : nat) o', (i < j)%nat -> TD.offsets_from off tys !! j = Some o' ->
          (o + TD.size_of_fixed ty <= o')%nat).
Proof.
  revert off i ty. induction tys as [|ty0 r IH]; intros off i ty Hi; [done|].
  destruct i as [|i]; simpl in *.
  - injection Hi as ->. exists off. split; [done|]. split; [lia|]. split.
    + apply length_from_mono.
    + intros [|j] o' Hj Ho'; [lia|]. simpl in Ho'.
      destruct (r !! j) as [tyj|] eqn:Ej.
      * destruct (IH (off + TD.size_of_fixed ty)%nat j tyj Ej) as (o & Ho & Hle & _).
        rewrite Ho in Ho'. injection Ho' as <-. lia.
      * apply lookup_ge_None in Ej.
        rewrite lookup_ge_None_2 in Ho' by (rewrite length_offsets_from; lia). done.
  - destruct (IH (off + TD.size_of_fixed ty0)%nat i ty Hi) as (o & Ho & Hle & Hend & Hnext).
    exists o. split; [done|]. split; [lia|]. split; [done|].
    intros [|j] o' Hj Ho'; [lia|]. simpl in Ho'. apply (Hnext j); [lia | done].
Qed.

Lemma compatible_from_spec tys t (k i : nat) ty :
  TD.compatible_from tys t k = true -> tys !! i = Some ty ->
  Tup.field_type t (k + i) = Ok ty.
Proof.
  revert k i. induction tys as [|ty0 r IH]; intros k i Hc Hi; [done|].
  simpl in Hc. destruct (Tup.field_type t k) as [ty'|] eqn:E; [|done].
  destruct (decide (ty' = ty0)) as [->|]; [|done].
  destruct i as [|i]; simpl in Hi.
  - injection Hi as <-. by rewrite Nat.add_0_r.
  - replace (k + S i)%nat with (S k + i)%nat by lia. by apply IH.
Qed.

Lemma compatible_spec td t :
  TD.compatible td t = true ->
  length t = length (types_ td)
  /\ forall (i : nat) ty, types_ td !! i = Some ty -> Tup.field_type t i = Ok ty.
Proof.
  unfold TD.compatible, Tup.size. intros H.
  destruct (Nat.eqb_spec (length t) (length (types_ td))) as [E|]; [|done].
  split; [done|]. intros i ty Hi. simpl in H.
  by apply (compatible_from_spec _ _ 0 i ty H).
Qed.

Lemma length_payload f : length (payload f) = TD.size_of_fixed (type_of f).
Proof.
  destruct f.
  - apply (length_le_bytes INT_SIZE).
  - apply (length_le_bytes DOUBLE_SIZE).
  - apply length_char_bytes.
Qed.

Lemma field_type_Ok t (i : nat) ty :
  Tup.field_type t i = Ok ty -> exists f, t !! i = Some f /\ type_of f = ty.
Proof.
  unfold Tup.field_type. destruct (t !! i) as [[v|b|s]|]; intros H; inversion H; eauto.
Qed.

Variables (td : TupleDesc) (t : Tuple) (base : nat).
Hypothesis Hcompat : TD.compatible td t = true.

Lemma field_at (i : nat) :
  (i < TD.size td)%nat ->
  exists f o, t !! i = Some f /\ types_ td !! i = Some (type_of f)
    /\ TD.offsets_ td !! i = Some o
    /\ (o + length (payload f) <= TD.length td)%nat
    /\ (forall (j : nat) o', (i < j)%nat -> TD.offsets_ td !! j = Some o' ->
          (o + length (payload f) <= o')%nat).
Proof.
  intros Hi. destruct (compatible_spec _ _ Hcompat) as [Hlen Hty].
  destruct (lookup_lt_is_Some_2 (types_ td) i Hi) as [ty Ety].
  destruct (field_type_Ok _ _ _ (Hty _ _ Ety)) as (f & Ef & Tf).
  destruct (offsets_from_spec 0 _ _ _ Ety) as (o & Ho & _ & Hend & Hnext).
  exists f, o. rewrite length_payload, Tf. by repeat split.
Qed.

Lemma serialize_field_write data (i : nat) f o :
  t !! i = Some f -> types_ td !! i = Some (type_of f) ->
  TD.offsets_ td !! i = Some o ->
  (base + o + length (payload f) <= length data)%nat ->
  TD.serialize_field td t base data i = Mem.write_at (base + o) (payload f) data.
Proof.
  intros Ef Ety Eo Hl. unfold TD.serialize_field. rewrite Ef, Ety, Eo. simpl.
  destruct f as [v|b|s]; simpl; try done.
  apply write_char_eq. simpl in Hl. rewrite length_char_bytes in Hl. lia.
Qed.

Lemma serialize_fold_length (l : list nat) data :
  (base + TD.length td <= length data)%nat ->
  Forall (fun i => i < TD.size td)%nat l ->
  length (foldl (TD.serialize_field td t base) data l) = length data.
Proof.
  intros Hl Hall. revert data Hl.
  induction Hall as [|j l Hj _ IH]; intros data Hl; [done|]. simpl.
  destruct (field_at j Hj) as (f & o & Ef & Ety & Eo & Hend & _).
  assert (length (TD.serialize_field td t base data j) = length data) as E.
  { rewrite (serialize_field_write data j f o) by (done || lia).
    apply length_write_at. lia. }
  rewrite IH; lia.
Qed.

(** After the loop has run over the indices [l], the range of a field
    whose index is in [l] holds that field's bytes. *)
Lemma serialize_fold_read (l : list nat) data (i : nat) f o :
  (base + TD.length td <= length data)%nat ->
  Forall (fun i => i < TD.size td)%nat l -> NoDup l ->
  t !! i = Some f -> TD.offsets_ td !! i = Some o -> (i < TD.size td)%nat ->
  Mem.read_at (base + o) (length (payload f))
      (foldl (TD.serialize_field td t base) data l)
  = if decide (i ∈ l) then payload f
    else Mem.read_at (base + o) (length (payload f)) data.
Proof.
  intros Hl Hall Hnd Ef Eo Hi. revert data Hl.
  induction Hall as [|j l Hj Hall IH]; intros data Hl.
  { cbn [foldl]. destruct (decide (i ∈ [])) as [Hin|_]; [by apply elem_of_nil in Hin | done]. }
  apply NoDup_cons in Hnd as [Hjl Hnd]. cbn [foldl].
  destruct (field_at j Hj) as (fj & oj & Efj & Etyj & Eoj & Hendj & Hnextj).
  destruct (field_at i Hi) as (fi & oi & Efi & Etyi & Eoi & Hendi & Hnexti).
  assert (fi = f) as -> by congruence. assert (oi = o) as -> by congruence.
  assert (TD.serialize_field td t base data j
          = Mem.write_at (base + oj) (payload fj) data) as Ej
    by (apply serialize_field_write; (done || lia)).
  assert (length (TD.serialize_field td t base data j) = length data) as Elen
    by (rewrite Ej; apply length_write_at; lia).
  rewrite IH by (done || lia).
  destruct (decide (i ∈ l)) as [Hil|Hil];
    destruct (decide (i ∈ j :: l)) as [Hijl|Hijl]; try done.
  - exfalso. apply Hijl, elem_of_cons. by right.
  - apply elem_of_cons in Hijl as [->|?]; [|done].
    assert (fj = f) as -> by congruence. assert (oj = o) as -> by congruence.
    rewrite Ej. apply read_write_same. lia.
  - assert (i <> j) as Hij by (intros ->; apply Hijl, elem_of_cons; by left).
    rewrite Ej. apply read_write_disjoint; [lia|].
    destruct (Nat.lt_total i j) as [Hlt|[?|Hgt]]; [|done|].
    + left. specialize (Hnexti j oj Hlt Eoj). lia.
    + right. specialize (Hnextj i o Hgt Eo). lia.
Qed.

End Layout.

(** *** Round trip of the codec *)

Lemma cstr_pad s k : Codec.cstr (s ++ replicate k 0) = Codec.cstr s.
Proof.
  induction s as [|b r IH]; simpl.
  - by destruct k.
  - by rewrite IH.
Qed.

(** What is read back from a stored string: its first [CHAR_SIZE] bytes,
    up to the first NUL. *)
Lemma stored_char s :
  Codec.char_of_bytes (Codec.char_bytes s) = Codec.cstr (take CHAR_SIZE s).
Proof.
  unfold Codec.char_of_bytes, Codec.char_bytes.
  rewrite (take_ge (_ ++ _))
    by (rewrite length_app, length_take, length_replicate; lia).
  destruct (Nat.le_gt_cases (length s) CHAR_SIZE) as [Hs|Hs].
  - rewrite Nat.min_l by done. rewrite !(take_ge s) by lia. apply cstr_pad.
  - rewrite Nat.min_r by lia. by rewrite Nat.sub_diag, app_nil_r.
Qed.

Lemma stored_field_plain f : field_ok f -> plain_field f -> stored_field f = f.
Proof.
  destruct f as [v|b|s]; simpl; try done.
  intros _ [Hl Hs]. f_equal. apply char_roundtrip; [lia | done].
Qed.

Lemma deserialize_field_read td (t : Tuple) base data (i : nat) f o :
  t !! i = Some f -> types_ td !! i = Some (type_of f) ->
  TD.offsets_ td !! i = Some o -> field_ok f ->
  Mem.read_at (base + o) (length (payload f)) data = payload f ->
  TD.deserialize_field td data base i = stored_field f.
Proof.
  intros Ef Ety Eo Hok Hread. unfold TD.deserialize_field.
  rewrite Ety, Eo. unfold default. cbn [from_option id].
  destruct f as [v|b|s]; cbn [type_of stored_field] in *.
  - rewrite (length_payload (FInt v)) in Hread. cbn [type_of TD.size_of_fixed] in Hread.
    rewrite Hread. cbn [payload]. by rewrite int_roundtrip.
  - rewrite (length_payload (FDouble b)) in Hread. cbn [type_of TD.size_of_fixed] in Hread.
    rewrite Hread. cbn [payload]. by rewrite double_roundtrip.
  - rewrite (length_payload (FChar s)) in Hread. cbn [type_of TD.size_of_fixed] in Hread.
    by rewrite Hread.
Qed.

(** [serialize] succeeds on a compatible tuple and [deserialize] reads the
    stored tuple back. *)
Lemma serialize_deserialize td t data base :
  TD.compatible td t = true -> tuple_ok t ->
  (base + TD.length td <= length data)%nat ->
  exists data',
    TD.serialize td data base t = Ok data'
    /\ length data' = length data
    /\ TD.deserialize td data' base = stored t
    /\ (Forall plain_field t -> TD.deserialize td data' base = t).
Proof.
  intros Hc Hok Hl. unfold TD.serialize. rewrite Hc. cbn [negb].
  eexists. split; [reflexivity|].
  set (data' := foldl _ _ _).
  assert (Forall (fun i => i < TD.size td)%nat (seq 0 (TD.size td))) as Hall.
  { apply Forall_forall. intros i Hi. apply elem_of_seq in Hi. lia. }
  assert (TD.deserialize td data' base = stored t) as Hrt.
  { destruct (compatible_spec _ _ Hc) as [Hlen _].
    unfold TD.deserialize, stored. apply list_eq. intros i.
    rewrite !list_lookup_fmap.
    destruct (decide (i < TD.size td)%nat) as [Hi|Hi].
    - rewrite lookup_seq_lt by done. cbn [fmap option_fmap option_map Nat.add].
      destruct (field_at td t Hc i Hi) as (f & o & Ef & Ety & Eo & Hend & _).
      rewrite Ef. cbn [fmap option_fmap option_map]. f_equal.
      apply (deserialize_field_read td t base data' i f o); try done.
      + eapply Forall_lookup_1; eauto.
      + unfold data'.
        rewrite (serialize_fold_read td t base Hc _ data i f o); try done.
        * rewrite decide_True; [done|]. apply elem_of_seq. lia.
        * apply NoDup_seq.
    - rewrite lookup_seq_ge by lia.
      rewrite lookup_ge_None_2 by (unfold TD.size in Hi; lia). done. }
  split; [by apply serialize_fold_length|]. split; [done|].
  intros Hplain. rewrite Hrt. unfold stored.
  apply list_eq. intros i. rewrite list_lookup_fmap.
  destruct (t !! i) as [f|] eqn:Ef; [|done]. cbn. f_equal.
  apply stored_field_plain; eapply Forall_lookup_1; eauto.
Qed.

(** C8. For a tuple [t] compatible with [td], [serialize] succeeds and
    [deserialize] of the bytes it wrote returns [t] with every CHAR field
    cut at [CHAR_SIZE] bytes, NUL-padded and read back ([stored t]); when
    the CHAR fields of [t] are shorter than [CHAR_SIZE] and hold no NUL
    byte the tuple read back is [t] itself. *)
Theorem C8_serialize_deserialize_roundtrip td t data base :
  TD.compatible td t = true -> tuple_ok t ->
  (base + TD.length td <= length data)%nat ->
  exists data',
    TD.serialize td data base t = Ok data'
    /\ length data' = length data
    /\ TD.deserialize td data' base = stored t
    /\ (Forall plain_field t -> TD.deserialize td data' base = t).
Proof. apply serialize_deserialize. Qed.

Lemma C8_serialize_deserialize_roundtrip_witness :
  exists data',
    TD.serialize sample_td (replicate 80 0) 2 sample_tuple = Ok data'
    /\ length data' = length (replicate 80 0)
    /\ TD.deserialize sample_td data' 2 = stored sample_tuple
    /\ (Forall plain_field sample_tuple -> TD.deserialize sample_td data' 2 = sample_tuple).
Proof.
  apply (C8_serialize_deserialize_roundtrip sample_td sample_tuple (replicate 80 0) 2).
  - reflexivity.
  - repeat constructor; simpl; lia.
  - vm_compute. lia.
Defined.

(** *** Heap page: the bitmap *)

Section HeapPageBits.

Import HeapPage.

Lemma slot_byte_div i : slot_byte i = (i / 8)%nat.
Proof.
  unfold slot_byte. rewrite Z.shiftr_div_pow2 by lia.
  change (2 ^ 3) with (Z.of_nat 8). rewrite <- Nat2Z.inj_div. apply Nat2Z.id.
Qed.

Lemma land_7_mod i : Z.land (Z.of_nat i) 7 = Z.of_nat (i mod 8).
Proof.
  change 7 with (Z.ones 3). rewrite Z.land_ones by lia.
  change (2 ^ 3) with (Z.of_nat 8). by rewrite <- Nat2Z.inj_mod.
Qed.

Lemma mod8_cases i :
  let k := Z.of_nat (i mod 8) in
  k = 0 \/ k = 1 \/ k = 2 \/ k = 3 \/ k = 4 \/ k = 5 \/ k = 6 \/ k = 7.
Proof. intros k. subst k. pose proof (Nat.mod_upper_bound i 8). lia. Qed.

Lemma slot_mask_shift i : slot_mask i = Z.shiftr 128 (Z.of_nat (i mod 8)).
Proof.
  unfold slot_mask. rewrite land_7_mod.
  destruct (mod8_cases i) as [H|[H|[H|[H|[H|[H|[H|H]]]]]]]; rewrite H; reflexivity.
Qed.

Lemma slot_mask_pow2 i : slot_mask i = 2 ^ (7 - Z.of_nat (i mod 8)).
Proof.
  rewrite slot_mask_shift.
  destruct (mod8_cases i) as [H|[H|[H|[H|[H|[H|[H|H]]]]]]]; rewrite H; reflexivity.
Qed.

Lemma land_pow2_eqb b k :
  0 <= k -> (Z.land b (2 ^ k) =? 0) = negb (Z.testbit b k).
Proof.
  intros Hk. destruct (Z.testbit b k) eqn:E; simpl.
  - apply Z.eqb_neq. intros H0.
    assert (Z.testbit (Z.land b (2 ^ k)) k = true) as Hb
      by (rewrite Z.land_spec, E, Z.pow2_bits_true by lia; done).
    rewrite H0, Z.bits_0 in Hb. done.
  - apply Z.eqb_eq. apply Z.bits_inj'. intros n Hn.
    rewrite Z.land_spec, Z.bits_0, Z.pow2_bits_eqb by lia.
    destruct (Z.eqb_spec k n) as [->|]; [by rewrite E | apply andb_false_r].
Qed.

Lemma occupied_msb page i : occupied page i = msb_bit page i.
Proof.
  unfold occupied, msb_bit. rewrite slot_byte_div, slot_mask_pow2.
  rewrite land_pow2_eqb; [apply negb_involutive|].
  pose proof (Nat.mod_upper_bound i 8). lia.
Qed.

Lemma bit_index_inj (i j : nat) :
  (i / 8 = j / 8)%nat -> 7 - Z.of_nat (i mod 8) = 7 - Z.of_nat (j mod 8) -> i = j.
Proof.
  intros Hd Hm. rewrite (Nat.div_mod_eq i 8), (Nat.div_mod_eq j 8). lia.
Qed.

Lemma header_at_insert page (b b' : nat) v :
  (b < length page)%nat ->
  header_at (<[b := v]> page) b' = if decide (b' = b) then v else header_at page b'.
Proof.
  intros Hb. unfold header_at. destruct (decide (b' = b)) as [->|Hne].
  - by rewrite list_lookup_insert_eq.
  - by rewrite list_lookup_insert_ne.
Qed.

Lemma msb_bit_set page i j :
  (i / 8 < length page)%nat ->
  msb_bit (set_bit page i) j = if decide (j = i) then true else msb_bit page j.
Proof.
  intros Hi. unfold msb_bit, set_bit.
  rewrite slot_byte_div, slot_mask_pow2, header_at_insert by done.
  pose proof (Nat.mod_upper_bound i 8). pose proof (Nat.mod_upper_bound j 8).
  destruct (decide (j = i)) as [->|Hne].
  - rewrite decide_True by done.
    rewrite Z.lor_spec, Z.pow2_bits_true by lia. apply orb_true_r.
  - destruct (decide (j / 8 = i / 8)%nat) as [E|]; [|done].
    rewrite Z.lor_spec, Z.pow2_bits_false, E; [apply orb_false_r|].
    intros Hm. apply Hne. by apply bit_index_inj.
Qed.

Lemma msb_bit_clear page i j :
  (i / 8 < length page)%nat ->
  msb_bit (clear_bit page i) j = if decide (j = i) then false else msb_bit page j.
Proof.
  intros Hi. unfold msb_bit, clear_bit.
  rewrite slot_byte_div, slot_mask_pow2, header_at_insert by done.
  pose proof (Nat.mod_upper_bound i 8). pose proof (Nat.mod_upper_bound j 8).
  change 256 with (2 ^ 8).
  destruct (decide (j = i)) as [->|Hne].
  - rewrite decide_True by done.
    rewrite Z.mod_pow2_bits_low by lia.
    rewrite Z.land_spec, Z.lnot_spec, Z.pow2_bits_true by lia. apply andb_false_r.
  - destruct (decide (j / 8 = i / 8)%nat) as [E|]; [|done].
    rewrite Z.mod_pow2_bits_low by lia.
    rewrite Z.land_spec, Z.lnot_spec, Z.pow2_bits_false, E; [apply andb_true_r | | lia].
    intros Hm. apply Hne. by apply bit_index_inj.
Qed.

Lemma scan_Some test s n i :
  scan test s n = Some i ->
  (s <= i < s + n)%nat /\ test i = true
  /\ forall j, (s <= j < i)%nat -> test j = false.
Proof.
  revert s. induction n as [|n IH]; intros s H; [done|]. simpl in H.
  destruct (test s) eqn:E.
  - injection H as <-. repeat split; [lia | lia | done | intros; lia].
  - destruct (IH _ H) as (Hr & Ht & Hl). repeat split; [lia | lia | done |].
    intros j Hj. destruct (decide (j = s)) as [->|]; [done | apply Hl; lia].
Qed.

Lemma scan_None test s n :
  scan test s n = None -> forall j, (s <= j < s + n)%nat -> test j = false.
Proof.
  revert s. induction n as [|n IH]; intros s H j Hj; [lia|]. simpl in H.
  destruct (test s) eqn:E; [done|].
  destruct (decide (j = s)) as [->|]; [done | apply (IH _ H); lia].
Qed.

End HeapPageBits.

(** [serialize] writes inside the tuple's own range only. *)
Lemma serialize_fold_outside td (t : Tuple) base (l : list nat) data (j : nat) :
  TD.compatible td t = true ->
  (base + TD.length td <= length data)%nat ->
  Forall (fun i => i < TD.size td)%nat l ->
  (j < base \/ base + TD.length td <= j)%nat ->
  foldl (TD.serialize_field td t base) data l !! j = data !! j.
Proof.
  intros Hc Hl Hall Hj. revert data Hl.
  induction Hall as [|k l Hk _ IH]; intros data Hl; [done|]. cbn [foldl].
  destruct (field_at td t Hc k Hk) as (f & o & Ef & Ety & Eo & Hend & _).
  assert (TD.serialize_field td t base data k
          = Mem.write_at (base + o) (payload f) data) as Ek
    by (apply serialize_field_write; (done || lia)).
  rewrite IH by (rewrite Ek, length_write_at; lia).
  rewrite Ek. destruct Hj as [Hj|Hj].
  - apply lookup_write_at_lt; lia.
  - apply lookup_write_at_ge; lia.
Qed.

Lemma serialize_outside td (t : Tuple) base data data' (j : nat) :
  TD.serialize td data base t = Ok data' ->
  (base + TD.length td <= length data)%nat ->
  (j < base \/ base + TD.length td <= j)%nat ->
  data' !! j = data !! j.
Proof.
  unfold TD.serialize. destruct (TD.compatible td t) eqn:Hc; [|done].
  cbn [negb]. intros [= <-] Hl Hj.
  apply serialize_fold_outside; try done.
  apply Forall_forall. intros i Hi. apply elem_of_seq in Hi. lia.
Qed.

Lemma serialize_length td (t : Tuple) base data data' :
  TD.serialize td data base t = Ok data' ->
  (base + TD.length td <= length data)%nat ->
  length data' = length data.
Proof.
  unfold TD.serialize. destruct (TD.compatible td t) eqn:Hc; [|done].
  cbn [negb]. intros [= <-] Hl.
  apply serialize_fold_length; try done.
  apply Forall_forall. intros i Hi. apply elem_of_seq in Hi. lia.
Qed.

(** *** Heap page: capacity *)

Section HeapPageCapacity.

Import HeapPage.

Variable td : TupleDesc.
Hypothesis Hfit : 8 * Z.of_nat (TD.length td) + 1 < 2 ^ 64.

Lemma capacity_floor :
  Z.of_nat (capacity td)
  = (8 * Z.of_nat DEFAULT_PAGE_SIZE) / (8 * Z.of_nat (TD.length td) + 1).
Proof.
  unfold capacity.
  rewrite (Z.mod_small (8 * Z.of_nat DEFAULT_PAGE_SIZE)) by (unfold DEFAULT_PAGE_SIZE; lia).
  rewrite (Z.mod_small (8 * Z.of_nat (TD.length td) + 1)) by lia.
  apply Z2Nat.id. apply Z.div_pos; lia.
Qed.

Lemma capacity_mul :
  (capacity td * (8 * TD.length td + 1) <= 8 * DEFAULT_PAGE_SIZE)%nat.
Proof.
  pose proof capacity_floor as H.
  pose proof (Z.mul_div_le (8 * Z.of_nat DEFAULT_PAGE_SIZE)
                (8 * Z.of_nat (TD.length td) + 1) ltac:(lia)) as Hle.
  rewrite <- H in Hle. lia.
Qed.

Lemma header_fits (i : nat) :
  (i < capacity td)%nat -> (i / 8 < headerBytes td)%nat.
Proof.
  intros Hi. unfold headerBytes.
  apply Nat.Div0.div_lt_upper_bound.
  pose proof (Nat.Div0.mul_div_le (capacity td + 7) 8).
  pose proof (Nat.Div0.mod_le (capacity td + 7) 8).
  pose proof (Nat.div_mod_eq (capacity td + 7) 8).
  pose proof (Nat.mod_upper_bound (capacity td + 7) 8). lia.
Qed.

Lemma slot_fits (i : nat) :
  (i < capacity td)%nat ->
  (headerBytes td + i * TD.length td + TD.length td <= DEFAULT_PAGE_SIZE)%nat.
Proof.
  intros Hi. pose proof capacity_mul as Hm. unfold headerBytes.
  pose proof (Nat.Div0.mul_div_le (capacity td + 7) 8) as Hd.
  assert ((i + 1) * TD.length td <= capacity td * TD.length td)%nat by nia.
  nia.
Qed.

Lemma header_in_page : (headerBytes td <= DEFAULT_PAGE_SIZE)%nat.
Proof.
  pose proof capacity_mul as Hm. unfold headerBytes.
  pose proof (Nat.Div0.mul_div_le (capacity td + 7) 8) as Hd. nia.
Qed.

End HeapPageCapacity.

(** *** Heap page: operations and the bitmap *)

Section HeapPageOps.

Import HeapPage.

Variables (td : TupleDesc) (page : Page).
Hypothesis Hfit : 8 * Z.of_nat (TD.length td) + 1 < 2 ^ 64.
Hypothesis Hpage : length page = DEFAULT_PAGE_SIZE.

Lemma empty_msb i :
  empty td page i = negb (i <? capacity td)%nat || negb (msb_bit page i).
Proof.
  unfold empty. rewrite occupied_msb.
  destruct (Nat.leb_spec (capacity td) i), (Nat.ltb_spec i (capacity td)); (done || lia).
Qed.

Lemma begin_msb :
  (begin td page <= capacity td)%nat
  /\ ((begin td page < capacity td)%nat -> msb_bit page (begin td page) = true)
  /\ (forall j, (j < begin td page)%nat -> msb_bit page j = false).
Proof.
  unfold begin. destruct (scan _ _ _) as [i|] eqn:E.
  - destruct (scan_Some _ _ _ _ E) as (Hr & Ht & Hl).
    repeat split; [lia | by rewrite <- occupied_msb |].
    intros j Hj. rewrite <- occupied_msb. apply Hl. lia.
  - repeat split; [lia | lia |].
    intros j Hj. rewrite <- occupied_msb. apply (scan_None _ _ _ E). lia.
Qed.

Lemma next_msb slot :
  (slot < capacity td)%nat ->
  (slot < next td page slot <= capacity td)%nat
  /\ ((next td page slot < capacity td)%nat -> msb_bit page (next td page slot) = true)
  /\ (forall j, (slot < j < next td page slot)%nat -> msb_bit page j = false).
Proof.
  intros Hs. unfold next.
  destruct (Nat.leb_spec (capacity td) slot); [lia|].
  destruct (scan _ _ _) as [i|] eqn:E.
  - destruct (scan_Some _ _ _ _ E) as (Hr & Ht & Hl).
    repeat split; [lia | lia | by rewrite <- occupied_msb |].
    intros j Hj. rewrite <- occupied_msb. apply Hl. lia.
  - repeat split; [lia | lia | lia |].
    intros j Hj. rewrite <- occupied_msb. apply (scan_None _ _ _ E). lia.
Qed.

Lemma getTuple_msb i :
  (exists t, getTuple td page i = Ok t)
  <-> (i < capacity td)%nat /\ msb_bit page i = true.
Proof.
  unfold getTuple. rewrite occupied_msb.
  destruct (Nat.leb_spec (capacity td) i) as [Hge|Hlt].
  - split; [intros [t Ht]; done | intros [? _]; lia].
  - destruct (msb_bit page i); cbn [negb].
    + split; [intros _; split; [lia | done] | intros _; eexists; reflexivity].
    + split; [intros [t Ht]; done | intros [_ ?]; done].
Qed.

Lemma insertTuple_full t page' :
  insertTuple td page t = Ok (page', false) ->
  page' = page /\ forall j, (j < capacity td)%nat -> msb_bit page j = true.
Proof.
  unfold insertTuple. destruct (scan _ _ _) as [i|] eqn:E.
  - destruct (TD.serialize _ _ _ _); intros [=].
  - intros [= <-]. split; [done|]. intros j Hj.
    pose proof (scan_None _ _ _ E j ltac:(lia)) as Hn. simpl in Hn.
    rewrite occupied_msb in Hn. by destruct (msb_bit page j).
Qed.

Lemma insertTuple_msb t page' :
  insertTuple td page t = Ok (page', true) ->
  exists i page1, (i < capacity td)%nat
    /\ msb_bit page i = false
    /\ (forall j, (j < i)%nat -> msb_bit page j = true)
    /\ TD.serialize td page (headerBytes td + i * TD.length td) t = Ok page1
    /\ page' = set_bit page1 i
    /\ (forall j, (j < capacity td)%nat ->
          msb_bit page' j = if decide (j = i) then true else msb_bit page j).
Proof.
  unfold insertTuple. destruct (scan _ _ _) as [i|] eqn:E; [|intros [=]].
  destruct (scan_Some _ _ _ _ E) as (Hr & Ht & Hl). simpl in Hr.
  destruct (TD.serialize _ _ _ _) as [page1|e] eqn:Es; intros [= <-].
  pose proof (slot_fits td Hfit i ltac:(lia)) as Hslot.
  pose proof (header_fits td i ltac:(lia)) as Hhead.
  pose proof (header_in_page td Hfit) as Hhp.
  assert (length page1 = length page) as Hlen
    by (eapply serialize_length; [done | lia]).
  exists i, page1. split; [lia|]. split.
  { rewrite occupied_msb in Ht. by destruct (msb_bit page i). }
  split.
  { intros j Hj. specialize (Hl j ltac:(lia)). cbn beta in Hl.
    rewrite occupied_msb in Hl. by destruct (msb_bit page j). }
  split; [done|]. split; [done|].
  intros j Hj. rewrite msb_bit_set by lia.
  destruct (decide (j = i)); [done|].
  unfold msb_bit, header_at. f_equal. f_equal.
  eapply serialize_outside; [done | lia |].
  left. pose proof (header_fits td j Hj). lia.
Qed.

Lemma insertTuple_total t :
  TD.compatible td t = true -> exists r, insertTuple td page t = Ok r.
Proof.
  intros Hc. unfold insertTuple, TD.serialize. rewrite Hc. cbn [negb].
  destruct (scan _ _ _); eauto.
Qed.

Lemma deleteTuple_msb i page' :
  deleteTuple td page i = Ok page' ->
  (i < capacity td)%nat /\ msb_bit page i = true
  /\ (forall j, (j < capacity td)%nat ->
        msb_bit page' j = if decide (j = i) then false else msb_bit page j).
Proof.
  unfold deleteTuple. rewrite occupied_msb.
  destruct (Nat.leb_spec (capacity td) i) as [Hge|Hlt]; [done|].
  destruct (msb_bit page i) eqn:Eb; cbn [negb]; [|done].
  intros [= <-]. split; [done|]. split; [done|].
  pose proof (slot_fits td Hfit i Hlt) as Hslot.
  pose proof (header_fits td i Hlt) as Hhead.
  pose proof (header_in_page td Hfit) as Hhp.
  intros j Hj. unfold Mem.memset0.
  rewrite msb_bit_clear
    by (rewrite length_write_at; rewrite ?length_replicate; lia).
  destruct (decide (j = i)); [done|].
  unfold msb_bit, header_at. f_equal. f_equal.
  apply lookup_write_at_lt; [|lia].
  pose proof (header_fits td j Hj). lia.
Qed.

Lemma deleteTuple_total i :
  (i < capacity td)%nat -> msb_bit page i = true ->
  exists page', deleteTuple td page i = Ok page'.
Proof.
  intros Hi Hb. unfold deleteTuple. rewrite occupied_msb, Hb.
  destruct (Nat.leb_spec (capacity td) i); [lia|]. eauto.
Qed.

End HeapPageOps.

(** C5. A heap page over a page buffer has
    [floor (8 * PAGE_SIZE / (8 * T + 1))] slots, where [T] is the tuple
    length (of a descriptor whose length fits [size_t] arithmetic), and every
    operation reads or writes the occupancy of slot [i] in bit
    [0x80 >> (i mod 8)] of header byte [i / 8]: [empty], [begin], [next],
    [getTuple] read it, [insertTuple] sets the bit of the first free slot
    and no other, [deleteTuple] clears the bit of its slot and no other. *)
Theorem C5_heap_page_capacity_and_bit_order td page :
  8 * Z.of_nat (TD.length td) + 1 < 2 ^ 64 ->
  length page = DEFAULT_PAGE_SIZE ->
  let cap := HeapPage.capacity td in
  let bit := HeapPage.msb_bit in
  Z.of_nat cap = 8 * Z.of_nat DEFAULT_PAGE_SIZE / (8 * Z.of_nat (TD.length td) + 1)
  /\ (forall i, HeapPage.slot_byte i = (i / 8)%nat
        /\ HeapPage.slot_mask i = Z.shiftr 128 (Z.of_nat (i mod 8))
        /\ HeapPage.occupied page i = bit page i)
  /\ (forall i, HeapPage.empty td page i = negb (i <? cap)%nat || negb (bit page i))
  /\ ((HeapPage.begin td page <= cap)%nat
      /\ ((HeapPage.begin td page < cap)%nat -> bit page (HeapPage.begin td page) = true)
      /\ (forall j, (j < HeapPage.begin td page)%nat -> bit page j = false))
  /\ (forall slot, (slot < cap)%nat ->
        (slot < HeapPage.next td page slot <= cap)%nat
        /\ ((HeapPage.next td page slot < cap)%nat ->
              bit page (HeapPage.next td page slot) = true)
        /\ (forall j, (slot < j < HeapPage.next td page slot)%nat -> bit page j = false))
  /\ (forall i, (exists t, HeapPage.getTuple td page i = Ok t)
                <-> (i < cap)%nat /\ bit page i = true)
  /\ (forall t, TD.compatible td t = true -> exists r, HeapPage.insertTuple td page t = Ok r)
  /\ (forall t page', HeapPage.insertTuple td page t = Ok (page', true) ->
        exists i page1, (i < cap)%nat
          /\ bit page i = false
          /\ (forall j, (j < i)%nat -> bit page j = true)
          /\ TD.serialize td page (HeapPage.headerBytes td + i * TD.length td) t = Ok page1
          /\ page' = HeapPage.set_bit page1 i
          /\ (forall j, (j < cap)%nat ->
                bit page' j = if decide (j = i) then true else bit page j))
  /\ (forall t page', HeapPage.insertTuple td page t = Ok (page', false) ->
        page' = page /\ forall j, (j < cap)%nat -> bit page j = true)
  /\ (forall i, (i < cap)%nat -> bit page i = true ->
        exists page', HeapPage.deleteTuple td page i = Ok page')
  /\ (forall i page', HeapPage.deleteTuple td page i = Ok page' ->
        (i < cap)%nat /\ bit page i = true
        /\ (forall j, (j < cap)%nat ->
              bit page' j = if decide (j = i) then false else bit page j)).
Proof.
  intros Hfit Hpage cap bit. subst cap bit.
  split; [by apply capacity_floor|].
  split; [intros i; split; [apply slot_byte_div | split; [apply slot_mask_shift | apply occupied_msb]]|].
  split; [apply empty_msb; done|].
  split; [apply begin_msb; done|].
  split; [apply next_msb; done|].
  split; [apply getTuple_msb; done|].
  split; [apply insertTuple_total; done|].
  split; [intros t page'; apply insertTuple_msb; done|].
  split; [apply insertTuple_full; done|].
  split; [apply deleteTuple_total; done|].
  intros i page'. apply deleteTuple_msb; done.
Qed.

Lemma C5_heap_page_capacity_and_bit_order_witness :
  Z.of_nat (HeapPage.capacity sample_td) = 53
  /\ HeapPage.slot_mask 10 = 32
  /\ HeapPage.empty sample_td zero_page 3 = true.
Proof.
  destruct (C5_heap_page_capacity_and_bit_order sample_td zero_page)
    as (Hcap & Haddr & Hempty & _).
  - vm_compute. reflexivity.
  - vm_compute. reflexivity.
  - split; [rewrite Hcap; reflexivity|].
    split; [rewrite (proj1 (proj2 (Haddr 10%nat))); reflexivity|].
    rewrite Hempty. vm_compute. reflexivity.
Defined.

(** *** Shifting an array right by one and writing the freed slot *)

Lemma memmove_right {A} (l : list A) (pos n : nat) :
  (pos <= n)%nat -> (n < length l)%nat ->
  Mem.memmove (pos + 1) pos (n - pos) l
  = take (pos + 1) l ++ take (n - pos) (drop pos l) ++ drop (n + 1) l.
Proof.
  intros Hp Hn. unfold Mem.memmove, Mem.write_at.
  rewrite length_read_at by lia. unfold Mem.read_at.
  do 3 f_equal. lia.
Qed.

Lemma shift_insert {A} (l : list A) (pos n : nat) (x : A) :
  (pos <= n)%nat -> (n < length l)%nat ->
  <[pos := x]> (if (pos <? n)%nat then Mem.memmove (pos + 1) pos (n - pos) l else l)
  = take pos l ++ x :: take (n - pos) (drop pos l) ++ drop (n + 1) l.
Proof.
  intros Hp Hn.
  assert ((if (pos <? n)%nat then Mem.memmove (pos + 1) pos (n - pos) l else l)
          = take (pos + 1) l ++ take (n - pos) (drop pos l) ++ drop (n + 1) l) as ->.
  { destruct (Nat.ltb_spec pos n) as [Hlt|Hge].
    - by apply memmove_right.
    - assert (pos = n) as -> by lia. rewrite Nat.sub_diag, take_0. cbn [app].
      by rewrite take_drop. }
  destruct (lookup_lt_is_Some_2 l pos ltac:(lia)) as [y Hy].
  rewrite Nat.add_1_r, (take_S_r _ _ y) by done.
  rewrite <- app_assoc. cbn [app].
  rewrite insert_app_r_alt; rewrite length_take; [|lia].
  replace (pos - pos `min` length l)%nat with 0%nat by lia. done.
Qed.

(** *** Index page: insert *)

Section IndexInsert.

Import IndexPage.

Lemma find_pos_spec p key n fuel pos :
  (pos <= n)%nat ->
  let r := find_pos p key n pos fuel in
  (pos <= r <= n)%nat
  /\ (forall j, (pos <= j < r)%nat -> key_at p j < key)
  /\ ((n - pos <= fuel)%nat -> (r < n)%nat -> key <= key_at p r).
Proof.
  revert pos. induction fuel as [|fuel IH]; intros pos Hp; cbn zeta.
  - simpl. repeat split; intros; lia.
  - simpl. destruct (Nat.ltb_spec pos n) as [Hlt|Hge]; simpl.
    + destruct (Z.ltb_spec (key_at p pos) key) as [Hk|Hk].
      * destruct (IH (S pos) ltac:(lia)) as (Hr & Hl & Hu).
        split; [lia|]. split.
        -- intros j Hj. destruct (decide (j = pos)) as [->|]; [done | apply Hl; lia].
        -- intros Hf Hrn. apply Hu; lia.
      * repeat split; intros; lia.
    + repeat split; intros; lia.
Qed.

Lemma to_int32_id v : - 2 ^ 31 <= v < 2 ^ 31 -> to_int32 v = v.
Proof. intros Hv. unfold to_int32. rewrite Z.mod_small; lia. Qed.

Lemma to_uint16_id (n : nat) : Z.of_nat n < 2 ^ 16 -> to_uint16 (Z.of_nat n) = n.
Proof.
  intros Hn. unfold to_uint16.
  rewrite Z.mod_small by lia. apply Nat2Z.id.
Qed.

End IndexInsert.


(** *** Index page: split *)

Lemma take_write_at_0 {A} (bs l : list A) :
  (length bs <= length l)%nat -> take (length bs) (Mem.write_at 0 bs l) = bs.
Proof.
  intros H. unfold Mem.write_at. rewrite take_0. cbn [app].
  by rewrite take_app_length.
Qed.

Lemma lookup_default_take {A} (d : A) (l : list A) (n i : nat) :
  (i < n)%nat -> default d (take n l !! i) = default d (l !! i).
Proof. intros Hi. by rewrite lookup_take_lt. Qed.

(** C4. On an index page with [n > 0] keys and [mid = n / 2], [split]
    copies [keys[mid+1..n)] and [children[mid+1..n+1)] to the front of the
    new page, gives the new page [n - mid - 1] keys and the flag
    [index_children] of the page, leaves [mid] keys in the page and returns
    [keys[mid]], which is then a key of neither page. *)
Theorem C4_index_split p new_page :
  IndexPage.wf p -> IndexPage.wf new_page ->
  IndexPage.capacity new_page = IndexPage.capacity p ->
  (0 < IndexPage.size p)%nat ->
  let n := IndexPage.size p in
  let mid := (n / 2)%nat in
  let p' := (IndexPage.split p new_page).1.1 in
  let new' := (IndexPage.split p new_page).1.2 in
  let up_key := (IndexPage.split p new_page).2 in
  up_key = IndexPage.key_at p mid
  /\ IndexPage.size p' = mid
  /\ IndexPage.keys p' = IndexPage.keys p
  /\ IndexPage.children p' = IndexPage.children p
  /\ IndexPage.index_children p' = IndexPage.index_children p
  /\ IndexPage.size new' = (n - mid - 1)%nat
  /\ IndexPage.index_children new' = IndexPage.index_children p
  /\ (forall j, (j < n - mid - 1)%nat ->
        IndexPage.key_at new' j = IndexPage.key_at p (mid + 1 + j))
  /\ (forall j, (j < n - mid)%nat ->
        IndexPage.child_at new' j = IndexPage.child_at p (mid + 1 + j))
  /\ IndexPage.valid_keys p
     = IndexPage.valid_keys p' ++ up_key :: IndexPage.valid_keys new'
  /\ IndexPage.valid_children p
     = IndexPage.valid_children p' ++ IndexPage.valid_children new'
  /\ (StronglySorted Z.lt (IndexPage.valid_keys p) ->
        (up_key ∉ IndexPage.valid_keys p') /\ (up_key ∉ IndexPage.valid_keys new'))
  /\ IndexPage.wf p' /\ IndexPage.wf new'.
Proof.
  intros (Hcap & Hsz & Hlk & Hlc & Hrange) (Hcap' & Hsz' & Hlk' & Hlc' & Hrange')
    Hsame Hpos n mid p' new' up_key.
  subst p' new' up_key. unfold IndexPage.split. fold n.
  assert (to_uint16 (Z.of_nat n / 2) = mid) as Emid.
  { change 2 with (Z.of_nat 2). rewrite <- Nat2Z.inj_div.
    apply to_uint16_id. pose proof (Nat.Div0.div_le_upper_bound n 2 n). lia. }
  rewrite Emid.
  assert (mid < n)%nat as Hmid by (apply Nat.div_lt; lia).
  assert (to_uint16 (Z.of_nat n - Z.of_nat mid - 1) = (n - mid - 1)%nat)
    as Eright.
  { replace (Z.of_nat n - Z.of_nat mid - 1) with (Z.of_nat (n - mid - 1)) by lia.
    apply to_uint16_id. lia. }
  rewrite Eright. set (right := (n - mid - 1)%nat) in *.
  cbn [fst snd IndexPage.keys IndexPage.children IndexPage.size
       IndexPage.capacity IndexPage.index_children].
  set (nk := if (0 <? right)%nat then _ else _).
  set (nc := if (0 <? right + 1)%nat then _ else _).
  assert (take right nk = take right (drop (mid + 1) (IndexPage.keys p))) as Enk.
  { subst nk. destruct (Nat.ltb_spec 0 right) as [Hr|Hr].
    - pose proof (length_read_at (mid + 1) right (IndexPage.keys p) ltac:(lia)) as Hlen.
      rewrite <- Hlen at 1. rewrite take_write_at_0 by lia. done.
    - assert (right = 0)%nat as -> by lia. by rewrite !take_0. }
  assert (length nk = IndexPage.capacity new_page) as Elk.
  { subst nk. destruct (0 <? right)%nat; [|done].
    rewrite length_write_at; [done|]. rewrite length_read_at; lia. }
  assert (nc = Mem.write_at 0 (Mem.read_at (mid + 1) (right + 1) (IndexPage.children p))
                 (IndexPage.children new_page)) as Enc0.
  { subst nc. destruct (Nat.ltb_spec 0 (right + 1)); [done | lia]. }
  assert (take (right + 1) nc
          = take (right + 1) (drop (mid + 1) (IndexPage.children p))) as Enc.
  { rewrite Enc0.
    pose proof (length_read_at (mid + 1) (right + 1) (IndexPage.children p)
                  ltac:(lia)) as Hlen.
    rewrite <- Hlen at 1. rewrite take_write_at_0 by lia. done. }
  assert (length nc = (IndexPage.capacity new_page + 1)%nat) as Elc.
  { rewrite Enc0, length_write_at; [done|]. rewrite length_read_at; lia. }
  destruct (lookup_lt_is_Some_2 (IndexPage.keys p) mid ltac:(lia)) as [km Hkm].
  assert (IndexPage.key_at p mid = km) as Eup
    by (unfold IndexPage.key_at; by rewrite Hkm).
  assert (take n (IndexPage.keys p)
          = take mid (IndexPage.keys p) ++ km :: take right nk) as Ekeys.
  { rewrite Enk. rewrite <- (take_drop mid (take n (IndexPage.keys p))).
    rewrite take_take, Nat.min_l by lia. f_equal.
    replace (drop mid (take n (IndexPage.keys p)))
      with (take (n - mid) (drop mid (IndexPage.keys p)))
      by (rewrite take_drop_commute; do 2 f_equal; lia).
    rewrite (drop_S _ km mid Hkm).
    replace (n - mid)%nat with (S right) by lia. cbn [take].
    by rewrite Nat.add_1_r. }
  split; [done|]. split; [done|]. split; [done|]. split; [done|]. split; [done|].
  split; [done|]. split; [done|].
  split.
  { intros j Hj. unfold IndexPage.key_at. cbn [IndexPage.keys].
    rewrite <- (lookup_default_take 0 nk right j Hj), Enk.
    rewrite lookup_take_lt by done. by rewrite lookup_drop. }
  split.
  { intros j Hj. unfold IndexPage.child_at. cbn [IndexPage.children].
    rewrite <- (lookup_default_take 0 nc (right + 1) j ltac:(lia)), Enc.
    rewrite lookup_take_lt by lia. by rewrite lookup_drop. }
  split.
  { unfold IndexPage.valid_keys. cbn [IndexPage.keys IndexPage.size]. fold n.
    by rewrite Eup. }
  split.
  { unfold IndexPage.valid_children. cbn [IndexPage.children IndexPage.size]. fold n.
    rewrite Enc. rewrite <- (take_drop (mid + 1) (take (n + 1) (IndexPage.children p))).
    rewrite take_take, Nat.min_l by lia. f_equal.
    rewrite take_drop_commute. do 2 f_equal. lia. }
  split.
  { unfold IndexPage.valid_keys. cbn [IndexPage.keys IndexPage.size]. fold n.
    rewrite Ekeys, Eup. intros Hs. split.
    - intros Hin.
      pose proof (StronglySorted_app_1_elem_of Z.lt _ _ km km Hs Hin
                    ltac:(apply elem_of_cons; by left)). lia.
    - intros Hin. apply StronglySorted_app_1_r in Hs.
      apply StronglySorted_inv in Hs as [_ Hall].
      rewrite Forall_forall in Hall. specialize (Hall km Hin). lia. }
  split.
  - unfold IndexPage.wf. cbn [IndexPage.keys IndexPage.children IndexPage.size
                               IndexPage.capacity].
    repeat split; (done || lia).
  - unfold IndexPage.wf. cbn [IndexPage.keys IndexPage.children IndexPage.size
                               IndexPage.capacity].
    split; [done|]. split; [lia|]. split; [done|]. split; [done|].
    subst nk. destruct (0 <? right)%nat; [|done].
    unfold Mem.write_at, Mem.read_at. rewrite take_0. cbn [app].
    apply Forall_app. split; [by apply Forall_take, Forall_drop | by apply Forall_drop].
Qed.

Lemma sample_index_wf : IndexPage.wf sample_index.
Proof.
  unfold IndexPage.wf, sample_index; simpl.
  repeat split; try lia. repeat constructor; lia.
Qed.


Lemma full_index_wf : IndexPage.wf full_index /\ IndexPage.wf empty_index.
Proof.
  unfold IndexPage.wf, full_index, empty_index; simpl.
  repeat split; try lia; repeat constructor; lia.
Qed.

Lemma C4_index_split_witness :
  (0 < IndexPage.size full_index)%nat
  /\ IndexPage.valid_keys full_index
     = IndexPage.valid_keys (IndexPage.split full_index empty_index).1.1
       ++ (IndexPage.split full_index empty_index).2
       :: IndexPage.valid_keys (IndexPage.split full_index empty_index).1.2.
Proof.
  split; [simpl; lia|].
  destruct (C4_index_split full_index empty_index) as (_ & _ & _ & _ & _ & _ & _ & _ & _ & H & _).
  - apply full_index_wf.
  - apply full_index_wf.
  - reflexivity.
  - simpl; lia.
  - exact H.
Defined.

Example index_insert_example :
  IndexPage.insert sample_index 20 9
  = (IndexPage.mk 4 3 0 [10; 20; 30; 0] [1; 2; 9; 3; 0], false).
Proof. reflexivity. Qed.

Example index_split_example :
  IndexPage.split full_index empty_index
  = (IndexPage.mk 4 2 1 [10; 20; 30; 40] [1; 2; 3; 4; 5],
     IndexPage.mk 4 1 1 [40; 0; 0; 0] [4; 5; 0; 0; 0], 30).
Proof. reflexivity. Qed.

(** *** Reading inside a range *)

Lemma read_at_read_at {A} (base n off sz : nat) (d : list A) :
  (off + sz <= n)%nat ->
  Mem.read_at off sz (Mem.read_at base n d) = Mem.read_at (base + off) sz d.
Proof.
  intros H. apply list_eq. intros i.
  destruct (decide (i < sz)%nat) as [Hi|Hi].
  - rewrite !lookup_read_at by lia. f_equal. lia.
  - unfold Mem.read_at. by rewrite !lookup_take_ge by lia.
Qed.

Lemma read_at_write_at_inside {A} (q n off : nat) (bs buf : list A) :
  (off <= q)%nat -> (q + n <= off + length bs)%nat ->
  (off + length bs <= length buf)%nat ->
  Mem.read_at q n (Mem.write_at off bs buf) = Mem.read_at (q - off) n bs.
Proof.
  intros Hq Hn Hl. apply list_eq. intros i.
  destruct (decide (i < n)%nat) as [Hi|Hi].
  - rewrite !lookup_read_at by lia.
    rewrite lookup_write_at_in by lia. f_equal. lia.
  - unfold Mem.read_at. by rewrite !lookup_take_ge by lia.
Qed.

(** [deserialize] reads the bytes of the tuple's own range only. *)
Lemma deserialize_field_ext td d1 d2 base1 base2 (i : nat) :
  (i < TD.size td)%nat ->
  Mem.read_at base1 (TD.length td) d1 = Mem.read_at base2 (TD.length td) d2 ->
  TD.deserialize_field td d1 base1 i = TD.deserialize_field td d2 base2 i.
Proof.
  intros Hi Heq. unfold TD.deserialize_field.
  destruct (lookup_lt_is_Some_2 (types_ td) i Hi) as [ty Ety].
  destruct (offsets_from_spec 0 _ _ _ Ety) as (o & Ho & _ & Hend & _).
  fold (TD.offsets_ td) in Ho. fold (TD.length td) in Hend.
  rewrite Ety, Ho. unfold default. cbn [from_option id].
  assert (Mem.read_at (base1 + o) (TD.size_of_fixed ty) d1
          = Mem.read_at (base2 + o) (TD.size_of_fixed ty) d2) as E.
  { rewrite <- !(read_at_read_at _ (TD.length td)) by lia. by rewrite Heq. }
  destruct ty; cbn [TD.size_of_fixed] in E; by rewrite E.
Qed.

Lemma deserialize_ext td d1 d2 base1 base2 :
  Mem.read_at base1 (TD.length td) d1 = Mem.read_at base2 (TD.length td) d2 ->
  TD.deserialize td d1 base1 = TD.deserialize td d2 base2.
Proof.
  intros Heq. unfold TD.deserialize. apply map_ext_in. intros i Hi.
  apply in_seq in Hi. apply deserialize_field_ext; [lia | done].
Qed.

(** *** Leaf page: keys *)

Section LeafKeys.

Import LeafPage.

Lemma get_int_deserialize td_ d base (ki : nat) :
  types_ td_ !! ki = Some INT ->
  Tup.get_int (TD.deserialize td_ d base) ki
  = Ok (Codec.int_of_bytes
          (Mem.read_at (base + default 0%nat (TD.offsets_ td_ !! ki)) INT_SIZE d)).
Proof.
  intros Hty. unfold Tup.get_int, TD.deserialize.
  rewrite list_lookup_fmap.
  rewrite lookup_seq_lt by (apply lookup_lt_Some in Hty; done).
  cbn [fmap option_fmap option_map Nat.add]. unfold TD.deserialize_field.
  rewrite Hty. unfold default at 2. cbn [from_option id]. done.
Qed.

Lemma key_of_val p i : wf p -> key_of p i = Ok (key_val p i).
Proof.
  intros (Hty & _). unfold key_of, key_at, key_val.
  by apply get_int_deserialize.
Qed.

Lemma key_at_ext td_ ki d1 d2 (i1 i2 : nat) :
  Mem.read_at (i1 * TD.length td_) (TD.length td_) d1
  = Mem.read_at (i2 * TD.length td_) (TD.length td_) d2 ->
  key_at td_ ki d1 (TD.length td_) i1 = key_at td_ ki d2 (TD.length td_) i2.
Proof. intros H. unfold key_at. f_equal. by apply deserialize_ext. Qed.

Lemma shiftr1_half (lo hi : nat) :
  Z.shiftr (Z.of_nat lo + Z.of_nat hi) 1 = Z.of_nat ((lo + hi) / 2).
Proof.
  rewrite Z.shiftr_div_pow2 by lia. change (2 ^ 1) with (Z.of_nat 2).
  rewrite <- Nat2Z.inj_add. by rewrite <- Nat2Z.inj_div.
Qed.

(** The binary search stops within its fuel and returns the lower bound of
    [k] when the keys are in ascending order. *)
Lemma lower_bound_spec p k fuel lo hi :
  wf p -> (lo <= hi <= size p)%nat -> (hi - lo <= fuel)%nat ->
  exists pos,
    lower_bound p k lo hi fuel = Ok pos
    /\ (lo <= pos <= hi)%nat
    /\ (sorted p ->
        (forall j, (j < lo)%nat -> key_val p j < k) ->
        (forall j, (hi <= j < size p)%nat -> k <= key_val p j) ->
        (forall j, (j < pos)%nat -> key_val p j < k)
        /\ (forall j, (pos <= j < size p)%nat -> k <= key_val p j)).
Proof.
  intros Hwf. pose proof Hwf as (Hty & Hcap & Hsz & Hdata).
  revert lo hi. induction fuel as [|fuel IH]; intros lo hi Hr Hf.
  - exists lo. cbn [lower_bound]. split; [done|]. split; [lia|].
    intros _ Hlo Hhi. split; [done|]. intros j Hj. apply Hhi. lia.
  - cbn [lower_bound]. destruct (Nat.ltb_spec lo hi) as [Hlt|Hge].
    + rewrite shiftr1_half.
      set (mid := ((lo + hi) / 2)%nat).
      assert (lo <= mid < hi)%nat as Hmid.
      { subst mid. split.
        - apply Nat.div_le_lower_bound; lia.
        - apply Nat.Div0.div_lt_upper_bound; lia. }
      rewrite (to_uint16_id mid) by lia.
      rewrite key_of_val by done.
      replace (Z.of_nat mid + 1) with (Z.of_nat (mid + 1)) by lia.
      rewrite (to_uint16_id (mid + 1)) by lia.
      destruct (Z.ltb_spec (key_val p mid) k) as [Hk|Hk].
      * destruct (IH (mid + 1)%nat hi ltac:(lia) ltac:(lia)) as (pos & E & Hpos & Hs).
        exists pos. split; [done|]. split; [lia|].
        intros Hsorted Hlo Hhi. apply Hs; [done | | done].
        intros j Hj. specialize (Hsorted j mid ltac:(lia)). lia.
      * destruct (IH lo mid ltac:(lia) ltac:(lia)) as (pos & E & Hpos & Hs).
        exists pos. split; [done|]. split; [lia|].
        intros Hsorted Hlo Hhi. apply Hs; [done | done |].
        intros j Hj. destruct (decide (j < hi)%nat) as [Hjh|Hjh].
        -- specialize (Hsorted mid j ltac:(lia)). lia.
        -- apply Hhi. lia.
    + exists lo. split; [done|]. split; [lia|].
      intros _ Hlo Hhi. split; [done|]. intros j Hj. apply Hhi. lia.
Qed.

End LeafKeys.

(** *** Leaf page: split *)

Ltac leaf_simpl :=
  cbn [LeafPage.size LeafPage.data LeafPage.next_leaf LeafPage.set_size
       LeafPage.set_data LeafPage.set_next_leaf LeafPage.td LeafPage.key_index
       LeafPage.capacity] in *.


(** *** Leaf page: insertTuple *)

Section LeafInsert.

Import LeafPage.

Lemma memmove_0 {A} (dst src : nat) (l : list A) :
  (dst <= length l)%nat -> Mem.memmove dst src 0 l = l.
Proof.
  intros H. unfold Mem.memmove, Mem.read_at, Mem.write_at.
  rewrite take_0. cbn [app length]. rewrite Nat.add_0_r. apply take_drop.
Qed.

Lemma serialize_slot_frame td_ (tup : Tuple) d d' (pos j : nat) :
  TD.serialize td_ d (pos * TD.length td_) tup = Ok d' ->
  (pos * TD.length td_ + TD.length td_ <= length d)%nat ->
  j <> pos ->
  Mem.read_at (j * TD.length td_) (TD.length td_) d'
  = Mem.read_at (j * TD.length td_) (TD.length td_) d.
Proof.
  intros Hs Hl Hj. apply read_at_ext. intros i Hi.
  eapply serialize_outside; [done | done |].
  destruct (Nat.lt_total j pos) as [?|[?|?]]; [left; nia | done | right; nia].
Qed.

Lemma get_int_compatible td_ (tup : Tuple) (ki : nat) :
  TD.compatible td_ tup = true -> types_ td_ !! ki = Some INT ->
  exists k, tup !! ki = Some (FInt k) /\ Tup.get_int tup ki = Ok k.
Proof.
  intros Hc Hty. destruct (compatible_spec _ _ Hc) as [_ Hf].
  specialize (Hf _ _ Hty). unfold Tup.field_type in Hf. unfold Tup.get_int.
  destruct (tup !! ki) as [[v|b|s]|]; try done. eauto.
Qed.

Lemma stored_get_int (tup : Tuple) (ki : nat) k :
  tup !! ki = Some (FInt k) -> Tup.get_int (stored tup) ki = Ok k.
Proof.
  intros H. unfold Tup.get_int, stored. rewrite list_lookup_fmap, H. done.
Qed.

(** The bytes after the shift of [insertTuple]. *)
Lemma shift_slots (d : list Z) (tb pos n : nat) :
  (pos <= n)%nat -> ((n + 1) * tb <= length d)%nat ->
  let d1 := if ((n - pos) * tb =? 0)%nat then d
            else Mem.memmove ((pos + 1) * tb) (pos * tb) ((n - pos) * tb) d in
  length d1 = length d
  /\ (forall j, (j < pos)%nat -> Mem.read_at (j * tb) tb d1 = Mem.read_at (j * tb) tb d)
  /\ (forall j, (pos <= j < n)%nat ->
        Mem.read_at ((j + 1) * tb) tb d1 = Mem.read_at (j * tb) tb d)
  /\ (forall i : nat, ((n + 1) * tb <= i)%nat -> d1 !! i = d !! i).
Proof.
  intros Hp Hl d1.
  assert (d1 = Mem.memmove ((pos + 1) * tb) (pos * tb) ((n - pos) * tb) d) as ->.
  { subst d1. destruct (Nat.eqb_spec ((n - pos) * tb) 0) as [E|]; [|done].
    rewrite E, memmove_0; [done | nia]. }
  unfold Mem.memmove.
  assert (length (Mem.read_at (pos * tb) ((n - pos) * tb) d) = ((n - pos) * tb)%nat)
    as Hlen by (apply length_read_at; nia).
  split; [apply length_write_at; rewrite Hlen; nia|].
  split; [intros j Hj; apply read_write_disjoint; rewrite ?Hlen; nia|].
  split.
  - intros j Hj. rewrite read_at_write_at_inside by (rewrite ?Hlen; nia).
    rewrite read_at_read_at by nia. f_equal. nia.
  - intros i Hi. apply lookup_write_at_ge; rewrite ?Hlen; nia.
Qed.

End LeafInsert.

(** The three cases of [insertTuple]. *)
Lemma leaf_insertTuple_spec p tup :
  LeafPage.wf p -> TD.compatible (LeafPage.td p) tup = true -> tuple_ok tup ->
  let n := LeafPage.size p in
  let cap := LeafPage.capacity p in
  let tb := TD.length (LeafPage.td p) in
  exists k pos,
    Tup.get_int tup (LeafPage.key_index p) = Ok k
    /\ LeafPage.lower_bound p k 0 n n = Ok pos
    /\ (pos <= n)%nat
    /\ (forall i, LeafPage.key_of p i = Ok (LeafPage.key_val p i))
    /\ (LeafPage.sorted p ->
          (forall j, (j < pos)%nat -> LeafPage.key_val p j < k)
          /\ (forall j, (pos <= j < n)%nat -> k <= LeafPage.key_val p j))
    /\ ((pos < n)%nat /\ LeafPage.key_val p pos = k ->
          exists d,
            TD.serialize (LeafPage.td p) (LeafPage.data p) (pos * tb) tup = Ok d
            /\ LeafPage.insertTuple p tup
               = (LeafPage.set_data p d, Ok (n =? cap)%nat)
            /\ (forall j, j <> pos ->
                  LeafPage.slot_bytes (LeafPage.set_data p d) j
                  = LeafPage.slot_bytes p j)
            /\ LeafPage.getTuple (LeafPage.set_data p d) pos = Ok (stored tup)
            /\ LeafPage.wf (LeafPage.set_data p d))
    /\ (~ ((pos < n)%nat /\ LeafPage.key_val p pos = k) -> n = cap ->
          LeafPage.insertTuple p tup = (p, Ok true))
    /\ (~ ((pos < n)%nat /\ LeafPage.key_val p pos = k) -> (n < cap)%nat ->
          exists p',
            LeafPage.insertTuple p tup = (p', Ok (n + 1 =? cap)%nat)
            /\ LeafPage.size p' = (n + 1)%nat
            /\ LeafPage.next_leaf p' = LeafPage.next_leaf p
            /\ LeafPage.td p' = LeafPage.td p
            /\ LeafPage.key_index p' = LeafPage.key_index p
            /\ LeafPage.capacity p' = cap
            /\ (forall j, (j < pos)%nat ->
                  LeafPage.slot_bytes p' j = LeafPage.slot_bytes p j)
            /\ (forall j, (pos <= j < n)%nat ->
                  LeafPage.slot_bytes p' (j + 1) = LeafPage.slot_bytes p j)
            /\ LeafPage.getTuple p' pos = Ok (stored tup)
            /\ LeafPage.wf p').
Proof.
  intros Hwf Hc Hok n cap tb.
  pose proof Hwf as (Hty & Hcap & Hsz & Hdata). fold cap n tb in Hcap, Hsz, Hdata.
  destruct (get_int_compatible _ _ _ Hc Hty) as (k & Hfk & Hk).
  destruct (lower_bound_spec p k n 0 n Hwf ltac:(lia) ltac:(lia))
    as (pos & Hlb & Hpos & Hsorted).
  exists k, pos. split; [done|]. split; [done|]. split; [lia|].
  split; [intros i; by apply key_of_val|].
  split.
  { intros Hs. apply Hsorted; [done | intros; lia | intros; lia]. }
  unfold LeafPage.insertTuple. fold n cap tb. rewrite Hk, Hlb.
  split; [|split].
  - intros [Hlt Hkey].
    destruct (Nat.ltb_spec pos n); [|lia].
    rewrite key_of_val, Hkey, Z.eqb_refl by done.
    destruct (serialize_deserialize (LeafPage.td p) tup
                (LeafPage.data p) (pos * tb) Hc Hok ltac:(fold tb; nia))
      as (d & Hser & Hlen & Hrt & _).
    exists d. rewrite Hser. split; [done|]. split; [done|]. split.
    + intros j Hj. unfold LeafPage.slot_bytes. leaf_simpl. fold tb.
      eapply serialize_slot_frame; [done | fold tb; nia | done].
    + split.
      * unfold LeafPage.getTuple. leaf_simpl. fold n tb.
        destruct (Nat.leb_spec n pos); [lia|]. by rewrite Hrt.
      * unfold LeafPage.wf. leaf_simpl. fold tb cap n.
        split; [done|]. split; [done|]. split; [done|]. lia.
  - intros Hmiss Hfull.
    assert ((if (pos <? n)%nat
             then match LeafPage.key_of p pos with
                  | Ok kp => Ok (kp =? k)
                  | Throw e => Throw e
                  end
             else Ok false) = Ok false) as ->.
    { destruct (Nat.ltb_spec pos n); [|done].
      rewrite key_of_val by done.
      destruct (Z.eqb_spec (LeafPage.key_val p pos) k); [tauto | done]. }
    destruct (Nat.leb_spec cap n); [done | lia].
  - intros Hmiss Hroom.
    assert ((if (pos <? n)%nat
             then match LeafPage.key_of p pos with
                  | Ok kp => Ok (kp =? k)
                  | Throw e => Throw e
                  end
             else Ok false) = Ok false) as ->.
    { destruct (Nat.ltb_spec pos n); [|done].
      rewrite key_of_val by done.
      destruct (Z.eqb_spec (LeafPage.key_val p pos) k); [tauto | done]. }
    destruct (Nat.leb_spec cap n); [lia|].
    destruct (shift_slots (LeafPage.data p) tb pos n ltac:(lia) ltac:(nia))
      as (Hl1 & Hbefore & Hafter & _).
    set (d1 := if ((n - pos) * tb =? 0)%nat then _ else _) in *.
    destruct (serialize_deserialize (LeafPage.td p) tup
                d1 (pos * tb) Hc Hok ltac:(fold tb; nia))
      as (d2 & Hser & Hlen & Hrt & _).
    rewrite Hser.
    assert (to_uint16 (Z.of_nat n + 1) = (n + 1)%nat) as ->.
    { replace (Z.of_nat n + 1) with (Z.of_nat (n + 1)) by lia.
      apply to_uint16_id. lia. }
    eexists. split; [reflexivity|]. leaf_simpl.
    split; [done|]. split; [done|]. split; [done|]. split; [done|].
    split; [done|]. split.
    { intros j Hj. unfold LeafPage.slot_bytes. leaf_simpl. fold tb.
      rewrite <- (Hbefore j Hj).
      eapply serialize_slot_frame; [done | fold tb; nia | lia]. }
    split.
    { intros j Hj. unfold LeafPage.slot_bytes. leaf_simpl. fold tb.
      rewrite <- (Hafter j Hj).
      eapply serialize_slot_frame; [done | fold tb; nia | lia]. }
    split.
    { unfold LeafPage.getTuple. leaf_simpl. fold tb.
      destruct (Nat.leb_spec (n + 1) pos); [lia|]. by rewrite Hrt. }
    unfold LeafPage.wf. leaf_simpl. fold tb cap.
    split; [done|]. split; [done|]. split; [lia|]. lia.
Qed.

(** C1. [insertTuple] on a leaf page, for a tuple [tup] compatible with the
    schema and of key [k]: the binary search returns a position
    [pos <= size], the first position whose key is [>= k] when the page is
    in ascending key order.  If slot [pos] holds key [k] the tuple is
    serialized over that slot, [size] is unchanged and the result is
    [size == capacity]; otherwise, on a full page nothing changes and the
    result is [true]; otherwise the slots [pos..size) move one slot to the
    right, the tuple is serialized into slot [pos], [size] grows by one and
    the result is [size == capacity] for the new size. *)
Theorem C1_leaf_insertTuple p tup :
  LeafPage.wf p -> TD.compatible (LeafPage.td p) tup = true -> tuple_ok tup ->
  let n := LeafPage.size p in
  let cap := LeafPage.capacity p in
  let tb := TD.length (LeafPage.td p) in
  exists k pos,
    Tup.get_int tup (LeafPage.key_index p) = Ok k
    /\ LeafPage.lower_bound p k 0 n n = Ok pos
    /\ (pos <= n)%nat
    /\ (forall i, LeafPage.key_of p i = Ok (LeafPage.key_val p i))
    /\ (LeafPage.sorted p ->
          (forall j, (j < pos)%nat -> LeafPage.key_val p j < k)
          /\ (forall j, (pos <= j < n)%nat -> k <= LeafPage.key_val p j))
    /\ ((pos < n)%nat /\ LeafPage.key_val p pos = k ->
          exists d,
            TD.serialize (LeafPage.td p) (LeafPage.data p) (pos * tb) tup = Ok d
            /\ LeafPage.insertTuple p tup
               = (LeafPage.set_data p d, Ok (n =? cap)%nat)
            /\ (forall j, j <> pos ->
                  LeafPage.slot_bytes (LeafPage.set_data p d) j
                  = LeafPage.slot_bytes p j)
            /\ LeafPage.getTuple (LeafPage.set_data p d) pos = Ok (stored tup)
            /\ LeafPage.wf (LeafPage.set_data p d))
    /\ (~ ((pos < n)%nat /\ LeafPage.key_val p pos = k) -> n = cap ->
          LeafPage.insertTuple p tup = (p, Ok true))
    /\ (~ ((pos < n)%nat /\ LeafPage.key_val p pos = k) -> (n < cap)%nat ->
          exists p',
            LeafPage.insertTuple p tup = (p', Ok (n + 1 =? cap)%nat)
            /\ LeafPage.size p' = (n + 1)%nat
            /\ LeafPage.next_leaf p' = LeafPage.next_leaf p
            /\ LeafPage.td p' = LeafPage.td p
            /\ LeafPage.key_index p' = LeafPage.key_index p
            /\ LeafPage.capacity p' = cap
            /\ (forall j, (j < pos)%nat ->
                  LeafPage.slot_bytes p' j = LeafPage.slot_bytes p j)
            /\ (forall j, (pos <= j < n)%nat ->
                  LeafPage.slot_bytes p' (j + 1) = LeafPage.slot_bytes p j)
            /\ LeafPage.getTuple p' pos = Ok (stored tup)
            /\ LeafPage.wf p').
Proof. apply leaf_insertTuple_spec. Qed.

(** The key of a slot is read from the bytes of the slot. *)
Lemma key_val_slot p j :
  LeafPage.wf p ->
  LeafPage.key_val p j
  = Codec.int_of_bytes
      (Mem.read_at (default 0%nat (TD.offsets_ (LeafPage.td p) !! LeafPage.key_index p))
         INT_SIZE (LeafPage.slot_bytes p j)).
Proof.
  intros (Hty & _). unfold LeafPage.key_val, LeafPage.slot_bytes.
  destruct (offsets_from_spec 0 _ _ _ Hty) as (o & Ho & _ & Hend & _).
  fold (TD.offsets_ (LeafPage.td p)) in Ho. fold (TD.length (LeafPage.td p)) in Hend.
  rewrite Ho. unfold default. cbn [from_option id].
  cbn [TD.size_of_fixed] in Hend. by rewrite read_at_read_at by lia.
Qed.

Lemma key_val_ext p p' j j' :
  LeafPage.wf p -> LeafPage.wf p' ->
  LeafPage.td p' = LeafPage.td p -> LeafPage.key_index p' = LeafPage.key_index p ->
  LeafPage.slot_bytes p' j' = LeafPage.slot_bytes p j ->
  LeafPage.key_val p' j' = LeafPage.key_val p j.
Proof.
  intros Hwf Hwf' Htd Hki Hs.
  rewrite (key_val_slot p j Hwf), (key_val_slot p' j' Hwf'). by rewrite Htd, Hki, Hs.
Qed.

Lemma getTuple_key p (tup : Tuple) pos k :
  LeafPage.wf p -> tup !! LeafPage.key_index p = Some (FInt k) ->
  LeafPage.getTuple p pos = Ok (stored tup) ->
  LeafPage.key_val p pos = k.
Proof.
  intros Hwf Hk Hg. unfold LeafPage.getTuple in Hg.
  destruct (LeafPage.size p <=? pos)%nat; [done|]. injection Hg as Hd.
  pose proof (key_of_val p pos Hwf) as Hkv.
  unfold LeafPage.key_of, LeafPage.key_at in Hkv.
  rewrite Hd, (stored_get_int tup _ k Hk) in Hkv. congruence.
Qed.

(** [insertTuple] keeps a leaf in ascending key order. *)
Lemma leaf_insert_keeps_sorted p tup :
  LeafPage.wf p -> TD.compatible (LeafPage.td p) tup = true -> tuple_ok tup ->
  LeafPage.sorted p ->
  LeafPage.wf (LeafPage.insertTuple p tup).1
  /\ LeafPage.sorted (LeafPage.insertTuple p tup).1.
Proof.
  intros Hwf Hc Hok Hs.
  destruct (leaf_insertTuple_spec p tup Hwf Hc Hok)
    as (k & pos & Hk & _ & Hpos & _ & Hfirst & Hup & Hfull & Hins).
  destruct (Hfirst Hs) as [Hlo Hhi].
  assert (tup !! LeafPage.key_index p = Some (FInt k)) as Hfk.
  { unfold Tup.get_int in Hk.
    destruct (tup !! LeafPage.key_index p) as [[v|b|s]|]; try done. congruence. }
  destruct (decide ((pos < LeafPage.size p)%nat /\ LeafPage.key_val p pos = k))
    as [Hhit|Hmiss].
  - destruct (Hup Hhit) as (d & _ & -> & Hframe & Hget & Hwf'). cbn [fst].
    split; [done|].
    assert (forall j, LeafPage.key_val (LeafPage.set_data p d) j = LeafPage.key_val p j)
      as Hkeys.
    { intros j. destruct (decide (j = pos)) as [->|Hne].
      - rewrite (getTuple_key _ tup pos k Hwf' Hfk Hget). by destruct Hhit.
      - apply key_val_ext; try done. by apply Hframe. }
    intros i j Hij. rewrite !Hkeys. apply Hs. exact Hij.
  - destruct (decide (LeafPage.size p = LeafPage.capacity p)) as [Hcap|Hroom].
    + rewrite (Hfull Hmiss Hcap). done.
    + pose proof Hwf as (_ & _ & Hsz & _).
      destruct (Hins Hmiss ltac:(lia))
        as (p' & -> & Hsize & _ & Htd & Hki & _ & Hbefore & Hafter & Hget & Hwf').
      cbn [fst]. split; [done|].
      rewrite <- Hki in Hfk.
      pose proof (getTuple_key p' tup pos k Hwf' Hfk Hget) as Hkpos.
      assert (forall j, (j < pos)%nat -> LeafPage.key_val p' j = LeafPage.key_val p j)
        as Hkb by (intros j Hj; apply key_val_ext; try done; by apply Hbefore).
      assert (forall j, (pos <= j < LeafPage.size p)%nat ->
                LeafPage.key_val p' (j + 1) = LeafPage.key_val p j)
        as Hka by (intros j Hj; apply key_val_ext; try done; by apply Hafter).
      intros i j Hij. rewrite Hsize in Hij.
      destruct (Nat.lt_total i pos) as [Hi|[->|Hi]];
        destruct (Nat.lt_total j pos) as [Hj|[->|Hj]]; try lia.
      * rewrite (Hkb i Hi), (Hkb j Hj). apply Hs. lia.
      * rewrite (Hkb i Hi), Hkpos. specialize (Hlo i Hi). lia.
      * rewrite (Hkb i Hi).
        replace j with (j - 1 + 1)%nat by lia. rewrite Hka by lia.
        specialize (Hlo i Hi). specialize (Hhi (j - 1)%nat ltac:(lia)). lia.
      * rewrite Hkpos. replace j with (j - 1 + 1)%nat by lia. rewrite Hka by lia.
        apply Hhi. lia.
      * replace i with (i - 1 + 1)%nat by lia.
        replace j with (j - 1 + 1)%nat by lia.
        rewrite !Hka by lia. apply Hs. lia.
Qed.

(** The constructor yields a well-formed view over any page of
    [DEFAULT_PAGE_SIZE] bytes when the key column is an INT column. *)
Lemma leaf_make_wf page next sz td_ key_idx :
  length page = DEFAULT_PAGE_SIZE ->
  types_ td_ !! key_idx = Some INT ->
  LeafPage.wf (LeafPage.make page next sz td_ key_idx).
Proof.
  intros Hpage Hty. unfold LeafPage.make, LeafPage.wf. leaf_simpl.
  destruct (offsets_from_spec 0 _ _ _ Hty) as (o & _ & _ & Hend & _).
  fold (TD.length td_) in Hend. cbn [TD.size_of_fixed] in Hend.
  assert (0 < TD.length td_)%nat as Htb by (unfold INT_SIZE in Hend; lia).
  set (q := ((length page - LeafPage.header_size) / TD.length td_)%nat).
  assert (q * TD.length td_ <= length page - LeafPage.header_size)%nat as Hq
    by (subst q; rewrite Nat.mul_comm; apply Nat.Div0.mul_div_le).
  assert (q <= length page - LeafPage.header_size)%nat as Hq' by nia.
  assert (to_uint16 (Z.of_nat q) = q) as ->.
  { apply to_uint16_id. rewrite Hpage in Hq'.
    unfold DEFAULT_PAGE_SIZE, LeafPage.header_size in Hq'. lia. }
  split; [done|]. split.
  { rewrite Hpage in Hq'. unfold DEFAULT_PAGE_SIZE, LeafPage.header_size in Hq'. lia. }
  split; [destruct (Nat.ltb_spec q sz); lia|].
  rewrite length_drop. lia.
Qed.

Lemma sample_leaf_wf : LeafPage.wf sample_leaf.
Proof. unfold LeafPage.wf. cbn. repeat split; lia. Qed.

Lemma leaf_tuple_ok : tuple_ok leaf_tuple.
Proof. repeat constructor; simpl; lia. Qed.

Lemma C1_leaf_insertTuple_witness :
  exists k pos,
    Tup.get_int leaf_tuple 0 = Ok k
    /\ LeafPage.lower_bound sample_leaf k 0 2 2 = Ok pos
    /\ (pos <= 2)%nat.
Proof.
  destruct (C1_leaf_insertTuple sample_leaf leaf_tuple sample_leaf_wf eq_refl leaf_tuple_ok)
    as (k & pos & Hk & Hlb & Hpos & _).
  exists k, pos. split; [exact Hk|]. split; [exact Hlb | exact Hpos].
Defined.

Example leaf_insert_example :
  LeafPage.insertTuple sample_leaf leaf_tuple
  = (LeafPage.mk leaf_td 0 3 (2 ^ 64 - 1) 3
       [10; 0; 0; 0; 1; 0; 0; 0; 0; 0; 0; 0;
        20; 0; 0; 0; 2; 0; 0; 0; 0; 0; 0; 0;
        30; 0; 0; 0; 3; 0; 0; 0; 0; 0; 0; 0],
     Ok true).
Proof. vm_compute. reflexivity. Qed.



Example leaf_split_example :
  LeafPage.split sample_leaf empty_leaf
  = Ok (LeafPage.set_size sample_leaf 1,
        LeafPage.mk leaf_td 0 3 (2 ^ 64 - 1) 1
          ([30; 0; 0; 0; 3; 0; 0; 0; 0; 0; 0; 0] ++ replicate 24 0),
        30).
Proof. vm_compute. reflexivity. Qed.

(** *** Heap file *)

(** C9. [HeapFile::insertTuple] with a tuple that is not compatible with
    the schema of the file throws [logic_error] and changes nothing: the
    files (their pages on disk, [numPages], the audit trails) and the buffer
    pool (its frames and its dirty set) are as before. *)
Theorem C9_heap_insert_incompatible db nm f t :
  files db !! nm = Some f ->
  TD.compatible (td f) t = false ->
  HeapFile.insertTuple nm t db = (db, Throw logic_error)
  /\ (forall db', (HeapFile.insertTuple nm t db).1 = db' ->
        files db' = files db
        /\ pages (bufferPool db') = pages (bufferPool db)
        /\ dirty (bufferPool db') = dirty (bufferPool db)
        /\ (numPages <$> files db' !! nm) = Some (numPages f)).
Proof.
  intros Hf Hc.
  assert (HeapFile.insertTuple nm t db = (db, Throw logic_error)) as E.
  { unfold HeapFile.insertTuple, bind, Db.get. rewrite Hf, Hc. done. }
  split; [done|]. intros db' <-. rewrite E. cbn [fst]. rewrite Hf. done.
Qed.

Lemma C9_heap_insert_incompatible_witness :
  HeapFile.insertTuple "emp" [FInt 1] sample_db = (sample_db, Throw logic_error).
Proof.
  apply (C9_heap_insert_incompatible sample_db "emp" sample_file [FInt 1]).
  - reflexivity.
  - reflexivity.
Defined.

(** C10. [HeapFile::next] on an iterator whose page number is at least
    [numPages] does not throw: the iterator becomes [(numPages, 0)], the
    iterator [HeapFile::end] returns, and nothing else changes. *)
Theorem C10_heap_next_past_end db nm f it :
  files db !! nm = Some f ->
  (numPages f <= it_page it)%nat ->
  HeapFile.next nm it db = (db, Ok (mkIterator (numPages f) 0))
  /\ HeapFile.end_ nm db = (db, Ok (mkIterator (numPages f) 0)).
Proof.
  intros Hf Hge. unfold HeapFile.next, HeapFile.end_, bind, Db.get, ret.
  rewrite Hf. destruct (Nat.leb_spec (numPages f) (it_page it)); [done | lia].
Qed.

Lemma C10_heap_next_past_end_witness :
  HeapFile.next "emp" (mkIterator 7 5) sample_db = (sample_db, Ok (mkIterator 2 0))
  /\ HeapFile.end_ "emp" sample_db = (sample_db, Ok (mkIterator 2 0)).
Proof.
  apply (C10_heap_next_past_end sample_db "emp" sample_file (mkIterator 7 5)).
  - reflexivity.
  - cbn. lia.
Defined.

(** *** Buffer pool: the well-formed states *)

Ltac pool_simpl :=
  cbn [files bufferPool pages pid_to_pos pos_to_pid pos_to_lru lru_list dirty
       available fst snd BP.set_pages] in *.

Section PoolWf.

Variables (n : nat) (D : gset string).

Lemma init_wf fs : pool_wf n (dom fs) (mkDatabase fs (BP.init n)).
Proof.
  unfold BP.init. constructor; pool_simpl.
  - done.
  - intros pid pos H. by rewrite lookup_empty in H.
  - intros pos. split; [set_solver | intros [pid H]; by rewrite lookup_empty in H].
  - constructor.
  - set_solver.
  - set_solver.
  - apply NoDup_seq.
  - intros pos _. set_solver.
  - intros pos. rewrite elem_of_seq. intros [?|?]; [lia | set_solver].
  - apply length_replicate.
Qed.

Lemma init_full fs : pool_full n (mkDatabase fs (BP.init n)).
Proof. intros pos Hpos. left. unfold BP.init. pool_simpl. apply elem_of_seq. lia. Qed.


Lemma keeps_frames_trans db1 db2 db3 :
  keeps_frames db1 db2 -> keeps_frames db2 db3 -> keeps_frames db1 db3.
Proof. intros H12 H23 pos H. by apply H23, H12. Qed.

Lemma wf_inj db pid1 pid2 pos :
  pool_wf n D db ->
  pid_to_pos (bufferPool db) !! pid1 = Some pos ->
  pid_to_pos (bufferPool db) !! pid2 = Some pos -> pid1 = pid2.
Proof.
  intros Hwf H1 H2.
  destruct (wf_pid _ _ _ Hwf _ _ H1) as [E1 _].
  destruct (wf_pid _ _ _ Hwf _ _ H2) as [E2 _]. congruence.
Qed.

Lemma wf_resident db pid pos :
  pool_wf n D db -> pid_to_pos (bufferPool db) !! pid = Some pos ->
  pos ∈ pos_to_lru (bufferPool db) /\ (pos ∉ available (bufferPool db))
  /\ (pos < n)%nat /\ file pid ∈ D /\ BP.pid_at (bufferPool db) pos = pid.
Proof.
  intros Hwf H.
  assert (pos ∈ pos_to_lru (bufferPool db)) as Hin
    by (apply (wf_lru_keys _ _ _ Hwf); eauto).
  split; [done|]. split.
  { intros Hav. by apply (wf_free _ _ _ Hwf) in Hav. }
  split; [apply (wf_frames _ _ _ Hwf); by right|].
  destruct (wf_pid _ _ _ Hwf _ _ H) as [E HD]. split; [done|].
  unfold BP.pid_at. by rewrite E.
Qed.


Lemma touch_wf db pid pos :
  pool_wf n D db -> pid_to_pos (bufferPool db) !! pid = Some pos ->
  pool_wf n D (mkDatabase (files db) (BP.touch (bufferPool db) pos)).
Proof.
  intros Hwf H. destruct (wf_resident _ _ _ Hwf H) as (Hin & _).
  unfold BP.touch. rewrite bool_decide_eq_true_2 by done.
  destruct Hwf. constructor; pool_simpl; try done.
  - apply NoDup_cons. split.
    + unfold BP.lru_erase. rewrite list_elem_of_filter. tauto.
    + by apply NoDup_filter.
  - intros pos'. rewrite elem_of_cons. unfold BP.lru_erase.
    rewrite list_elem_of_filter, wf_lru_list0.
    destruct (decide (pos' = pos)) as [->|]; tauto.
Qed.

Lemma markDirty_wf db pid :
  pool_wf n D db ->
  (BP.markDirty pid db).2 = Ok tt /\ pool_wf n D (BP.markDirty pid db).1
  /\ keeps_frames db (BP.markDirty pid db).1.
Proof.
  intros Hwf. unfold BP.markDirty, bind, get_pool, put_pool, ret.
  destruct (pid_to_pos (bufferPool db) !! pid) as [pos|] eqn:E; pool_simpl.
  - split; [done|]. destruct (wf_resident _ _ _ Hwf E) as (Hin & _).
    split; [|by intros pos'].
    destruct Hwf. constructor; pool_simpl; try done. set_solver.
  - split; [done|]. split; [done | by intros pos'].
Qed.

Lemma discardPage_wf db pid :
  pool_wf n D db ->
  (BP.discardPage pid db).2 = Ok tt /\ pool_wf n D (BP.discardPage pid db).1
  /\ keeps_frames db (BP.discardPage pid db).1.
Proof.
  intros Hwf. unfold BP.discardPage, bind, get_pool, put_pool, ret.
  destruct (pid_to_pos (bufferPool db) !! pid) as [pos|] eqn:E; pool_simpl;
    [|split; [done | split; [done | by intros pos']]].
  split; [done|].
  destruct (wf_resident _ _ _ Hwf E) as (Hin & Hnav & Hlt & HD & Hat).
  rewrite bool_decide_eq_true_2 by done.
  split; [|intros pos'; pool_simpl; rewrite elem_of_cons;
           destruct (decide (pos' = pos)) as [->|]; set_solver].
  pose proof (wf_inj db) as Hinj. specialize (fun a b c => Hinj a b c Hwf).
  destruct Hwf. constructor; pool_simpl; try done.
  - intros pid' pos' H'. apply lookup_delete_Some in H' as [Hne H'].
    assert (pos' <> pos) by (intros ->; apply Hne; eauto).
    rewrite lookup_insert_ne by done. by apply wf_pid0.
  - intros pos'. rewrite elem_of_difference, elem_of_singleton, wf_lru_keys0. split.
    + intros [[pid' H'] Hne]. exists pid'. apply lookup_delete_Some.
      split; [congruence | done].
    + intros [pid' H']. apply lookup_delete_Some in H' as [Hne H'].
      split; [eauto|]. intros ->. apply Hne. eauto.
  - by apply NoDup_filter.
  - intros pos'. unfold BP.lru_erase.
    rewrite list_elem_of_filter, wf_lru_list0. set_solver.
  - set_solver.
  - apply NoDup_cons. done.
  - intros pos'. rewrite elem_of_cons. intros [->|Hav]; [set_solver|].
    apply wf_free0 in Hav. set_solver.
  - intros pos'. rewrite elem_of_cons. intros [[->|Hav]|Hin']; [done | |].
    + apply wf_frames0. by left.
    + apply wf_frames0. right. set_solver.
Qed.


Lemma discardPage_eval db pid pos :
  pool_wf n D db -> pid_to_pos (bufferPool db) !! pid = Some pos ->
  BP.discardPage pid db
  = (mkDatabase (files db) (PoolSpec.dissociated (bufferPool db) pid pos), Ok tt).
Proof.
  intros Hwf E. destruct (wf_resident _ _ _ Hwf E) as (Hin & _).
  unfold BP.discardPage, bind, get_pool, put_pool, ret. rewrite E.
  pool_simpl. by rewrite bool_decide_eq_true_2.
Qed.

Lemma wf_file_lookup db nm :
  pool_wf n D db -> nm ∈ D -> exists f, files db !! nm = Some f.
Proof.
  intros Hwf Hin. rewrite <- (wf_dom _ _ _ Hwf) in Hin.
  apply elem_of_dom in Hin as [f Hf]. eauto.
Qed.

Lemma dom_insert_same (fs : gmap string DbFile) nm f f' :
  fs !! nm = Some f -> dom (<[nm := f']> fs) = dom fs.
Proof.
  intros H. rewrite dom_insert_L.
  assert (nm ∈ dom fs) by (apply elem_of_dom; eauto). set_solver.
Qed.

Lemma written_back_dom fs bp pid pos :
  dom (PoolSpec.written_back fs bp pid pos) = dom fs.
Proof.
  unfold PoolSpec.written_back. case_bool_decide; [|done].
  destruct (fs !! file pid) eqn:E; [|done]. by eapply dom_insert_same.
Qed.

Lemma read_from_dom fs pid : dom (PoolSpec.read_from fs pid).1 = dom fs.
Proof.
  unfold PoolSpec.read_from.
  destruct (fs !! file pid) eqn:E; [|done]. by eapply dom_insert_same.
Qed.

(** [flushPage] of a cached page: written back if dirty, then clean. *)
Lemma flushPage_eval db pid pos :
  pool_wf n D db -> pid_to_pos (bufferPool db) !! pid = Some pos ->
  BP.flushPage pid db
  = (mkDatabase (PoolSpec.written_back (files db) (bufferPool db) pid pos)
       (mkBufferPool (pages (bufferPool db)) (pid_to_pos (bufferPool db))
          (pos_to_pid (bufferPool db)) (pos_to_lru (bufferPool db))
          (lru_list (bufferPool db)) (dirty (bufferPool db) ∖ {[pos]})
          (available (bufferPool db))),
     Ok tt).
Proof.
  intros Hwf E. destruct (wf_resident _ _ _ Hwf E) as (_ & _ & _ & HD & _).
  destruct (wf_file_lookup _ _ Hwf HD) as [f Hf].
  unfold BP.flushPage, PoolSpec.written_back, bind, get_pool, put_pool, ret.
  rewrite E. case_bool_decide as Hd.
  - unfold Db.writePage, Db.get, Db.set_file, bind. pool_simpl. by rewrite Hf.
  - pool_simpl. replace (dirty (bufferPool db) ∖ {[pos]}) with (dirty (bufferPool db))
      by set_solver. by destruct db as [fs []].
Qed.

Lemma flushPage_wf db pid :
  pool_wf n D db ->
  (BP.flushPage pid db).2 = Ok tt /\ pool_wf n D (BP.flushPage pid db).1
  /\ keeps_frames db (BP.flushPage pid db).1.
Proof.
  intros Hwf.
  destruct (pid_to_pos (bufferPool db) !! pid) as [pos|] eqn:E.
  - rewrite (flushPage_eval _ _ _ Hwf E). split; [done|]. pool_simpl.
    split; [|by intros pos'].
    destruct (wf_resident _ _ _ Hwf E) as (Hin & _).
    destruct Hwf. constructor; pool_simpl; try done.
    + by rewrite written_back_dom.
    + set_solver.
  - unfold BP.flushPage, bind, get_pool, ret. rewrite E.
    split; [done|]. split; [done | by intros pos'].
Qed.

Lemma flush_all_wf db pids :
  pool_wf n D db ->
  (BP.flush_all pids db).2 = Ok tt /\ pool_wf n D (BP.flush_all pids db).1
  /\ keeps_frames db (BP.flush_all pids db).1.
Proof.
  revert db. induction pids as [|pid r IH]; intros db Hwf.
  { split; [done|]. split; [done | by intros pos']. }
  cbn [BP.flush_all]. unfold bind.
  destruct (flushPage_wf db pid Hwf) as (Hok & Hwf1 & Hk1).
  destruct (BP.flushPage pid db) as [db1 [[]|e]]; [|done].
  destruct (IH db1 Hwf1) as (Hok2 & Hwf2 & Hk2).
  split; [done|]. split; [done|]. by eapply keeps_frames_trans.
Qed.

Lemma flushFile_wf db nm :
  pool_wf n D db ->
  (BP.flushFile nm db).2 = Ok tt /\ pool_wf n D (BP.flushFile nm db).1
  /\ keeps_frames db (BP.flushFile nm db).1.
Proof.
  intros Hwf. unfold BP.flushFile, bind, get_pool. by apply flush_all_wf.
Qed.

Lemma getPage_hit_eval db pid pos :
  pool_wf n D db -> pid_to_pos (bufferPool db) !! pid = Some pos ->
  BP.getPage pid db
  = (mkDatabase (files db) (PoolSpec.promoted (bufferPool db) pos), Ok pos).
Proof.
  intros Hwf E. destruct (wf_resident _ _ _ Hwf E) as (Hin & _).
  unfold BP.getPage, bind, get_pool, put_pool, ret. rewrite E.
  unfold BP.touch. by rewrite bool_decide_eq_true_2.
Qed.




Lemma readPage_eval db pid :
  is_Some (files db !! file pid) ->
  Db.readPage (file pid) (page pid) db
  = (mkDatabase (PoolSpec.read_from (files db) pid).1 (bufferPool db),
     Ok (PoolSpec.read_from (files db) pid).2).
Proof.
  intros [f Hf]. unfold Db.readPage, Db.get, Db.set_file, bind, ret,
    PoolSpec.read_from. by rewrite Hf.
Qed.


Lemma installed_wf db pid pg pos rest fs :
  pool_wf n D db -> available (bufferPool db) = pos :: rest ->
  pid_to_pos (bufferPool db) !! pid = None -> file pid ∈ D -> dom fs = D ->
  pool_wf n D (mkDatabase fs (PoolSpec.installed (bufferPool db) pid pg)).
Proof.
  intros Hwf Hav E HD Hdom. unfold PoolSpec.installed. rewrite Hav.
  assert (pos ∉ pos_to_lru (bufferPool db)) as Hfree
    by (apply (wf_free _ _ _ Hwf); rewrite Hav; set_solver).
  pose proof (wf_free_nodup _ _ _ Hwf) as Hnd. rewrite Hav in Hnd.
  apply NoDup_cons in Hnd as [Hpr Hnd].
  destruct Hwf. rewrite Hav in *. constructor; pool_simpl; try done.
  - intros pid' pos' H'. apply lookup_insert_Some in H' as [[<- <-]|[Hne H']].
    + by rewrite lookup_insert_eq.
    + assert (pos' <> pos) by (intros ->; apply Hfree, wf_lru_keys0; eauto).
      rewrite lookup_insert_ne by done. by apply wf_pid0.
  - intros pos'. rewrite elem_of_union, elem_of_singleton, wf_lru_keys0. split.
    + intros [->|[pid' H']].
      * exists pid. apply lookup_insert_eq.
      * exists pid'. rewrite lookup_insert_ne; [done | congruence].
    + intros [pid' H']. apply lookup_insert_Some in H' as [[_ <-]|[_ H']]; eauto.
  - apply NoDup_cons. split; [by rewrite wf_lru_list0 | done].
  - intros pos'. rewrite elem_of_cons, wf_lru_list0. set_solver.
  - set_solver.
  - intros pos' Hin. specialize (wf_free0 pos'). set_solver.
  - intros pos' Hin. apply wf_frames0. set_solver.
  - by rewrite length_insert.
Qed.

Lemma installed_keeps db pid pg fs :
  keeps_frames db (mkDatabase fs (PoolSpec.installed (bufferPool db) pid pg)).
Proof.
  intros pos'. unfold PoolSpec.installed.
  destruct (available (bufferPool db)) as [|pos rest] eqn:Hav; pool_simpl;
    rewrite ?Hav; [tauto|].
  rewrite elem_of_cons. set_solver.
Qed.

(** The state between [available.pop_back()] and the read. *)
Lemma popped_wf db pos rest :
  pool_wf n D db -> available (bufferPool db) = pos :: rest ->
  pool_wf n D
    (mkDatabase (files db)
       (mkBufferPool (pages (bufferPool db)) (pid_to_pos (bufferPool db))
          (pos_to_pid (bufferPool db)) (pos_to_lru (bufferPool db))
          (lru_list (bufferPool db)) (dirty (bufferPool db)) rest)).
Proof.
  intros Hwf Hav.
  pose proof (wf_free_nodup _ _ _ Hwf) as Hnd. rewrite Hav in Hnd.
  apply NoDup_cons in Hnd as [_ Hnd].
  destruct Hwf. rewrite Hav in *. constructor; pool_simpl; try done.
  - intros pos' Hin. apply wf_free0. set_solver.
  - intros pos' Hin. apply wf_frames0. set_solver.
Qed.

Lemma isDirty_eval db pid : exists b, BP.isDirty pid db = (db, Ok b).
Proof.
  unfold BP.isDirty, bind, get_pool, ret.
  destruct (pid_to_pos (bufferPool db) !! pid); eauto.
Qed.

Lemma evict_wf db :
  pool_wf n D db ->
  pool_wf n D (BP.evict db).1 /\ keeps_frames db (BP.evict db).1.
Proof.
  intros Hwf.
  assert (keeps_frames db db) as Hrefl by (by intros pos').
  destruct (BP.evict db) as [db1 r] eqn:Hev. cbn [fst]. revert Hev.
  unfold BP.evict. unfold bind at 1. unfold get_pool at 1.
  destruct (available (bufferPool db)); [|by intros [= <- _]].
  destruct (last (lru_list (bufferPool db))) as [victim|]; [|by intros [= <- _]].
  case_bool_decide; [by intros [= <- _]|].
  set (old_pid := BP.pid_at (bufferPool db) victim).
  unfold bind at 1. destruct (isDirty_eval db old_pid) as [b ->].
  unfold bind, when. destruct b.
  - destruct (flushPage_wf db old_pid Hwf) as (Hok & Hwf1 & Hk1).
    destruct (BP.flushPage old_pid db) as [db2 [[]|e]]; [|done].
    destruct (discardPage_wf db2 old_pid Hwf1) as (_ & Hwf2 & Hk2).
    intros Hd. rewrite Hd in Hwf2, Hk2. cbn [fst] in *.
    split; [done|]. by eapply keeps_frames_trans.
  - unfold ret. destruct (discardPage_wf db old_pid Hwf) as (_ & Hwf2 & Hk2).
    intros Hd. rewrite Hd in Hwf2, Hk2. done.
Qed.

Lemma flushPage_maps db pid :
  pid_to_pos (bufferPool (BP.flushPage pid db).1) = pid_to_pos (bufferPool db).
Proof.
  unfold BP.flushPage, bind, get_pool, put_pool, ret.
  destruct (pid_to_pos (bufferPool db) !! pid); [|done].
  case_bool_decide; [|done]. pool_simpl.
  unfold Db.writePage, Db.get, Db.set_file, bind. pool_simpl.
  by destruct (files db !! file pid).
Qed.

Lemma discardPage_miss db pid pid' :
  pid_to_pos (bufferPool db) !! pid = None ->
  pid_to_pos (bufferPool (BP.discardPage pid' db).1) !! pid = None.
Proof.
  intros E. unfold BP.discardPage, bind, get_pool, put_pool, ret.
  destruct (pid_to_pos (bufferPool db) !! pid'); [|done].
  pool_simpl. apply lookup_delete_None. by right.
Qed.

Lemma evict_miss db pid :
  pid_to_pos (bufferPool db) !! pid = None ->
  pid_to_pos (bufferPool (BP.evict db).1) !! pid = None.
Proof.
  intros E. unfold BP.evict. unfold bind at 1. unfold get_pool at 1.
  destruct (available (bufferPool db)); [|done].
  destruct (last (lru_list (bufferPool db))) as [victim|]; [|done].
  case_bool_decide; [done|].
  set (old_pid := BP.pid_at (bufferPool db) victim).
  unfold bind at 1. destruct (isDirty_eval db old_pid) as [b ->].
  unfold bind, when. destruct b.
  - pose proof (flushPage_maps db old_pid) as Hm.
    destruct (BP.flushPage old_pid db) as [db1 [[]|e]]; pool_simpl.
    + apply discardPage_miss. by rewrite Hm.
    + by rewrite Hm.
  - unfold ret. by apply discardPage_miss.
Qed.

(** [getPage] keeps the pool well formed, also when it throws; it keeps
    every frame when the file of the page is registered. *)
Lemma getPage_wf db pid :
  pool_wf n D db ->
  pool_wf n D (BP.getPage pid db).1
  /\ (file pid ∈ D -> keeps_frames db (BP.getPage pid db).1).
Proof.
  intros Hwf.
  destruct (pid_to_pos (bufferPool db) !! pid) as [pos|] eqn:E.
  { rewrite (getPage_hit_eval _ _ _ Hwf E). pool_simpl.
    split; [|by intros _ pos'].
    pose proof (touch_wf _ _ _ Hwf E) as Ht. unfold BP.touch in Ht.
    destruct (wf_resident _ _ _ Hwf E) as (Hin & _).
    by rewrite bool_decide_eq_true_2 in Ht. }
  destruct (evict_wf db Hwf) as [Hwf1 Hk1].
  pose proof (evict_miss db pid E) as E1.
  destruct (BP.getPage pid db) as [db' r] eqn:Hg. cbn [fst]. revert Hg.
  unfold BP.getPage. unfold bind at 1. unfold get_pool at 1. rewrite E.
  unfold bind at 1. destruct (BP.evict db) as [db1 [[]|e]] eqn:Hev;
    [|by intros [= <- _]].
  pool_simpl.
  unfold bind at 1. unfold get_pool at 1.
  destruct (available (bufferPool db1)) as [|pos rest] eqn:Hav;
    [by intros [= <- _]|].
  unfold bind at 1. unfold put_pool at 1. unfold bind at 1.
  destruct (files db1 !! file pid) as [f|] eqn:Hf.
  - assert (file pid ∈ D) as HD
      by (rewrite <- (wf_dom _ _ _ Hwf1); apply elem_of_dom; eauto).
    rewrite readPage_eval by (pool_simpl; eauto).
    unfold bind, get_pool, put_pool, ret. pool_simpl. intros [= <- _].
    pose proof (installed_wf db1 pid (PoolSpec.read_from (files db1) pid).2 pos rest
                  (PoolSpec.read_from (files db1) pid).1 Hwf1 Hav E1 HD) as Hi.
    pose proof (installed_keeps db1 pid (PoolSpec.read_from (files db1) pid).2
                  (PoolSpec.read_from (files db1) pid).1) as Hk2.
    unfold PoolSpec.installed in Hi, Hk2. rewrite Hav in Hi, Hk2.
    split.
    + apply Hi. rewrite read_from_dom. apply (wf_dom _ _ _ Hwf1).
    + intros _. by eapply keeps_frames_trans.
  - unfold Db.readPage, Db.get, bind. pool_simpl. rewrite Hf. intros [= <- _].
    split; [exact (popped_wf db1 pos rest Hwf1 Hav)|].
    intros HD. rewrite <- (wf_dom _ _ _ Hwf1) in HD.
    apply elem_of_dom in HD as [f' Hf']. congruence.
Qed.

Lemma run_op_wf db o :
  pool_wf n D db ->
  pool_wf n D (run_op o db).1
  /\ (op_registered (files db) o -> keeps_frames db (run_op o db).1).
Proof.
  intros Hwf. destruct o as [pid|pid|pid|pid|nm]; cbn [run_op].
  - destruct (getPage_wf db pid Hwf) as [Hwf1 Hk1].
    unfold bind. destruct (BP.getPage pid db) as [db1 [pos|e]]; (split; [done|]);
      intros Hreg; apply Hk1; rewrite <- (wf_dom _ _ _ Hwf); by apply elem_of_dom.
  - destruct (markDirty_wf db pid Hwf) as (_ & ? & ?). done.
  - destruct (discardPage_wf db pid Hwf) as (_ & ? & ?). done.
  - destruct (flushPage_wf db pid Hwf) as (_ & ? & ?). done.
  - destruct (flushFile_wf db nm Hwf) as (_ & ? & ?). done.
Qed.


Lemma run_ops_wf ops db : pool_wf n D db -> pool_wf n D (run_ops ops db).
Proof.
  revert db. induction ops as [|o r IH]; intros db Hwf; [done|].
  cbn [run_ops]. apply IH. by apply run_op_wf.
Qed.







End PoolWf.

(** *** Buffer pool: getPage *)



Lemma full_db_wf : pool_wf 3 (dom sample_files) full_db.
Proof. apply run_ops_wf, init_wf. Qed.



(** The eviction scenario: with three frames in use, a fourth page evicts
    page 0 of "emp", the least recently used, writes it back because it is
    dirty, and takes its frame. *)
Example eviction_example :
  let r := BP.getPage (mkPageId "emp" 3) full_db in
  r.2 = Ok 0%nat
  /\ (writes <$> files r.1 !! "emp") = Some [0%nat]
  /\ (reads <$> files r.1 !! "emp") = Some [0; 1; 2; 3]%nat
  /\ pid_to_pos (bufferPool r.1) !! mkPageId "emp" 0 = None
  /\ pid_to_pos (bufferPool r.1) !! mkPageId "emp" 3 = Some 0%nat
  /\ lru_list (bufferPool r.1) = [0; 2; 1]%nat
  /\ dirty (bufferPool r.1) = ∅.
Proof. vm_compute. repeat split. Qed.

(** *** Buffer pool: the invariant of the resident frames *)




Example ghost_getPage_leaks_a_frame :
  let db := (BP.getPage (mkPageId "ghost" 0)
               (mkDatabase sample_files (BP.init 3))) in
  db.2 = Throw out_of_range
  /\ available (bufferPool db.1) = [1; 2]%nat
  /\ pid_to_pos (bufferPool db.1) = ∅
  /\ lru_list (bufferPool db.1) = [].
Proof. vm_compute. repeat split. Qed.

(** *** The scenarios of the specification *)

Example heap_capacity_68 :
  TD.length people_td = 68%nat /\ HeapPage.capacity people_td = 60%nat.
Proof. vm_compute. split; reflexivity. Qed.

Example leaf_capacity_68 :
  LeafPage.capacity (LeafPage.make zero_page 0 0 people_td 0) = 60%nat.
Proof. vm_compute. reflexivity. Qed.

Example index_capacity : IndexPage.capacity_of_page = 340%nat.
Proof. vm_compute. reflexivity. Qed.

(** Heap round trip: the three tuples come back in insertion order, and
    after the second one is deleted the other two remain. *)
Example heap_round_trip :
  (HeapFile.begin "people" people_loaded).2 = Ok (mkIterator 0 0)
  /\ scan_from "people" (mkIterator 0 0) 3 people_loaded
     = [Ok [FInt 1; FChar [97]]; Ok [FInt 2; FChar [98]]; Ok [FInt 3; FChar [99]]]
  /\ (HeapFile.next "people" (mkIterator 0 2) people_loaded).2 = Ok (mkIterator 1 0)
  /\ (HeapFile.end_ "people" people_loaded).2 = Ok (mkIterator 1 0)
  /\ scan_from "people" (mkIterator 0 0) 2
       (HeapFile.deleteTuple "people" (mkIterator 0 1) people_loaded).1
     = [Ok [FInt 1; FChar [97]]; Ok [FInt 3; FChar [99]]].
Proof. vm_compute. repeat split. Qed.

(** [Database::remove] of a file that has a dirty page in the pool: the
    flush looks the file up after it has left the registry. *)
Example remove_with_dirty_page :
  (Registry.remove "people" people_loaded).2 = Throw out_of_range.
Proof. vm_compute. reflexivity. Qed.

(** * Further properties of the code *)

(** ** Tuple.cpp: schemas *)

Lemma offsets_from_sum off tys (i : nat) :
  (i < length tys)%nat ->
  TD.offsets_from off tys !! i
  = Some (off + sum_list (TD.size_of_fixed <$> take i tys))%nat.
Proof.
  revert off i. induction tys as [|ty r IH]; intros off i Hi; [simpl in Hi; lia|].
  destruct i as [|i].
  - simpl. f_equal. lia.
  - simpl in Hi. cbn [TD.offsets_from]. rewrite lookup_cons_ne_0 by done.
    cbn [Nat.pred]. rewrite IH by lia. rewrite firstn_cons, fmap_cons.
    cbn [sum_list sum_list_with]. f_equal. unfold id. lia.
Qed.

Lemma length_from_sum off tys :
  TD.length_from off tys = (off + sum_list (TD.size_of_fixed <$> tys))%nat.
Proof.
  revert off. induction tys as [|ty r IH]; intros off; [simpl; lia|].
  cbn [TD.length_from]. rewrite IH, fmap_cons. cbn [sum_list sum_list_with].
  unfold id. lia.
Qed.

Lemma schema_layout td :
  TD.length td = sum_list (TD.size_of_fixed <$> types_ td)
  /\ forall i : nat,
       TD.offset_of td i
       = if decide (i < TD.size td)%nat
         then Ok (sum_list (TD.size_of_fixed <$> take i (types_ td)))
         else Throw out_of_range.
Proof.
  split.
  - unfold TD.length. by rewrite length_from_sum.
  - intros i. unfold TD.offset_of, TD.offsets_, TD.size.
    destruct (decide _) as [Hi|Hi].
    + by rewrite offsets_from_sum.
    + rewrite lookup_ge_None_2; [done|]. rewrite length_offsets_from. lia.
Qed.

(** X1. The constructor of [TupleDesc] lays the fields out back to back:
    the length of a tuple is the sum of the sizes of its fields, the offset
    of field [i] is the sum of the sizes of the fields before it, and
    [offset_of] throws [std::out_of_range] exactly beyond the last field. *)
Theorem X1_schema_layout td :
  TD.length td = sum_list (TD.size_of_fixed <$> types_ td)
  /\ forall i : nat,
       TD.offset_of td i
       = if decide (i < TD.size td)%nat
         then Ok (sum_list (TD.size_of_fixed <$> take i (types_ td)))
         else Throw out_of_range.
Proof. apply schema_layout. Qed.

Lemma index_from_first names nm (k i : nat) :
  names !! i = Some nm ->
  (forall j : nat, (j < i)%nat -> names !! j <> Some nm) ->
  TD.index_from names nm k = Ok (k + i)%nat.
Proof.
  revert k i. induction names as [|n r IH]; intros k i Hi Hfirst; [done|].
  cbn [TD.index_from]. destruct (decide (n = nm)) as [->|Hne].
  - destruct i as [|i]; [f_equal; lia|].
    exfalso. apply (Hfirst 0%nat); [lia|done].
  - destruct i as [|i]; [simpl in Hi; congruence|].
    rewrite (IH (S k) i); [f_equal; lia|done|].
    intros j Hj. apply (Hfirst (S j)). lia.
Qed.

Lemma index_from_Ok names nm (k i : nat) :
  TD.index_from names nm k = Ok i ->
  (k <= i)%nat /\ names !! (i - k)%nat = Some nm.
Proof.
  revert k. induction names as [|n r IH]; intros k; [done|].
  cbn [TD.index_from]. destruct (decide (n = nm)) as [->|Hne].
  - intros [= <-]. by rewrite Nat.sub_diag.
  - intros H. apply IH in H as [Hk H]. split; [lia|].
    replace (i - k)%nat with (S (i - S k)) by lia. done.
Qed.

Lemma index_from_Throw names nm (k : nat) e :
  TD.index_from names nm k = Throw e -> e = out_of_range /\ nm ∉ names.
Proof.
  revert k. induction names as [|n r IH]; intros k.
  - intros [= <-]. split; [done|]. apply not_elem_of_nil.
  - cbn [TD.index_from]. destruct (decide (n = nm)) as [->|Hne]; [done|].
    intros H. apply IH in H as [-> H]. split; [done|].
    rewrite elem_of_cons. intros [->|?]; done.
Qed.

(** X2. On a schema accepted by the constructor, [index_of] is the inverse
    of the list of names: it returns [i] exactly when field [i] has that
    name, the index it returns is a valid field index, and it throws, always
    [std::out_of_range], exactly when no field has the name. *)
Theorem X2_schema_index_of types names td :
  TD.make types names = Ok td ->
  (forall nm (i : nat), TD.index_of td nm = Ok i <-> names !! i = Some nm)
  /\ (forall nm (i : nat), TD.index_of td nm = Ok i ->
        exists ty, TD.field_type td i = Ok ty)
  /\ (forall nm e, TD.index_of td nm = Throw e <-> e = out_of_range /\ nm ∉ names).
Proof.
  unfold TD.make. destruct (Nat.eqb_spec (length types) (length names)) as [Hlen|];
    [|done]. cbn [negb]. case_bool_decide as Hnd; [|done]. intros [= <-].
  unfold TD.index_of, TD.field_type. cbn [names_ types_].
  assert (forall nm (i : nat), TD.index_from names nm 0 = Ok i <-> names !! i = Some nm)
    as Hiff.
  { intros nm i. split.
    - intros H. apply index_from_Ok in H as [_ H]. by rewrite Nat.sub_0_r in H.
    - intros H. apply (index_from_first names nm 0 i H).
      intros j Hj Hj'. pose proof (NoDup_lookup _ _ _ _ Hnd H Hj'). lia. }
  split; [done|]. split.
  - intros nm i H. apply Hiff in H. apply lookup_lt_Some in H.
    destruct (lookup_lt_is_Some_2 types i) as [ty Hty]; [lia|].
    exists ty. by rewrite Hty.
  - intros nm e. split; [apply index_from_Throw|].
    intros [-> Hnm]. destruct (TD.index_from names nm 0) as [i|e] eqn:E.
    + apply Hiff in E. exfalso. apply Hnm. by eapply list_elem_of_lookup_2.
    + by apply index_from_Throw in E as [-> _].
Qed.

Lemma X2_schema_index_of_witness :
  (forall nm (i : nat),
      TD.index_of sample_td nm = Ok i <-> names_ sample_td !! i = Some nm)
  /\ (forall nm (i : nat), TD.index_of sample_td nm = Ok i ->
        exists ty, TD.field_type sample_td i = Ok ty)
  /\ (forall nm e, TD.index_of sample_td nm = Throw e
        <-> e = out_of_range /\ nm ∉ names_ sample_td).
Proof.
  apply (X2_schema_index_of (types_ sample_td) (names_ sample_td) sample_td).
  reflexivity.
Defined.

Lemma field_type_type_of (t : Tuple) (i : nat) ty :
  Tup.field_type t i = Ok ty <-> (type_of <$> t) !! i = Some ty.
Proof.
  unfold Tup.field_type. rewrite list_lookup_fmap.
  destruct (t !! i) as [[v|b|s]|]; cbn; split; intros H; congruence.
Qed.

Lemma compatible_from_complete tys (t : Tuple) (k : nat) :
  (forall (i : nat) ty, tys !! i = Some ty -> Tup.field_type t (k + i) = Ok ty) ->
  TD.compatible_from tys t k = true.
Proof.
  revert k. induction tys as [|ty r IH]; intros k H; [done|].
  cbn [TD.compatible_from]. pose proof (H 0%nat ty eq_refl) as H0.
  rewrite Nat.add_0_r in H0. rewrite H0. rewrite decide_True by done.
  apply IH. intros i ty' Hi. replace (S k + i)%nat with (k + S i)%nat by lia.
  by apply H.
Qed.

Lemma compatible_types td (t : Tuple) :
  TD.compatible td t = true <-> type_of <$> t = types_ td.
Proof.
  split.
  - intros H. apply compatible_spec in H as [Hlen H].
    apply list_eq. intros i. destruct (types_ td !! i) as [ty|] eqn:E.
    + apply field_type_type_of. by apply H.
    + apply lookup_ge_None_2. rewrite length_fmap, Hlen.
      by apply lookup_ge_None_1.
  - intros H. unfold TD.compatible, Tup.size.
    replace (length t) with (length (types_ td))
      by (by rewrite <- H, length_fmap).
    rewrite Nat.eqb_refl. cbn [negb]. apply compatible_from_complete.
    intros i ty Hi. apply field_type_type_of. by rewrite H.
Qed.

(** X3. [TupleDesc::compatible] accepts a tuple exactly when the list of
    the types of its fields is the list of types of the schema. *)
Theorem X3_compatible_iff_types td (t : Tuple) :
  TD.compatible td t = true <-> type_of <$> t = types_ td.
Proof. apply compatible_types. Qed.

(** X4. [TupleDesc::merge] of two schemas accepted by the constructor
    succeeds exactly when they share no field name, and throws
    [std::logic_error] otherwise.  The merged schema lists the fields of the
    first and then those of the second: its tuple length is the sum of the
    two lengths, the fields of the first keep their offsets, the fields of
    the second are shifted by the length of the first, and the
    concatenation of two compatible tuples is compatible with it. *)
Theorem X4_merge td1 td2 :
  length (types_ td1) = length (names_ td1) -> NoDup (names_ td1) ->
  length (types_ td2) = length (names_ td2) -> NoDup (names_ td2) ->
  ((forall nm, nm ∈ names_ td1 -> nm ∉ names_ td2) ->
     TD.merge td1 td2
     = Ok (mkTupleDesc (types_ td1 ++ types_ td2) (names_ td1 ++ names_ td2)))
  /\ (forall nm, nm ∈ names_ td1 -> nm ∈ names_ td2 ->
        TD.merge td1 td2 = Throw logic_error)
  /\ (forall td, TD.merge td1 td2 = Ok td ->
        TD.size td = (TD.size td1 + TD.size td2)%nat
        /\ TD.length td = (TD.length td1 + TD.length td2)%nat
        /\ (forall i : nat, (i < TD.size td1)%nat ->
              TD.offset_of td i = TD.offset_of td1 i)
        /\ (forall (i o : nat), TD.offset_of td2 i = Ok o ->
              TD.offset_of td (TD.size td1 + i) = Ok (TD.length td1 + o)%nat)
        /\ (forall t1 t2 : Tuple,
              TD.compatible td1 t1 = true -> TD.compatible td2 t2 = true ->
              TD.compatible td (t1 ++ t2) = true)).
Proof.
  intros Hl1 Hn1 Hl2 Hn2. unfold TD.merge, TD.make.
  rewrite !length_app, Hl1, Hl2, Nat.eqb_refl. cbn [negb].
  split; [|split].
  - intros Hdisj. rewrite bool_decide_eq_true_2; [done|].
    apply NoDup_app. done.
  - intros nm H1 H2. rewrite bool_decide_eq_false_2; [done|].
    intros Hnd. apply NoDup_app in Hnd as (_ & Hd & _). by apply (Hd nm).
  - intros td. case_bool_decide; [|done]. intros [= <-].
    pose proof (schema_layout td1) as [Hlen1 Hoff1].
    pose proof (schema_layout td2) as [Hlen2 Hoff2].
    pose proof (schema_layout
                  (mkTupleDesc (types_ td1 ++ types_ td2) (names_ td1 ++ names_ td2)))
      as [Hlen Hoff].
    unfold TD.size in *. cbn [types_] in *.
    split; [by rewrite length_app|]. split; [|split; [|split]].
    + rewrite Hlen, Hlen1, Hlen2, fmap_app. apply sum_list_with_app.
    + intros i Hi. rewrite Hoff, Hoff1, length_app.
      rewrite !decide_True by lia. by rewrite take_app_le by lia.
    + intros i o. rewrite Hoff2, Hoff, length_app.
      destruct (decide (i < _)%nat) as [Hi|]; [|done]. intros [= <-].
      rewrite decide_True by lia. rewrite take_app_add', fmap_app by done.
      rewrite Hlen1. f_equal. apply sum_list_with_app.
    + intros t1 t2 H1 H2. apply compatible_types. cbn [types_].
      apply compatible_types in H1, H2. by rewrite fmap_app, H1, H2.
Qed.

Lemma X4_merge_witness :
  TD.merge sample_td leaf_td = Throw logic_error
  /\ exists td, TD.merge sample_td people2_td = Ok td
       /\ TD.length td = (TD.length sample_td + TD.length people2_td)%nat.
Proof.
  destruct (X4_merge sample_td leaf_td) as (_ & Hclash & _);
    [reflexivity | apply (bool_decide_unpack _); vm_compute; exact I
     | reflexivity | apply (bool_decide_unpack _); vm_compute; exact I |].
  destruct (X4_merge sample_td people2_td) as (Hok & _ & Hlen);
    [reflexivity | apply (bool_decide_unpack _); vm_compute; exact I
     | reflexivity | apply (bool_decide_unpack _); vm_compute; exact I |].
  assert (forall nm, nm ∈ names_ sample_td -> nm ∉ names_ people2_td) as Hdisj.
  { intros nm H1 H2. apply list_elem_of_In in H1, H2. simpl in H1, H2.
    decompose [or] H1; decompose [or] H2; subst; (done || discriminate). }
  split.
  - apply (Hclash "id"%string); apply (bool_decide_unpack _); vm_compute; exact I.
  - eexists. split; [by apply Hok|]. by apply Hlen, Hok.
Defined.

(** ** Tuple.cpp: the bytes of a stored tuple *)

Lemma read_at_app {A} off n m (buf : list A) :
  Mem.read_at off (n + m) buf
  = Mem.read_at off n buf ++ Mem.read_at (off + n) m buf.
Proof.
  unfold Mem.read_at. rewrite <- take_take_drop. by rewrite drop_drop.
Qed.

Lemma write_at_intro {A} off (bs d d' : list A) :
  (off + length bs <= length d)%nat ->
  length d' = length d ->
  (forall j : nat, (j < off \/ off + length bs <= j)%nat -> d' !! j = d !! j) ->
  Mem.read_at off (length bs) d' = bs ->
  d' = Mem.write_at off bs d.
Proof.
  intros Hl Hlen Hout Hin. apply list_eq. intros j.
  destruct (Nat.lt_ge_cases j off) as [Hlt|Hge].
  - rewrite lookup_write_at_lt by lia. apply Hout. lia.
  - destruct (Nat.lt_ge_cases j (off + length bs)) as [Hlt|Hge'].
    + rewrite lookup_write_at_in by lia.
      rewrite <- Hin. rewrite lookup_read_at by lia. f_equal. lia.
    + rewrite lookup_write_at_ge by lia. apply Hout. lia.
Qed.

Lemma length_concat_payload (t : Tuple) :
  length (concat (payload <$> t))
  = sum_list (TD.size_of_fixed <$> (type_of <$> t)).
Proof.
  induction t as [|f r IH]; [done|].
  rewrite !fmap_cons. cbn [concat sum_list sum_list_with].
  rewrite length_app, length_payload. unfold sum_list in IH. by rewrite IH.
Qed.

Section Encoding.

Variables (td : TupleDesc) (t : Tuple) (base : nat) (data : list Z).
Hypothesis Hcompat : TD.compatible td t = true.
Hypothesis Hlen : (base + TD.length td <= length data)%nat.

Lemma serialize_prefix (n : nat) :
  (n <= TD.size td)%nat ->
  Mem.read_at base (sum_list (TD.size_of_fixed <$> take n (types_ td)))
      (foldl (TD.serialize_field td t base) data (seq 0 (TD.size td)))
  = concat (payload <$> take n t).
Proof.
  induction n as [|n IH]; intros Hn; [done|].
  destruct (field_at td t Hcompat n) as (f & o & Ef & Ety & Eo & Hend & _); [lia|].
  rewrite (take_S_r _ _ _ Ef), (take_S_r _ _ _ Ety), !fmap_app, concat_app.
  rewrite sum_list_with_app, read_at_app, IH by lia. f_equal.
  cbn [fmap list_fmap concat sum_list_with]. rewrite app_nil_r, Nat.add_0_r.
  assert (sum_list (TD.size_of_fixed <$> take n (types_ td)) = o) as Eo'.
  { unfold TD.offsets_ in Eo. rewrite offsets_from_sum in Eo; [|unfold TD.size in Hn; lia].
    cbn in Eo. by injection Eo. }
  rewrite Eo'. unfold id. rewrite <- length_payload.
  rewrite (serialize_fold_read td t base Hcompat (seq 0 (TD.size td)) data n f o);
    try done.
  - rewrite decide_True; [done|]. apply elem_of_seq. lia.
  - apply Forall_forall. intros i Hi. apply elem_of_seq in Hi. lia.
  - apply NoDup_seq.
Qed.

Lemma length_encoding : length (concat (payload <$> t)) = TD.length td.
Proof.
  unfold TD.length. rewrite length_from_sum. cbn [Nat.add].
  rewrite <- (proj1 (compatible_types td t) Hcompat). apply length_concat_payload.
Qed.

Lemma serialize_bytes :
  TD.serialize td data base t
  = Ok (Mem.write_at base (concat (payload <$> t)) data).
Proof.
  pose proof length_encoding as Henc.
  destruct (TD.serialize td data base t) as [data'|e] eqn:E.
  2:{ unfold TD.serialize in E. by rewrite Hcompat in E. }
  f_equal. apply write_at_intro.
  - lia.
  - by apply (serialize_length td t base data).
  - intros j Hj. apply (serialize_outside td t base data data' j E Hlen). lia.
  - unfold TD.serialize in E. rewrite Hcompat in E. cbn [negb] in E.
    injection E as <-. rewrite Henc.
    pose proof (serialize_prefix (TD.size td) (Nat.le_refl _)) as Hp.
    destruct (compatible_spec _ _ Hcompat) as [Ht _].
    rewrite !take_ge in Hp by (unfold TD.size; lia).
    rewrite <- Hp. f_equal. unfold TD.length. by rewrite length_from_sum.
Qed.

End Encoding.

(** X5. [TupleDesc::serialize] of a compatible tuple into a buffer with
    room for it overwrites exactly the bytes [base .. base + length) with
    the encodings of the fields, one after the other without a gap, and
    leaves every other byte as it was; on an incompatible tuple it throws
    [std::logic_error]. *)
Theorem X5_serialize_bytes td (t : Tuple) base data :
  (base + TD.length td <= length data)%nat ->
  TD.serialize td data base t
  = if TD.compatible td t
    then Ok (Mem.write_at base (concat (payload <$> t)) data)
    else Throw logic_error.
Proof.
  intros Hl. destruct (TD.compatible td t) eqn:E.
  - by apply serialize_bytes.
  - unfold TD.serialize. by rewrite E.
Qed.

Lemma X5_serialize_bytes_witness :
  TD.serialize sample_td (replicate 80 7) 2 sample_tuple
  = Ok (Mem.write_at 2 (concat (payload <$> sample_tuple)) (replicate 80 7)).
Proof.
  apply (X5_serialize_bytes sample_td sample_tuple 2 (replicate 80 7)).
  vm_compute. lia.
Defined.

(** ** HeapPage.cpp: tuples in slots *)

Section HeapPageSlots.

Import HeapPage.

Variables (td : TupleDesc) (page : Page).
Hypothesis Hfit : 8 * Z.of_nat (TD.length td) + 1 < 2 ^ 64.
Hypothesis Hpage : length page = DEFAULT_PAGE_SIZE.

Lemma slot_bases (i j : nat) :
  (i < j)%nat -> (slot_base td i + TD.length td <= slot_base td j)%nat.
Proof. unfold slot_base. nia. Qed.

(** Two pages that agree on the occupancy bits and on the bytes of slot
    [j] give the same answer to [getTuple j]. *)
Lemma getTuple_ext page2 (j : nat) :
  (j < capacity td -> msb_bit page2 j = msb_bit page j)%nat ->
  (j < capacity td ->
   forall k : nat, (k < TD.length td)%nat ->
     page2 !! (slot_base td j + k)%nat = page !! (slot_base td j + k)%nat)%nat ->
  getTuple td page2 j = getTuple td page j.
Proof.
  intros Hbit Hbytes. unfold getTuple.
  destruct (Nat.leb_spec (capacity td) j) as [|Hj]; [done|].
  rewrite !occupied_msb, Hbit by done.
  destruct (msb_bit page j); cbn [negb]; [|done]. f_equal.
  apply deserialize_ext, read_at_ext. by apply Hbytes.
Qed.

Lemma insert_get t page' :
  tuple_ok t ->
  insertTuple td page t = Ok (page', true) ->
  length page' = DEFAULT_PAGE_SIZE
  /\ exists i : nat, (i < capacity td)%nat
       /\ empty td page i = true
       /\ (forall j : nat, (j < i)%nat -> empty td page j = false)
       /\ getTuple td page' i = Ok (stored t)
       /\ (forall j : nat, j <> i -> getTuple td page' j = getTuple td page j).
Proof.
  intros Hok Hins.
  destruct (insertTuple_msb td page Hfit Hpage t page' Hins)
    as (i & page1 & Hi & Hfree & Hbelow & Hser & -> & Hbits).
  pose proof (slot_fits td Hfit i Hi) as Hslot.
  pose proof (header_fits td i Hi) as Hhead.
  assert (TD.compatible td t = true) as Hcompat.
  { unfold TD.serialize in Hser. by destruct (TD.compatible td t). }
  destruct (serialize_deserialize td t page (slot_base td i) Hcompat Hok)
    as (page1' & Hser' & Hlen1 & Hde & _); [unfold slot_base; lia|].
  unfold slot_base in Hser'. rewrite Hser in Hser'. injection Hser' as <-.
  assert (forall k : nat, (headerBytes td <= k)%nat ->
            set_bit page1 i !! k = page1 !! k) as Hset.
  { intros k Hk. unfold set_bit. rewrite slot_byte_div.
    apply list_lookup_insert_ne. lia. }
  split; [unfold set_bit; rewrite length_insert; lia|].
  exists i. split; [done|]. split; [|split; [|split]].
  - rewrite empty_msb, Hfree by done. apply orb_true_r.
  - intros j Hj. rewrite empty_msb, (Hbelow j Hj) by done.
    destruct (Nat.ltb_spec j (capacity td)); [done|lia].
  - unfold getTuple. destruct (Nat.leb_spec (capacity td) i); [lia|].
    rewrite occupied_msb, (Hbits i Hi), decide_True by done. cbn [negb].
    f_equal. rewrite <- Hde. apply deserialize_ext, read_at_ext.
    intros k Hk. apply Hset. unfold slot_base. lia.
  - intros j Hji. apply getTuple_ext.
    + intros Hj. rewrite (Hbits j Hj). by rewrite decide_False.
    + intros Hj k Hk. rewrite Hset by (unfold slot_base; lia).
      apply (serialize_outside td t (headerBytes td + i * TD.length td) page page1);
        [done | lia |]. fold (slot_base td i).
      destruct (Nat.lt_total i j) as [Hlt|[->|Hgt]]; [|done|].
      * right. pose proof (slot_bases i j Hlt). lia.
      * left. pose proof (slot_bases j i Hgt). lia.
Qed.

Lemma delete_spec (i : nat) :
  match deleteTuple td page i with
  | Ok page' =>
      (i < capacity td)%nat /\ empty td page i = false
      /\ length page' = DEFAULT_PAGE_SIZE
      /\ Mem.read_at (slot_base td i) (TD.length td) page' = replicate (TD.length td) 0
      /\ empty td page' i = true
      /\ getTuple td page' i = Throw logic_error
      /\ (forall j : nat, j <> i -> getTuple td page' j = getTuple td page j)
  | Throw e =>
      (e = out_of_range /\ (capacity td <= i)%nat)
      \/ (e = logic_error /\ (i < capacity td)%nat /\ empty td page i = true)
  end.
Proof.
  destruct (deleteTuple td page i) as [page'|e] eqn:E.
  - destruct (deleteTuple_msb td page Hfit Hpage i page' E) as (Hi & Hocc & Hbits).
    pose proof (slot_fits td Hfit i Hi) as Hslot.
    pose proof (header_fits td i Hi) as Hhead.
    revert E. unfold deleteTuple.
    destruct (Nat.leb_spec (capacity td) i); [lia|].
    rewrite occupied_msb, Hocc. cbn [negb]. intros [= <-].
    set (page1 := Mem.memset0 _ _ page) in *.
    assert (length page1 = DEFAULT_PAGE_SIZE) as Hlen1.
    { unfold page1, Mem.memset0. rewrite length_write_at; rewrite ?length_replicate; lia. }
    assert (forall k : nat, (headerBytes td <= k)%nat ->
              clear_bit page1 i !! k = page1 !! k) as Hclr.
    { intros k Hk. unfold clear_bit. rewrite slot_byte_div.
      apply list_lookup_insert_ne. lia. }
    split; [done|]. split; [|split; [|split; [|split; [|split]]]].
    + rewrite empty_msb, Hocc by done.
      destruct (Nat.ltb_spec i (capacity td)); [done|lia].
    + unfold clear_bit. rewrite length_insert. done.
    + pose proof (read_write_same (slot_base td i) (replicate (TD.length td) 0) page)
        as Hrw. rewrite length_replicate in Hrw.
      rewrite <- Hrw by (unfold slot_base; lia).
      apply read_at_ext. intros k Hk. apply Hclr. unfold slot_base. lia.
    + unfold empty. destruct (Nat.leb_spec (capacity td) i); [lia|].
      rewrite occupied_msb, (Hbits i Hi), decide_True by done. done.
    + unfold getTuple. destruct (Nat.leb_spec (capacity td) i); [lia|].
      rewrite occupied_msb, (Hbits i Hi), decide_True by done. done.
    + intros j Hji. apply getTuple_ext.
      * intros Hj. rewrite (Hbits j Hj). by rewrite decide_False.
      * intros Hj k Hk. rewrite Hclr by (unfold slot_base; lia).
        unfold page1, Mem.memset0.
        destruct (Nat.lt_total i j) as [Hlt|[->|Hgt]]; [|done|].
        -- pose proof (slot_bases i j Hlt).
           apply lookup_write_at_ge; rewrite ?length_replicate; unfold slot_base in *; lia.
        -- pose proof (slot_bases j i Hgt).
           apply lookup_write_at_lt; unfold slot_base in *; lia.
  - revert E. unfold deleteTuple.
    destruct (Nat.leb_spec (capacity td) i) as [Hge|Hlt].
    + intros [= <-]. by left.
    + destruct (occupied page i) eqn:Eo; cbn [negb]; [done|].
      intros [= <-]. right. repeat split; [done|].
      unfold empty. destruct (Nat.leb_spec (capacity td) i); [done|].
      by rewrite Eo.
Qed.

Lemma filter_none {A} (P : A -> Prop) `{!forall x, Decision (P x)} (l : list A) :
  (forall x, x ∈ l -> ~ P x) -> filter P l = [].
Proof.
  induction l as [|x l IH]; intros Hl; [done|].
  rewrite filter_cons_False by (apply Hl; left).
  apply IH. intros y Hy. apply Hl. by right.
Qed.

Lemma scan_slots (fuel s : nat) :
  (s <= capacity td)%nat ->
  ((s < capacity td)%nat -> msb_bit page s = true) ->
  (capacity td - s < fuel)%nat ->
  HeapScan.from td page s fuel
  = Some (filter (fun i => empty td page i = false) (seq s (capacity td - s))).
Proof.
  revert s. induction fuel as [|fuel IH]; intros s Hs Hocc Hfuel; [lia|].
  cbn [HeapScan.from]. unfold end_.
  destruct (Nat.eqb_spec s (capacity td)) as [->|Hne].
  { by rewrite Nat.sub_diag. }
  assert (s < capacity td)%nat as Hlt by lia.
  destruct (next_msb td page Hpage s Hlt) as (Hnext & Hnocc & Hgap).
  set (s' := next td page s) in *.
  rewrite (IH s') by (done || lia). f_equal.
  replace (capacity td - s)%nat with (S (s' - S s) + (capacity td - s'))%nat by lia.
  rewrite seq_app. cbn [seq]. rewrite filter_app, filter_cons_True.
  2:{ rewrite empty_msb, (Hocc Hlt) by done.
      destruct (Nat.ltb_spec s (capacity td)); [done|lia]. }
  rewrite (filter_none _ (seq (S s) (s' - S s))).
  - cbn [app]. do 3 f_equal. lia.
  - intros j Hj. apply elem_of_seq in Hj. rewrite empty_msb by done.
    rewrite (Hgap j) by lia. rewrite orb_true_r. done.
Qed.

Lemma slots_spec :
  HeapScan.slots td page (S (capacity td))
  = Some (filter (fun i => empty td page i = false) (seq 0 (capacity td))).
Proof.
  unfold HeapScan.slots.
  destruct (begin_msb td page Hpage) as (Hle & Hocc & Hbelow).
  rewrite scan_slots by (done || lia). f_equal.
  set (b := begin td page) in *.
  assert (seq 0 (capacity td) = seq 0 b ++ seq b (capacity td - b)) as ->
    by (rewrite <- (seq_app b _ 0); f_equal; lia).
  rewrite filter_app, (filter_none _ (seq 0 b)); [done|].
  intros j Hj. apply elem_of_seq in Hj. rewrite empty_msb by done.
  rewrite (Hbelow j) by lia. rewrite orb_true_r. done.
Qed.

End HeapPageSlots.

(** X6. A successful [HeapPage::insertTuple] puts the tuple into the first
    empty slot: [getTuple] of that slot then returns the tuple as stored,
    and [getTuple] of every other slot answers as before the insertion. *)
Theorem X6_heap_page_insert_get td page (t : Tuple) page' :
  8 * Z.of_nat (TD.length td) + 1 < 2 ^ 64 ->
  length page = DEFAULT_PAGE_SIZE ->
  tuple_ok t ->
  HeapPage.insertTuple td page t = Ok (page', true) ->
  length page' = DEFAULT_PAGE_SIZE
  /\ exists i : nat, (i < HeapPage.capacity td)%nat
       /\ HeapPage.empty td page i = true
       /\ (forall j : nat, (j < i)%nat -> HeapPage.empty td page j = false)
       /\ HeapPage.getTuple td page' i = Ok (stored t)
       /\ (forall j : nat, j <> i ->
             HeapPage.getTuple td page' j = HeapPage.getTuple td page j).
Proof. intros Hfit Hpage. by apply insert_get. Qed.

Lemma X6_heap_page_insert_get_witness :
  exists i : nat, HeapPage.getTuple leaf_td heap_page1 i = Ok (stored leaf_tuple).
Proof.
  destruct (X6_heap_page_insert_get leaf_td zero_page leaf_tuple heap_page1)
    as (_ & i & _ & _ & _ & Hget & _).
  - vm_compute. reflexivity.
  - reflexivity.
  - repeat constructor; simpl; lia.
  - vm_compute. reflexivity.
  - exists i. exact Hget.
Defined.

(** X7. [HeapPage::deleteTuple] throws [std::out_of_range] for a slot
    beyond the capacity and [std::logic_error] for an empty slot.
    Otherwise it fills the bytes of the slot with zeros and marks the slot
    empty, so that [getTuple] of it throws [std::logic_error], and
    [getTuple] of every other slot answers as before. *)
Theorem X7_heap_page_delete td page (i : nat) :
  8 * Z.of_nat (TD.length td) + 1 < 2 ^ 64 ->
  length page = DEFAULT_PAGE_SIZE ->
  match HeapPage.deleteTuple td page i with
  | Ok page' =>
      (i < HeapPage.capacity td)%nat /\ HeapPage.empty td page i = false
      /\ length page' = DEFAULT_PAGE_SIZE
      /\ Mem.read_at (HeapPage.headerBytes td + i * TD.length td) (TD.length td) page'
         = replicate (TD.length td) 0
      /\ HeapPage.empty td page' i = true
      /\ HeapPage.getTuple td page' i = Throw logic_error
      /\ (forall j : nat, j <> i ->
            HeapPage.getTuple td page' j = HeapPage.getTuple td page j)
  | Throw e =>
      (e = out_of_range /\ (HeapPage.capacity td <= i)%nat)
      \/ (e = logic_error /\ (i < HeapPage.capacity td)%nat
          /\ HeapPage.empty td page i = true)
  end.
Proof. intros Hfit Hpage. by apply delete_spec. Qed.

Lemma X7_heap_page_delete_witness :
  match HeapPage.deleteTuple leaf_td heap_page1 0 with
  | Ok page' => HeapPage.getTuple leaf_td page' 0 = Throw logic_error
  | Throw e => False
  end.
Proof.
  pose proof (X7_heap_page_delete leaf_td heap_page1 0) as H.
  destruct (HeapPage.deleteTuple leaf_td heap_page1 0) as [page'|e] eqn:E.
  - apply H; [vm_compute; reflexivity | reflexivity].
  - vm_compute in E. discriminate E.
Defined.

(** X8. The loop [for (s = begin(); s != end(); next(s))] over a heap page
    ends within [capacity + 1] steps and visits exactly the slots that are
    not empty, each once and in increasing order. *)
Theorem X8_heap_page_scan td page :
  length page = DEFAULT_PAGE_SIZE ->
  HeapScan.slots td page (S (HeapPage.capacity td))
  = Some (filter (fun i => HeapPage.empty td page i = false)
            (seq 0 (HeapPage.capacity td))).
Proof. apply slots_spec. Qed.

Lemma X8_heap_page_scan_witness :
  HeapScan.slots leaf_td heap_page1 (S (HeapPage.capacity leaf_td))
  = Some (filter (fun i => HeapPage.empty leaf_td heap_page1 i = false)
            (seq 0 (HeapPage.capacity leaf_td))).
Proof.
  apply (X8_heap_page_scan leaf_td heap_page1). reflexivity.
Defined.

(** ** DbFile.cpp: pages of a file *)

Section FilePages.

Import File.

Abbreviation P := DEFAULT_PAGE_SIZE.

Lemma length_pread_page f id : length (pread_page f id) = P.
Proof.
  unfold pread_page, Mem.read_at. cbn zeta.
  rewrite length_app, length_replicate, length_take. lia.
Qed.

Lemma lookup_pread_page f id (i : nat) :
  (i < P)%nat ->
  pread_page f id !! i = Some (default 0 (bytes f !! (id * P + i)%nat)).
Proof.
  intros Hi. unfold pread_page. cbn zeta.
  set (got := Mem.read_at _ _ _).
  assert (length got = (P `min` (length (bytes f) - id * P))%nat) as Hgot
    by (unfold got, Mem.read_at; by rewrite length_take, length_drop).
  destruct (Nat.lt_ge_cases i (length got)) as [Hlt|Hge].
  - rewrite lookup_app_l by done. unfold got.
    rewrite lookup_read_at by done.
    destruct (lookup_lt_is_Some_2 (bytes f) (id * P + i)) as [b Hb]; [lia|].
    by rewrite Hb.
  - rewrite lookup_app_r by done.
    rewrite lookup_replicate_2 by lia.
    rewrite (lookup_ge_None_2 (bytes f)) by lia. done.
Qed.

Lemma lookup_pwrite_page f pg id (k : nat) :
  default 0 (pwrite_page f pg id !! k)
  = if decide (id * P <= k < id * P + length pg)%nat
    then default 0 (pg !! (k - id * P)%nat)
    else default 0 (bytes f !! k).
Proof.
  unfold pwrite_page. cbn zeta.
  set (grown := bytes f ++ replicate _ 0).
  assert (id * P + length pg <= length grown)%nat as Hgrown
    by (unfold grown; rewrite length_app, length_replicate; lia).
  assert (forall j : nat, default 0 (grown !! j) = default 0 (bytes f !! j)) as Hg.
  { intros j. unfold grown.
    destruct (Nat.lt_ge_cases j (length (bytes f))) as [Hlt|Hge].
    - by rewrite lookup_app_l.
    - rewrite lookup_app_r, (lookup_ge_None_2 (bytes f)) by done.
      destruct (replicate _ _ !! _) as [b|] eqn:E; [|done].
      by apply lookup_replicate in E as [-> _]. }
  destruct (decide _) as [Hin|Hout].
  - by rewrite lookup_write_at_in by lia.
  - destruct (Nat.lt_ge_cases k (id * P)) as [Hlt|Hge].
    + by rewrite lookup_write_at_lt by lia.
    + by rewrite lookup_write_at_ge by lia.
Qed.

Lemma write_read_same f pg id :
  length pg = P -> pread_page (writePage f pg id) id = pg.
Proof.
  intros Hpg. apply list_eq_same_length with P; [done | apply length_pread_page |].
  intros i x y Hi Hx Hy. rewrite lookup_pread_page in Hx by done.
  injection Hx as <-. cbn [writePage bytes].
  rewrite lookup_pwrite_page, decide_True by lia.
  replace (id * P + i - id * P)%nat with i by lia. by rewrite Hy.
Qed.

Lemma write_read_other f pg id id' :
  length pg = P -> id' <> id ->
  pread_page (writePage f pg id) id' = pread_page f id'.
Proof.
  intros Hpg Hne.
  apply list_eq_same_length with P; [apply length_pread_page .. |].
  intros i x y Hi Hx Hy. rewrite lookup_pread_page in Hx, Hy by done.
  injection Hx as <-. injection Hy as <-. cbn [writePage bytes].
  rewrite lookup_pwrite_page, decide_False; [done|]. nia.
Qed.


End FilePages.





(** ** BufferPool.cpp: what the readers of a page see *)

Lemma pid_eq (p q : PageId) : file p = file q -> page p = page q -> p = q.
Proof. destruct p, q. cbn. by intros -> ->. Qed.

Section PoolViews.

Variables (n : nat) (D : gset string).

Lemma coherent_page_length db pos :
  pool_coherent db -> length (BP.page_at (bufferPool db) pos) = DEFAULT_PAGE_SIZE.
Proof.
  intros Hco. unfold BP.page_at.
  destruct (pages (bufferPool db) !! pos) as [pg|] eqn:E.
  - exact (proj1 (Forall_lookup _ _) (co_pages _ Hco) _ _ E).
  - apply length_replicate.
Qed.

Lemma init_coherent fs : pool_coherent (mkDatabase fs (BP.init n)).
Proof.
  split.
  - cbn [bufferPool BP.init pages]. apply Forall_replicate, length_replicate.
  - intros pid pos f H. cbn [bufferPool BP.init pid_to_pos] in H.
    by rewrite lookup_empty in H.
Qed.

Lemma flushed_files db pid pos nm f' :
  pool_wf n D db -> pool_coherent db ->
  pid_to_pos (bufferPool db) !! pid = Some pos ->
  files (flushed db pid pos) !! nm = Some f' ->
  exists f, files db !! nm = Some f
    /\ (forall id, mkPageId nm id <> pid -> File.pread_page f' id = File.pread_page f id)
    /\ (file pid = nm -> pos ∈ dirty (bufferPool db) ->
        File.pread_page f' (page pid) = BP.page_at (bufferPool db) pos).
Proof.
  intros Hwf Hco E. unfold flushed, PoolSpec.written_back. pool_simpl.
  case_bool_decide as Hd.
  - destruct (files db !! file pid) as [f|] eqn:Ef.
    + destruct (decide (nm = file pid)) as [->|Hne].
      * rewrite lookup_insert_eq. intros [= <-]. exists f. split; [done|].
        pose proof (coherent_page_length db pos Hco) as Hlen. split.
        -- intros id Hid. apply write_read_other; [done|].
           intros ->. apply Hid. by destruct pid.
        -- intros _ _. by apply write_read_same.
      * rewrite lookup_insert_ne by done. intros Hf. exists f'.
        split; [done|]. split; [done|]. intros Heq. by destruct Hne.
    + intros Hf. exists f'. split; [done|]. split; [done|].
      intros <- _. congruence.
  - intros Hf. exists f'. split; [done|]. split; [done|]. done.
Qed.

Lemma flushed_view db pid pos :
  pool_wf n D db -> pool_coherent db ->
  pid_to_pos (bufferPool db) !! pid = Some pos ->
  pool_coherent (flushed db pid pos)
  /\ (forall pid', page_view (flushed db pid pos) pid' = page_view db pid').
Proof.
  intros Hwf Hco E. split; [split|].
  - exact (co_pages _ Hco).
  - intros pid' pos' f' E' Hd' Hf'.
    destruct (flushed_files db pid pos _ f' Hwf Hco E Hf') as (f & Hf & Hother & Hsame).
    change (pid_to_pos (bufferPool db) !! pid' = Some pos') in E'.
    change (pos' ∉ dirty (bufferPool db) ∖ {[pos]}) in Hd'.
    change (BP.page_at (bufferPool db) pos' = File.pread_page f' (page pid')).
    destruct (decide (pid' = pid)) as [->|Hne].
    + assert (pos' = pos) as -> by congruence.
      destruct (decide (pos ∈ dirty (bufferPool db))) as [Hd|Hd].
      * symmetry. by apply Hsame.
      * revert Hf'. unfold flushed, PoolSpec.written_back. pool_simpl.
        rewrite bool_decide_eq_false_2 by done. intros Hf'.
        by apply (co_clean _ Hco pid pos f').
    + rewrite Hother by (intros Heq; apply Hne; by destruct pid').
      apply (co_clean _ Hco pid' pos' f); [done| |done].
      intros Hin. apply Hd'. apply elem_of_difference. split; [done|].
      intros ->%elem_of_singleton. apply Hne. by eapply wf_inj.
  - intros pid'. unfold page_view.
    change (pid_to_pos (bufferPool (flushed db pid pos))) with (pid_to_pos (bufferPool db)).
    change (BP.page_at (bufferPool (flushed db pid pos))) with (BP.page_at (bufferPool db)).
    destruct (pid_to_pos (bufferPool db) !! pid') as [pos'|] eqn:E'; [done|].
    destruct (files (flushed db pid pos) !! file pid') as [f'|] eqn:Ef'.
    + destruct (flushed_files db pid pos _ f' Hwf Hco E Ef') as (f & -> & Hother & _).
      apply Hother. intros Heq. destruct pid'. cbn in Heq. congruence.
    + revert Ef'. unfold flushed, PoolSpec.written_back. pool_simpl.
      case_bool_decide; [|by intros ->].
      destruct (files db !! file pid) as [f|] eqn:Ef; [|by intros ->].
      intros Ef'. apply lookup_insert_None in Ef' as [-> _]. done.
Qed.

Lemma same_content_refl db : same_content db db.
Proof. by split. Qed.

Lemma same_content_trans db1 db2 db3 :
  same_content db1 db2 -> same_content db2 db3 -> same_content db1 db3.
Proof.
  intros [Hv1 Hm1] [Hv2 Hm2]. split; [|congruence].
  intros pid. by rewrite Hv2, Hv1.
Qed.

Lemma meta_insert (fs : gmap string DbFile) nm f f' :
  fs !! nm = Some f -> file_meta f' = file_meta f ->
  file_meta <$> <[nm := f']> fs = file_meta <$> fs.
Proof.
  intros Hf Hm. rewrite fmap_insert, Hm. apply insert_id.
  by rewrite lookup_fmap, Hf.
Qed.

Lemma written_back_meta fs bp pid pos :
  file_meta <$> PoolSpec.written_back fs bp pid pos = file_meta <$> fs.
Proof.
  unfold PoolSpec.written_back. case_bool_decide; [|done].
  destruct (fs !! file pid) as [f|] eqn:Ef; [|done].
  by apply (meta_insert fs _ f).
Qed.

Lemma read_from_meta fs pid :
  file_meta <$> (PoolSpec.read_from fs pid).1 = file_meta <$> fs.
Proof.
  unfold PoolSpec.read_from. destruct (fs !! file pid) as [f|] eqn:Ef; [|done].
  by apply (meta_insert fs _ f).
Qed.

Lemma flushPage_view db pid :
  pool_wf n D db -> pool_coherent db ->
  pool_coherent (BP.flushPage pid db).1
  /\ same_content db (BP.flushPage pid db).1
  /\ (forall pos, pid_to_pos (bufferPool (BP.flushPage pid db).1) !! pid = Some pos ->
        pos ∉ dirty (bufferPool (BP.flushPage pid db).1)).
Proof.
  intros Hwf Hco.
  destruct (pid_to_pos (bufferPool db) !! pid) as [pos|] eqn:E.
  - rewrite (flushPage_eval n D db pid pos Hwf E). fold (flushed db pid pos).
    cbn [fst]. destruct (flushed_view db pid pos Hwf Hco E) as [Hco' Hv].
    split; [done|]. split; [split; [done|apply written_back_meta]|].
    intros pos'. unfold flushed. pool_simpl. rewrite E. intros [= <-].
    set_solver.
  - assert (BP.flushPage pid db = (db, Ok tt)) as ->
      by (unfold BP.flushPage, bind, get_pool; by rewrite E).
    cbn [fst]. split; [done|]. split; [apply same_content_refl|].
    intros pos. by rewrite E.
Qed.

Lemma discardPage_view db pid :
  pool_wf n D db -> pool_coherent db ->
  pool_coherent (BP.discardPage pid db).1
  /\ file_meta <$> files (BP.discardPage pid db).1 = file_meta <$> files db
  /\ (forall pid',
        (pid' = pid -> forall pos, pid_to_pos (bufferPool db) !! pid = Some pos ->
                       pos ∉ dirty (bufferPool db)) ->
        page_view (BP.discardPage pid db).1 pid' = page_view db pid').
Proof.
  intros Hwf Hco.
  destruct (pid_to_pos (bufferPool db) !! pid) as [pos|] eqn:E.
  - rewrite (discardPage_eval n D db pid pos Hwf E). cbn [fst].
    split; [split|split; [done|]].
    + exact (co_pages _ Hco).
    + intros pid' pos' f'. unfold PoolSpec.dissociated. pool_simpl.
      intros E' Hd' Hf'. apply lookup_delete_Some in E' as [Hne E'].
      apply (co_clean _ Hco pid' pos' f'); [done| |done].
      intros Hin. apply Hd'. apply elem_of_difference. split; [done|].
      intros ->%elem_of_singleton. apply Hne. by eapply wf_inj.
    + intros pid' Hclean. unfold page_view, PoolSpec.dissociated. pool_simpl.
      destruct (decide (pid' = pid)) as [->|Hne].
      * rewrite lookup_delete_eq, E.
        destruct (wf_resident n D _ _ _ Hwf E) as (_ & _ & _ & HD & _).
        destruct (wf_file_lookup n D _ _ Hwf HD) as [f Hf]. rewrite Hf.
        symmetry. apply (co_clean _ Hco pid pos f); [done| |done].
        by apply Hclean.
      * by rewrite lookup_delete_ne.
  - assert (BP.discardPage pid db = (db, Ok tt)) as ->
      by (unfold BP.discardPage, bind, get_pool; by rewrite E).
    done.
Qed.

Lemma markDirty_view db pid :
  pool_coherent db ->
  pool_coherent (BP.markDirty pid db).1 /\ same_content db (BP.markDirty pid db).1.
Proof.
  intros Hco. unfold BP.markDirty, bind, get_pool, put_pool, ret.
  destruct (pid_to_pos (bufferPool db) !! pid) as [pos|] eqn:E;
    [|split; [done|apply same_content_refl]].
  cbn [fst]. split; [split|by split].
  - exact (co_pages _ Hco).
  - intros pid' pos' f'. pool_simpl. intros E' Hd' Hf'.
    apply (co_clean _ Hco pid' pos' f'); [done|set_solver|done].
Qed.

Lemma isDirty_clean db pid :
  exists b, BP.isDirty pid db = (db, Ok b)
    /\ (b = false -> forall pos, pid_to_pos (bufferPool db) !! pid = Some pos ->
                     pos ∉ dirty (bufferPool db)).
Proof.
  unfold BP.isDirty, bind, get_pool, ret.
  destruct (pid_to_pos (bufferPool db) !! pid) as [pos|] eqn:E.
  - eexists. split; [done|]. intros Hb pos' [= <-].
    by apply bool_decide_eq_false_1 in Hb.
  - exists false. split; [done|]. by intros _ pos'.
Qed.

Lemma evict_view db :
  pool_wf n D db -> pool_coherent db ->
  pool_coherent (BP.evict db).1 /\ same_content db (BP.evict db).1.
Proof.
  intros Hwf Hco.
  destruct (BP.evict db) as [db1 r] eqn:Hev. cbn [fst]. revert Hev.
  unfold BP.evict. unfold bind at 1. unfold get_pool at 1.
  pose proof (same_content_refl db) as Hrefl.
  destruct (available (bufferPool db)); [|by intros [= <- _]].
  destruct (last (lru_list (bufferPool db))) as [victim|]; [|by intros [= <- _]].
  case_bool_decide; [by intros [= <- _]|].
  set (old_pid := BP.pid_at (bufferPool db) victim).
  unfold bind at 1. destruct (isDirty_clean db old_pid) as (b & -> & Hb).
  unfold bind, when. destruct b.
  - destruct (flushPage_wf n D db old_pid Hwf) as (Hok & Hwf1 & _).
    destruct (flushPage_view db old_pid Hwf Hco) as (Hco1 & Hs1 & Hclean).
    destruct (BP.flushPage old_pid db) as [db2 [[]|e]]; [|done].
    cbn [fst] in *.
    destruct (discardPage_view db2 old_pid Hwf1 Hco1) as (Hco2 & Hm2 & Hv2).
    intros Hd. rewrite Hd in Hco2, Hm2, Hv2. cbn [fst] in *.
    split; [done|]. apply (same_content_trans db db2 db1); [done|].
    split; [|done]. intros pid'. apply Hv2. intros _. apply Hclean.
  - unfold ret. destruct (discardPage_view db old_pid Hwf Hco) as (Hco2 & Hm2 & Hv2).
    intros Hd. rewrite Hd in Hco2, Hm2, Hv2. cbn [fst] in *.
    split; [done|]. split; [|done]. intros pid'. apply Hv2. intros _. by apply Hb.
Qed.

Lemma pread_after_read f id id' :
  File.pread_page (File.readPage f id).1 id' = File.pread_page f id'.
Proof. unfold File.pread_page, File.readPage. cbn [fst bytes]. reflexivity. Qed.


Lemma getPage_view db pid :
  pool_wf n D db -> pool_coherent db ->
  pool_coherent (BP.getPage pid db).1
  /\ same_content db (BP.getPage pid db).1
  /\ (forall pos, (BP.getPage pid db).2 = Ok pos ->
        pid_to_pos (bufferPool (BP.getPage pid db).1) !! pid = Some pos).
Proof.
  intros Hwf Hco.
  destruct (pid_to_pos (bufferPool db) !! pid) as [pos|] eqn:E.
  { rewrite (getPage_hit_eval n D _ _ _ Hwf E). pool_simpl.
    split; [split|split; [by split|]].
    - exact (co_pages _ Hco).
    - exact (co_clean _ Hco).
    - by intros pos' [= <-]. }
  destruct (evict_wf n D db Hwf) as [Hwf1 _].
  destruct (evict_view db Hwf Hco) as [Hco1 Hs1].
  pose proof (evict_miss db pid E) as E1.
  destruct (BP.getPage pid db) as [db' r] eqn:Hg. cbn [fst snd]. revert Hg.
  unfold BP.getPage. unfold bind at 1. unfold get_pool at 1. rewrite E.
  unfold bind at 1. destruct (BP.evict db) as [db1 [[]|e]] eqn:Hev;
    [|by intros [= <- <-]].
  pool_simpl.
  unfold bind at 1. unfold get_pool at 1.
  destruct (available (bufferPool db1)) as [|pos rest] eqn:Hav;
    [by intros [= <- <-]|].
  unfold bind at 1. unfold put_pool at 1. unfold bind at 1.
  assert (pos ∈ available (bufferPool db1)) as Hfree by (rewrite Hav; left).
  assert (pos < length (pages (bufferPool db1)))%nat as Hpos.
  { rewrite (wf_pages _ _ _ Hwf1). apply (wf_frames _ _ _ Hwf1). by left. }
  assert (forall pid' pos', pid_to_pos (bufferPool db1) !! pid' = Some pos' ->
            pos' <> pos) as Hother.
  { intros pid' pos' E' ->.
    destruct (wf_resident n D _ _ _ Hwf1 E') as (_ & Hn & _). done. }
  destruct (files db1 !! file pid) as [f|] eqn:Hf.
  - rewrite readPage_eval by (pool_simpl; eauto).
    unfold bind, get_pool, put_pool, ret. pool_simpl. intros [= <- <-].
    unfold PoolSpec.read_from. pool_simpl. rewrite Hf. pool_simpl.
    set (pg := File.pread_page f (page pid)).
    assert (forall nm f', <[file pid := (File.readPage f (page pid)).1]> (files db1) !! nm
                          = Some f' ->
              exists f0, files db1 !! nm = Some f0
                /\ forall id, File.pread_page f' id = File.pread_page f0 id) as Hfiles.
    { intros nm f'. destruct (decide (nm = file pid)) as [->|Hne].
      - rewrite lookup_insert_eq. intros [= <-]. exists f. split; [exact Hf|].
        intros id. apply pread_after_read.
      - rewrite lookup_insert_ne by done. intros Hf'. exists f'.
        split; [exact Hf'|]. reflexivity. }
    split; [split|split; [|intros pos' [= <-]; apply lookup_insert_eq]].
    + pool_simpl. apply Forall_insert; [exact (co_pages _ Hco1)|].
      apply length_pread_page.
    + intros pid' pos' f'. pool_simpl. unfold BP.page_at. pool_simpl.
      intros E' Hd' Hf'. destruct (Hfiles _ _ Hf') as (f0 & Hf0 & Hrd).
      rewrite Hrd. destruct (decide (pid' = pid)) as [->|Hne].
      * rewrite lookup_insert_eq in E'. injection E' as <-.
        rewrite list_lookup_insert_eq by done. cbn.
        assert (f0 = f) as -> by congruence. done.
      * rewrite lookup_insert_ne in E' by done.
        rewrite list_lookup_insert_ne by (apply not_eq_sym; by eapply Hother).
        by apply (co_clean _ Hco1 pid' pos' f0).
    + apply (same_content_trans db db1); [done|]. split.
      2:{ cbn [files]. by apply (meta_insert (files db1) _ f). }
      intros pid'. unfold page_view, BP.page_at. pool_simpl.
      destruct (decide (pid' = pid)) as [->|Hne].
      * rewrite lookup_insert_eq, E1, Hf, list_lookup_insert_eq by done. done.
      * rewrite lookup_insert_ne by done.
        destruct (pid_to_pos (bufferPool db1) !! pid') as [pos'|] eqn:E'.
        -- by rewrite list_lookup_insert_ne by (apply not_eq_sym; by eapply Hother).
        -- destruct (<[_ := _]> (files db1) !! file pid') as [f'|] eqn:Ef'.
           ++ destruct (Hfiles _ _ Ef') as (f0 & -> & Hrd). apply Hrd.
           ++ apply lookup_insert_None in Ef' as [-> _]. done.
  - unfold Db.readPage, Db.get, bind. pool_simpl. rewrite Hf. intros [= <- <-].
    split; [split|split; [|done]].
    + exact (co_pages _ Hco1).
    + exact (co_clean _ Hco1).
    + apply (same_content_trans db db1); [done|]. by split.
Qed.



Lemma wf_dirty_pid db pos :
  pool_wf n D db -> pos ∈ dirty (bufferPool db) ->
  pid_to_pos (bufferPool db) !! BP.pid_at (bufferPool db) pos = Some pos.
Proof.
  intros Hwf Hd. apply (wf_dirty _ _ _ Hwf) in Hd.
  apply (wf_lru_keys _ _ _ Hwf) in Hd as [pid E].
  destruct (wf_resident n D _ _ _ Hwf E) as (_ & _ & _ & _ & ->). done.
Qed.

(** [flushPage] changes the pool in its set of dirty frames only, which
    loses the frame of the page. *)
Lemma flushPage_pool db pid :
  pool_wf n D db ->
  let bp := bufferPool db in
  let bp' := bufferPool (BP.flushPage pid db).1 in
  pages bp' = pages bp /\ pid_to_pos bp' = pid_to_pos bp
  /\ pos_to_pid bp' = pos_to_pid bp /\ lru_list bp' = lru_list bp
  /\ available bp' = available bp
  /\ (forall pos, pos ∈ dirty bp' <-> pos ∈ dirty bp /\ BP.pid_at bp pos <> pid).
Proof.
  intros Hwf bp bp'. subst bp bp'.
  destruct (pid_to_pos (bufferPool db) !! pid) as [pos|] eqn:E.
  - rewrite (flushPage_eval n D db pid pos Hwf E). pool_simpl.
    do 5 (split; [done|]). intros pos'. rewrite elem_of_difference, elem_of_singleton.
    split; intros [Hin Hne]; (split; [done|]).
    + intros Heq. apply Hne.
      pose proof (wf_dirty_pid db pos' Hwf Hin) as E'. rewrite Heq in E'. congruence.
    + intros ->. apply Hne.
      by destruct (wf_resident n D _ _ _ Hwf E) as (_ & _ & _ & _ & ->).
  - assert (BP.flushPage pid db = (db, Ok tt)) as ->
      by (unfold BP.flushPage, bind, get_pool; by rewrite E).
    cbn [fst]. do 5 (split; [done|]). intros pos'. split; [|by intros [? _]].
    intros Hin. split; [done|]. intros Heq.
    pose proof (wf_dirty_pid db pos' Hwf Hin) as E'. rewrite Heq in E'. congruence.
Qed.

Lemma flush_all_view db pids :
  pool_wf n D db -> pool_coherent db ->
  let bp := bufferPool db in
  let bp' := bufferPool (BP.flush_all pids db).1 in
  pool_coherent (BP.flush_all pids db).1
  /\ same_content db (BP.flush_all pids db).1
  /\ pages bp' = pages bp /\ pid_to_pos bp' = pid_to_pos bp
  /\ pos_to_pid bp' = pos_to_pid bp /\ lru_list bp' = lru_list bp
  /\ available bp' = available bp
  /\ (forall pos, pos ∈ dirty bp' <-> pos ∈ dirty bp /\ BP.pid_at bp pos ∉ pids).
Proof.
  revert db. induction pids as [|pid r IH]; intros db Hwf Hco.
  { cbn [BP.flush_all ret fst]. split; [done|]. split; [apply same_content_refl|].
    do 5 (split; [done|]). intros pos. split; [|by intros [? _]].
    intros Hin. split; [done|]. apply not_elem_of_nil. }
  cbn [BP.flush_all]. unfold bind.
  destruct (flushPage_wf n D db pid Hwf) as (Hok & Hwf1 & _).
  destruct (flushPage_view db pid Hwf Hco) as (Hco1 & Hs1 & _).
  destruct (flushPage_pool db pid Hwf) as (Hp1 & Hm1 & Hr1 & Hl1 & Ha1 & Hd1).
  destruct (BP.flushPage pid db) as [db1 [[]|e]]; [|done]. cbn [fst] in *.
  destruct (IH db1 Hwf1 Hco1) as (Hco2 & Hs2 & Hp2 & Hm2 & Hr2 & Hl2 & Ha2 & Hd2).
  split; [done|]. split; [by eapply same_content_trans|].
  split; [congruence|]. split; [congruence|]. split; [congruence|].
  split; [congruence|]. split; [congruence|].
  intros pos. rewrite Hd2, Hd1. unfold BP.pid_at. rewrite Hr1.
  rewrite not_elem_of_cons. tauto.
Qed.

(** A file holds, for each of its pages that is not dirty in the pool,
    the bytes the readers of the page see. *)
Lemma clean_on_disk db pid f :
  pool_coherent db -> files db !! file pid = Some f ->
  (forall pos, pid_to_pos (bufferPool db) !! pid = Some pos ->
     pos ∉ dirty (bufferPool db)) ->
  File.pread_page f (page pid) = page_view db pid.
Proof.
  intros Hco Hf Hclean. unfold page_view.
  destruct (pid_to_pos (bufferPool db) !! pid) as [pos|] eqn:E.
  - symmetry. apply (co_clean _ Hco pid pos f); [done| |done]. by apply Hclean.
  - by rewrite Hf.
Qed.

Lemma flushFile_view db nm :
  pool_wf n D db -> pool_coherent db ->
  let bp := bufferPool db in
  let db' := (BP.flushFile nm db).1 in
  (BP.flushFile nm db).2 = Ok tt
  /\ pool_coherent db' /\ same_content db db'
  /\ pages (bufferPool db') = pages bp /\ pid_to_pos (bufferPool db') = pid_to_pos bp
  /\ lru_list (bufferPool db') = lru_list bp
  /\ available (bufferPool db') = available bp
  /\ (forall pos, pos ∈ dirty (bufferPool db')
        <-> pos ∈ dirty bp /\ file (BP.pid_at bp pos) <> nm)
  /\ (forall id f', files db' !! nm = Some f' ->
        File.pread_page f' id = page_view db (mkPageId nm id)).
Proof.
  intros Hwf Hco bp db'. subst bp db'.
  destruct (flushFile_wf n D db nm Hwf) as (Hok & Hwf' & _).
  split; [done|]. revert Hwf'. unfold BP.flushFile, bind, get_pool.
  set (pids := filter _ _). intros Hwf'.
  destruct (flush_all_view db pids Hwf Hco)
    as (Hco' & Hs & Hp & Hm & Hr & Hl & Ha & Hd).
  assert (forall pos, pos ∈ dirty (bufferPool (BP.flush_all pids db).1)
            <-> pos ∈ dirty (bufferPool db)
                /\ file (BP.pid_at (bufferPool db) pos) <> nm) as Hd'.
  { intros pos. rewrite Hd. unfold pids. rewrite list_elem_of_filter.
    split; intros [Hin Hx]; (split; [done|]).
    - intros Heq. apply Hx. split; [done|].
      apply list_elem_of_fmap. exists pos. split; [done|]. by apply elem_of_elements.
    - intros [Heq _]. done. }
  do 6 (split; [done|]). split; [exact Hd'|].
  intros id f' Hf'. destruct Hs as [Hv _]. rewrite <- Hv.
  apply (clean_on_disk _ (mkPageId nm id) f'); [done|done|].
  intros pos E Hin. apply Hd' in Hin as [Hin Hne]. apply Hne.
  rewrite Hm in E.
  by destruct (wf_resident n D _ _ _ Hwf E) as (_ & _ & _ & _ & ->).
Qed.


Lemma run_op_coherent db o :
  pool_wf n D db -> pool_coherent db -> pool_coherent (run_op o db).1.
Proof.
  intros Hwf Hco. destruct o as [pid|pid|pid|pid|nm]; cbn [run_op].
  - destruct (getPage_view db pid Hwf Hco) as (Hco' & _).
    unfold bind. by destruct (BP.getPage pid db) as [db' [pos|e]].
  - by apply markDirty_view.
  - by apply discardPage_view.
  - by apply flushPage_view.
  - by apply flushFile_view.
Qed.

Lemma run_ops_coherent ops db :
  pool_wf n D db -> pool_coherent db -> pool_coherent (run_ops ops db).
Proof.
  revert db. induction ops as [|o r IH]; intros db Hwf Hco; [done|].
  cbn [run_ops]. apply IH; [by apply run_op_wf | by apply run_op_coherent].
Qed.

End PoolViews.

Lemma full_db_coherent : pool_coherent full_db.
Proof.
  apply (run_ops_coherent 3 (dom sample_files)); [apply init_wf | apply init_coherent].
Qed.







(** X14. [discardPage] drops the cached copy of a page without writing
    it: the files are untouched, the page is no longer cached or dirty, and
    its readers see the bytes of the file again, so that the change made to a
    dirty page is lost; every other page reads as before. *)
Theorem X14_discardPage n D db pid :
  pool_wf n D db -> pool_coherent db ->
  let r := BP.discardPage pid db in
  r.2 = Ok tt
  /\ files r.1 = files db
  /\ pool_coherent r.1
  /\ (BP.contains pid r.1).2 = Ok false
  /\ (BP.isDirty pid r.1).2 = Ok false
  /\ page_view r.1 pid
     = match files db !! file pid with
       | Some f => File.pread_page f (page pid)
       | None => zero_page
       end
  /\ (forall pid', pid' <> pid -> page_view r.1 pid' = page_view db pid').
Proof.
  intros Hwf Hco r. subst r.
  destruct (discardPage_wf n D db pid Hwf) as (Hok & _).
  destruct (discardPage_view n D db pid Hwf Hco) as (Hco' & _ & Hv).
  assert (files (BP.discardPage pid db).1 = files db
          /\ pid_to_pos (bufferPool (BP.discardPage pid db).1) !! pid = None)
    as [Hf Hmiss].
  { destruct (pid_to_pos (bufferPool db) !! pid) as [pos|] eqn:E.
    - rewrite (discardPage_eval n D db pid pos Hwf E).
      unfold PoolSpec.dissociated. pool_simpl. split; [done|apply lookup_delete_eq].
    - assert (BP.discardPage pid db = (db, Ok tt)) as ->
        by (unfold BP.discardPage, bind, get_pool; by rewrite E).
      done. }
  split; [done|]. split; [done|]. split; [done|].
  split; [|split; [|split]].
  - unfold BP.contains, bind, get_pool, ret. cbn [snd]. rewrite Hmiss.
    rewrite bool_decide_eq_false_2; [done|]. by intros [? ?].
  - unfold BP.isDirty, bind, get_pool. by rewrite Hmiss.
  - unfold page_view. by rewrite Hmiss, Hf.
  - intros pid' Hne. apply Hv. done.
Qed.

Lemma X14_discardPage_witness :
  let r := BP.discardPage (mkPageId "emp" 0) full_db in
  r.2 = Ok tt /\ files r.1 = files full_db /\ (BP.contains (mkPageId "emp" 0) r.1).2 = Ok false.
Proof.
  intros r.
  destruct (X14_discardPage 3 (dom sample_files) full_db (mkPageId "emp" 0))
    as (Hok & Hf & _ & Hc & _).
  - exact full_db_wf.
  - exact full_db_coherent.
  - split; [exact Hok|]. split; [exact Hf | exact Hc].
Defined.



(** X16. [markDirty] changes nothing but the set of dirty frames, and
    never throws.  In a reachable state, [isDirty] afterwards answers for
    the page marked whether it is cached, and for every other page what it
    answered before. *)
Theorem X16_markDirty n D db pid :
  pool_wf n D db ->
  let r := BP.markDirty pid db in
  r.2 = Ok tt
  /\ files r.1 = files db
  /\ pages (bufferPool r.1) = pages (bufferPool db)
  /\ pid_to_pos (bufferPool r.1) = pid_to_pos (bufferPool db)
  /\ lru_list (bufferPool r.1) = lru_list (bufferPool db)
  /\ available (bufferPool r.1) = available (bufferPool db)
  /\ (BP.isDirty pid r.1).2 = (BP.contains pid db).2
  /\ (forall pid', pid' <> pid -> (BP.isDirty pid' r.1).2 = (BP.isDirty pid' db).2).
Proof.
  intros Hwf r. subst r.
  unfold BP.markDirty, BP.isDirty, BP.contains, bind, get_pool, put_pool, ret.
  destruct (pid_to_pos (bufferPool db) !! pid) as [pos|] eqn:E; pool_simpl.
  - rewrite E. do 6 (split; [done|]). split.
    + cbn [snd]. rewrite !bool_decide_eq_true_2; [done|eauto|set_solver].
    + intros pid' Hne.
      destruct (pid_to_pos (bufferPool db) !! pid') as [pos'|] eqn:E'; [|done].
      cbn [snd]. f_equal. apply bool_decide_ext.
      assert (pos' <> pos) by (intros ->; apply Hne; by eapply wf_inj).
      set_solver.
  - rewrite E. do 6 (split; [done|]). split; [|done].
    cbn [snd]. rewrite bool_decide_eq_false_2; [done|]. by intros [? ?].
Qed.

Lemma X16_markDirty_witness :
  (BP.isDirty (mkPageId "emp" 1) (BP.markDirty (mkPageId "emp" 1) full_db).1).2
  = (BP.contains (mkPageId "emp" 1) full_db).2.
Proof.
  destruct (X16_markDirty 3 (dom sample_files) full_db (mkPageId "emp" 1))
    as (_ & _ & _ & _ & _ & _ & H & _).
  - exact full_db_wf.
  - exact H.
Defined.




(** ** HeapFile.cpp: tuples through the pool *)

Section HeapFileViews.

Variables (n : nat) (D : gset string).



Lemma same_content_sym db db' : same_content db db' -> same_content db' db.
Proof. intros [Hv Hm]. split; [intros pid; by rewrite Hv | done]. Qed.






























End HeapFileViews.





















(** ** Database.cpp: the registry of files *)

Lemma flushFile_unregistered fs bp nm :
  (forall pos, pos ∈ dirty bp -> pid_to_pos bp !! BP.pid_at bp pos = Some pos) ->
  fs !! nm = None ->
  ((forall pos, pos ∈ dirty bp -> file (BP.pid_at bp pos) <> nm) ->
   BP.flushFile nm (mkDatabase fs bp) = (mkDatabase fs bp, Ok tt))
  /\ ((exists pos, pos ∈ dirty bp /\ file (BP.pid_at bp pos) = nm) ->
      exists pos, pos ∈ dirty bp /\ file (BP.pid_at bp pos) = nm
        /\ BP.flushFile nm (mkDatabase fs bp)
           = (mkDatabase fs
                (mkBufferPool (pages bp) (pid_to_pos bp) (pos_to_pid bp)
                   (pos_to_lru bp) (lru_list bp) (dirty bp ∖ {[pos]}) (available bp)),
              Throw out_of_range)).
Proof.
  intros Hdirty Hnone. unfold BP.flushFile, bind, get_pool. pool_simpl.
  set (pids := filter _ _).
  assert (forall pid, pid ∈ pids <->
            exists pos, pos ∈ dirty bp /\ pid = BP.pid_at bp pos /\ file pid = nm) as Hpids.
  { intros pid. unfold pids. rewrite list_elem_of_filter, list_elem_of_fmap.
    setoid_rewrite elem_of_elements. naive_solver. }
  split.
  - intros Hclean. assert (pids = []) as ->; [|done].
    destruct pids as [|pid r]; [done|]. exfalso.
    destruct (proj1 (Hpids pid)) as (pos & Hin & -> & Hfile); [left|].
    by apply (Hclean pos).
  - intros (pos0 & Hin0 & Hfile0).
    destruct pids as [|pid r] eqn:E.
    { exfalso. apply (not_elem_of_nil (BP.pid_at bp pos0)). apply Hpids. eauto. }
    destruct (proj1 (Hpids pid)) as (pos & Hin & Hpid & Hfile); [left|].
    exists pos. subst pid. split; [done|]. split; [done|].
    cbn [BP.flush_all]. unfold bind at 1.
    unfold BP.flushPage, bind, get_pool, put_pool. pool_simpl.
    rewrite (Hdirty pos Hin), bool_decide_eq_true_2 by done.
    unfold Db.writePage, Db.get, bind. pool_simpl. by rewrite Hfile, Hnone.
Qed.

Lemma remove_spec n D db nm :
  pool_wf n D db ->
  let bp := bufferPool db in
  let r := Registry.remove nm db in
  match files db !! nm with
  | None => r = (db, Throw logic_error)
  | Some f =>
      ((forall pos, pos ∈ dirty bp -> file (BP.pid_at bp pos) <> nm) ->
       r = (mkDatabase (delete nm (files db)) bp, Ok f))
      /\ ((exists pos, pos ∈ dirty bp /\ file (BP.pid_at bp pos) = nm) ->
          exists pos, pos ∈ dirty bp /\ file (BP.pid_at bp pos) = nm
            /\ r = (mkDatabase (delete nm (files db))
                      (mkBufferPool (pages bp) (pid_to_pos bp) (pos_to_pid bp)
                         (pos_to_lru bp) (lru_list bp) (dirty bp ∖ {[pos]})
                         (available bp)),
                    Throw out_of_range))
  end.
Proof.
  intros Hwf bp r. subst bp r. unfold Registry.remove.
  destruct (files db !! nm) as [f|] eqn:Hf; [|done].
  destruct (flushFile_unregistered (delete nm (files db)) (bufferPool db) nm)
    as [Hclean Hdirty].
  - intros pos Hin. by apply (wf_dirty_pid n D).
  - apply lookup_delete_eq.
  - split.
    + intros Hc. unfold bind. by rewrite (Hclean Hc).
    + intros Hd. destruct (Hdirty Hd) as (pos & Hin & Hfile & Hrun).
      exists pos. split; [done|]. split; [done|]. unfold bind. by rewrite Hrun.
Qed.


(** X24. [Database::remove] throws [std::logic_error] for a name that is
    not registered and changes nothing.  For a registered name, in a
    reachable state, the file leaves the registry before the pool is
    flushed: when no dirty frame holds a page of the file, the file is
    returned and the pool is unchanged; when one does, the flush fails to
    find the file, the call throws [std::out_of_range], the file is no
    longer registered, and one dirty frame of the file has lost its mark
    without having been written. *)
Theorem X24_remove n D db nm :
  pool_wf n D db ->
  let bp := bufferPool db in
  let r := Registry.remove nm db in
  match files db !! nm with
  | None => r = (db, Throw logic_error)
  | Some f =>
      ((forall pos, pos ∈ dirty bp -> file (BP.pid_at bp pos) <> nm) ->
       r = (mkDatabase (delete nm (files db)) bp, Ok f))
      /\ ((exists pos, pos ∈ dirty bp /\ file (BP.pid_at bp pos) = nm) ->
          exists pos, pos ∈ dirty bp /\ file (BP.pid_at bp pos) = nm
            /\ r = (mkDatabase (delete nm (files db))
                      (mkBufferPool (pages bp) (pid_to_pos bp) (pos_to_pid bp)
                         (pos_to_lru bp) (lru_list bp) (dirty bp ∖ {[pos]})
                         (available bp)),
                    Throw out_of_range))
  end.
Proof. apply remove_spec. Qed.

Lemma X24_remove_witness :
  exists pos, pos ∈ dirty (bufferPool full_db)
    /\ (Registry.remove "emp" full_db).2 = Throw out_of_range.
Proof.
  pose proof (X24_remove 3 (dom sample_files) full_db "emp" full_db_wf) as H.
  cbn zeta in H.
  assert (files full_db !! "emp"
          = Some (mkDbFile "emp" leaf_td 2 [0; 1; 2]%nat [] (bytes sample_file))) as E
    by (vm_compute; reflexivity).
  rewrite E in H. destruct H as [_ H].
  destruct H as (pos & Hin & _ & Hrun).
  - exists 0%nat. split; [|vm_compute; reflexivity].
    apply (bool_decide_unpack _). vm_compute. exact I.
  - exists pos. split; [exact Hin|]. by rewrite Hrun.
Defined.

(** X25. [Database::add], in a reachable state, registers the file under
    its name when the name is free, or when no dirty frame holds a page of
    the file registered under it, and leaves the pool as it is: frames that
    hold pages of a replaced file stay cached.  When a dirty frame holds a
    page of the file to replace, the call throws [std::out_of_range] and
    leaves the name unregistered. *)
Theorem X25_add n D db f :
  pool_wf n D db ->
  let bp := bufferPool db in
  let r := Registry.add f db in
  ((forall pos, pos ∈ dirty bp -> file (BP.pid_at bp pos) <> name f) ->
   r = (mkDatabase (<[name f := f]> (files db)) bp, Ok tt)
   /\ Db.get (name f) r.1 = (r.1, Ok f))
  /\ ((exists pos, pos ∈ dirty bp /\ file (BP.pid_at bp pos) = name f) ->
      r.2 = Throw out_of_range /\ files r.1 = delete (name f) (files db)).
Proof.
  intros Hwf bp r. subst bp r.
  pose proof (remove_spec n D db (name f) Hwf) as Hrem. cbn zeta in Hrem.
  split.
  - intros Hc.
    assert (Registry.add f db
            = (mkDatabase (<[name f := f]> (files db)) (bufferPool db), Ok tt)) as ->.
    { unfold Registry.add. unfold bind at 1.
      destruct (files db !! name f) as [f0|] eqn:Hf.
      - rewrite bool_decide_eq_true_2 by eauto. unfold when, bind.
        rewrite (proj1 Hrem Hc). unfold Db.set_file, ret. pool_simpl.
        by rewrite insert_delete_eq.
      - rewrite bool_decide_eq_false_2 by (by intros [? ?]). done. }
    split; [done|]. unfold Db.get. pool_simpl. by rewrite lookup_insert_eq.
  - intros Hd. destruct (files db !! name f) as [f0|] eqn:Hf.
    + destruct (proj2 Hrem Hd) as (pos & _ & _ & Hrun).
      assert (Registry.add f db = ((Registry.remove (name f) db).1, Throw out_of_range))
        as ->; [|by rewrite Hrun].
      unfold Registry.add. unfold bind at 1.
      rewrite bool_decide_eq_true_2 by eauto. unfold when, bind.
      by rewrite Hrun.
    + exfalso. destruct Hd as (pos & Hin & Hfile).
      pose proof (wf_dirty_pid n D db pos Hwf Hin) as E.
      destruct (wf_resident n D _ _ _ Hwf E) as (_ & _ & _ & HD & _).
      rewrite Hfile, <- (wf_dom _ _ _ Hwf) in HD.
      apply elem_of_dom in HD as [? ?]. congruence.
Qed.

Lemma X25_add_witness :
  Registry.add people_file sample_db
  = (mkDatabase (<[name people_file := people_file]> (files sample_db))
       (bufferPool sample_db), Ok tt).
Proof.
  destruct (X25_add 3 (dom (files sample_db)) sample_db people_file) as [H _].
  - apply init_wf.
  - apply H. intros pos Hin. vm_compute in Hin. discriminate Hin.
Defined.

(** ** LeafPage.cpp and IndexPage.cpp: the order of the keys *)

Lemma index_insert_spec p key child :
  IndexPage.wf p ->
  (IndexPage.size p < IndexPage.capacity p)%nat ->
  - 2 ^ 31 <= key < 2 ^ 31 ->
  let n := IndexPage.size p in
  let p' := (IndexPage.insert p key child).1 in
  let full := (IndexPage.insert p key child).2 in
  exists pos : nat,
    (pos <= n)%nat
    /\ (forall j, (j < pos)%nat -> IndexPage.key_at p j < key)
    /\ ((pos < n)%nat -> key <= IndexPage.key_at p pos)
    /\ IndexPage.keys p'
       = take pos (IndexPage.keys p) ++ key
           :: take (n - pos) (drop pos (IndexPage.keys p))
           ++ drop (n + 1) (IndexPage.keys p)
    /\ IndexPage.children p'
       = take (pos + 1) (IndexPage.children p) ++ child
           :: take (n - pos) (drop (pos + 1) (IndexPage.children p))
           ++ drop (n + 2) (IndexPage.children p)
    /\ IndexPage.valid_keys p'
       = take pos (IndexPage.valid_keys p) ++ key :: drop pos (IndexPage.valid_keys p)
    /\ IndexPage.valid_children p'
       = take (pos + 1) (IndexPage.valid_children p) ++ child
           :: drop (pos + 1) (IndexPage.valid_children p)
    /\ IndexPage.size p' = (n + 1)%nat
    /\ IndexPage.capacity p' = IndexPage.capacity p
    /\ IndexPage.index_children p' = IndexPage.index_children p
    /\ (full = true <-> IndexPage.size p' = IndexPage.capacity p')
    /\ IndexPage.wf p'.
Proof.
  intros (Hcap & Hsz & Hlk & Hlc & Hrange) Hlt Hkey n p' full.
  subst p' full. unfold IndexPage.insert. fold n.
  destruct (Nat.leb_spec (IndexPage.capacity p) n) as [Hge|_]; [lia|].
  cbn [fst snd].
  destruct (find_pos_spec p key n n 0 ltac:(lia)) as (Hr & Hl & Hu).
  set (pos := IndexPage.find_pos p key n 0 n) in *.
  assert (to_uint16 (Z.of_nat n + 1) = (n + 1)%nat) as Esz.
  { replace (Z.of_nat n + 1) with (Z.of_nat (n + 1)) by lia.
    apply to_uint16_id. lia. }
  rewrite Esz, to_int32_id by done.
  assert (<[pos:=key]> (if (pos <? n)%nat
             then Mem.memmove (pos + 1) pos (n - pos) (IndexPage.keys p)
             else IndexPage.keys p)
          = take pos (IndexPage.keys p) ++ key
              :: take (n - pos) (drop pos (IndexPage.keys p))
              ++ drop (n + 1) (IndexPage.keys p)) as Ek
    by (apply shift_insert; lia).
  assert (<[(pos + 1)%nat:=child]> (if (pos + 1 <? n + 1)%nat
             then Mem.memmove (pos + 2) (pos + 1) (n - pos) (IndexPage.children p)
             else IndexPage.children p)
          = take (pos + 1) (IndexPage.children p) ++ child
              :: take (n - pos) (drop (pos + 1) (IndexPage.children p))
              ++ drop (n + 2) (IndexPage.children p)) as Ec.
  { pose proof (shift_insert (IndexPage.children p) (pos + 1) (n + 1) child
                  ltac:(lia) ltac:(lia)) as H.
    replace (pos + 1 + 1)%nat with (pos + 2)%nat in H by lia.
    replace (n + 1 - (pos + 1))%nat with (n - pos)%nat in H by lia.
    replace (n + 1 + 1)%nat with (n + 2)%nat in H by lia. exact H. }
  exists pos. cbn [IndexPage.keys IndexPage.children IndexPage.size
                   IndexPage.capacity IndexPage.index_children].
  split; [lia|]. split; [intros j Hj; apply Hl; lia|].
  split; [intros Hpn; apply Hu; lia|].
  split; [exact Ek|]. split; [exact Ec|].
  split.
  { unfold IndexPage.valid_keys. cbn [IndexPage.keys IndexPage.size]. fold n.
    rewrite Ek. rewrite take_app_ge; rewrite length_take; [|lia].
    rewrite Nat.min_l by lia.
    replace (n + 1 - pos)%nat with (S (n - pos)) by lia. cbn [take].
    rewrite take_app_ge; rewrite length_take, length_drop; [|lia].
    rewrite Nat.min_l by lia. rewrite Nat.sub_diag, take_0, app_nil_r.
    rewrite take_take, Nat.min_l by lia. rewrite take_drop_commute.
    by replace (pos + (n - pos))%nat with n by lia. }
  split.
  { unfold IndexPage.valid_children. cbn [IndexPage.children IndexPage.size]. fold n.
    rewrite Ec. rewrite take_app_ge; rewrite length_take; [|lia].
    rewrite Nat.min_l by lia.
    replace (n + 1 + 1 - (pos + 1))%nat with (S (n - pos)) by lia. cbn [take].
    rewrite take_app_ge; rewrite length_take, length_drop; [|lia].
    rewrite Nat.min_l by lia. rewrite Nat.sub_diag, take_0, app_nil_r.
    rewrite take_take, Nat.min_l by lia. rewrite take_drop_commute.
    by replace (pos + 1 + (n - pos))%nat with (n + 1)%nat by lia. }
  split; [done|]. split; [done|]. split; [done|].
  split; [apply Nat.eqb_eq|].
  unfold IndexPage.wf. cbn [IndexPage.keys IndexPage.children IndexPage.size
                             IndexPage.capacity].
  split; [done|]. split; [lia|].
  split; [rewrite Ek, length_app; cbn [length];
          rewrite length_app, !length_take, !length_drop; lia|].
  split; [rewrite Ec, length_app; cbn [length];
          rewrite length_app, !length_take, !length_drop; lia|].
  rewrite Ek. apply Forall_app. split; [by apply Forall_take|].
  apply Forall_cons. split; [done|]. apply Forall_app.
  split; [by apply Forall_take, Forall_drop | by apply Forall_drop].
Qed.

Lemma index_split_spec p new_page :
  IndexPage.wf p -> IndexPage.wf new_page ->
  IndexPage.capacity new_page = IndexPage.capacity p ->
  (0 < IndexPage.size p)%nat ->
  let n := IndexPage.size p in
  let mid := (n / 2)%nat in
  let p' := (IndexPage.split p new_page).1.1 in
  let new' := (IndexPage.split p new_page).1.2 in
  let up_key := (IndexPage.split p new_page).2 in
  up_key = IndexPage.key_at p mid
  /\ IndexPage.size p' = mid
  /\ IndexPage.keys p' = IndexPage.keys p
  /\ IndexPage.children p' = IndexPage.children p
  /\ IndexPage.index_children p' = IndexPage.index_children p
  /\ IndexPage.size new' = (n - mid - 1)%nat
  /\ IndexPage.index_children new' = IndexPage.index_children p
  /\ (forall j, (j < n - mid - 1)%nat ->
        IndexPage.key_at new' j = IndexPage.key_at p (mid + 1 + j))
  /\ (forall j, (j < n - mid)%nat ->
        IndexPage.child_at new' j = IndexPage.child_at p (mid + 1 + j))
  /\ IndexPage.valid_keys p
     = IndexPage.valid_keys p' ++ up_key :: IndexPage.valid_keys new'
  /\ IndexPage.valid_children p
     = IndexPage.valid_children p' ++ IndexPage.valid_children new'
  /\ (StronglySorted Z.lt (IndexPage.valid_keys p) ->
        (up_key ∉ IndexPage.valid_keys p') /\ (up_key ∉ IndexPage.valid_keys new'))
  /\ IndexPage.wf p' /\ IndexPage.wf new'.
Proof.
  intros (Hcap & Hsz & Hlk & Hlc & Hrange) (Hcap' & Hsz' & Hlk' & Hlc' & Hrange')
    Hsame Hpos n mid p' new' up_key.
  subst p' new' up_key. unfold IndexPage.split. fold n.
  assert (to_uint16 (Z.of_nat n / 2) = mid) as Emid.
  { change 2 with (Z.of_nat 2). rewrite <- Nat2Z.inj_div.
    apply to_uint16_id. pose proof (Nat.Div0.div_le_upper_bound n 2 n). lia. }
  rewrite Emid.
  assert (mid < n)%nat as Hmid by (apply Nat.div_lt; lia).
  assert (to_uint16 (Z.of_nat n - Z.of_nat mid - 1) = (n - mid - 1)%nat)
    as Eright.
  { replace (Z.of_nat n - Z.of_nat mid - 1) with (Z.of_nat (n - mid - 1)) by lia.
    apply to_uint16_id. lia. }
  rewrite Eright. set (right := (n - mid - 1)%nat) in *.
  cbn [fst snd IndexPage.keys IndexPage.children IndexPage.size
       IndexPage.capacity IndexPage.index_children].
  set (nk := if (0 <? right)%nat then _ else _).
  set (nc := if (0 <? right + 1)%nat then _ else _).
  assert (take right nk = take right (drop (mid + 1) (IndexPage.keys p))) as Enk.
  { subst nk. destruct (Nat.ltb_spec 0 right) as [Hr|Hr].
    - pose proof (length_read_at (mid + 1) right (IndexPage.keys p) ltac:(lia)) as Hlen.
      rewrite <- Hlen at 1. rewrite take_write_at_0 by lia. done.
    - assert (right = 0)%nat as -> by lia. by rewrite !take_0. }
  assert (length nk = IndexPage.capacity new_page) as Elk.
  { subst nk. destruct (0 <? right)%nat; [|done].
    rewrite length_write_at; [done|]. rewrite length_read_at; lia. }
  assert (nc = Mem.write_at 0 (Mem.read_at (mid + 1) (right + 1) (IndexPage.children p))
                 (IndexPage.children new_page)) as Enc0.
  { subst nc. destruct (Nat.ltb_spec 0 (right + 1)); [done | lia]. }
  assert (take (right + 1) nc
          = take (right + 1) (drop (mid + 1) (IndexPage.children p))) as Enc.
  { rewrite Enc0.
    pose proof (length_read_at (mid + 1) (right + 1) (IndexPage.children p)
                  ltac:(lia)) as Hlen.
    rewrite <- Hlen at 1. rewrite take_write_at_0 by lia. done. }
  assert (length nc = (IndexPage.capacity new_page + 1)%nat) as Elc.
  { rewrite Enc0, length_write_at; [done|]. rewrite length_read_at; lia. }
  destruct (lookup_lt_is_Some_2 (IndexPage.keys p) mid ltac:(lia)) as [km Hkm].
  assert (IndexPage.key_at p mid = km) as Eup
    by (unfold IndexPage.key_at; by rewrite Hkm).
  assert (take n (IndexPage.keys p)
          = take mid (IndexPage.keys p) ++ km :: take right nk) as Ekeys.
  { rewrite Enk. rewrite <- (take_drop mid (take n (IndexPage.keys p))).
    rewrite take_take, Nat.min_l by lia. f_equal.
    replace (drop mid (take n (IndexPage.keys p)))
      with (take (n - mid) (drop mid (IndexPage.keys p)))
      by (rewrite take_drop_commute; do 2 f_equal; lia).
    rewrite (drop_S _ km mid Hkm).
    replace (n - mid)%nat with (S right) by lia. cbn [take].
    by rewrite Nat.add_1_r. }
  split; [done|]. split; [done|]. split; [done|]. split; [done|]. split; [done|].
  split; [done|]. split; [done|].
  split.
  { intros j Hj. unfold IndexPage.key_at. cbn [IndexPage.keys].
    rewrite <- (lookup_default_take 0 nk right j Hj), Enk.
    rewrite lookup_take_lt by done. by rewrite lookup_drop. }
  split.
  { intros j Hj. unfold IndexPage.child_at. cbn [IndexPage.children].
    rewrite <- (lookup_default_take 0 nc (right + 1) j ltac:(lia)), Enc.
    rewrite lookup_take_lt by lia. by rewrite lookup_drop. }
  split.
  { unfold IndexPage.valid_keys. cbn [IndexPage.keys IndexPage.size]. fold n.
    by rewrite Eup. }
  split.
  { unfold IndexPage.valid_children. cbn [IndexPage.children IndexPage.size]. fold n.
    rewrite Enc. rewrite <- (take_drop (mid + 1) (take (n + 1) (IndexPage.children p))).
    rewrite take_take, Nat.min_l by lia. f_equal.
    rewrite take_drop_commute. do 2 f_equal. lia. }
  split.
  { unfold IndexPage.valid_keys. cbn [IndexPage.keys IndexPage.size]. fold n.
    rewrite Ekeys, Eup. intros Hs. split.
    - intros Hin.
      pose proof (StronglySorted_app_1_elem_of Z.lt _ _ km km Hs Hin
                    ltac:(apply elem_of_cons; by left)). lia.
    - intros Hin. apply StronglySorted_app_1_r in Hs.
      apply StronglySorted_inv in Hs as [_ Hall].
      rewrite Forall_forall in Hall. specialize (Hall km Hin). lia. }
  split.
  - unfold IndexPage.wf. cbn [IndexPage.keys IndexPage.children IndexPage.size
                               IndexPage.capacity].
    repeat split; (done || lia).
  - unfold IndexPage.wf. cbn [IndexPage.keys IndexPage.children IndexPage.size
                               IndexPage.capacity].
    split; [done|]. split; [lia|]. split; [done|]. split; [done|].
    subst nk. destruct (0 <? right)%nat; [|done].
    unfold Mem.write_at, Mem.read_at. rewrite take_0. cbn [app].
    apply Forall_app. split; [by apply Forall_take, Forall_drop | by apply Forall_drop].
Qed.

Lemma leaf_split_spec p new_page :
  LeafPage.wf p -> LeafPage.wf new_page ->
  LeafPage.td new_page = LeafPage.td p ->
  LeafPage.key_index new_page = LeafPage.key_index p ->
  LeafPage.capacity new_page = LeafPage.capacity p ->
  let n := LeafPage.size p in
  let mid := (n / 2)%nat in
  (n = 0%nat -> LeafPage.split p new_page = Throw logic_error)
  /\ ((0 < n)%nat ->
      exists p' new' k,
        LeafPage.split p new_page = Ok (p', new', k)
        /\ LeafPage.size p' = mid
        /\ LeafPage.data p' = LeafPage.data p
        /\ LeafPage.next_leaf p' = LeafPage.next_leaf p
        /\ LeafPage.size new' = (n - mid)%nat
        /\ LeafPage.next_leaf new' = LeafPage.next_leaf p
        /\ (forall j, (j < n - mid)%nat ->
              LeafPage.slot_bytes new' j = LeafPage.slot_bytes p (mid + j))
        /\ (forall j, (j < n - mid)%nat ->
              LeafPage.getTuple new' j
              = Ok (TD.deserialize (LeafPage.td p) (LeafPage.data p)
                      ((mid + j) * TD.length (LeafPage.td p))))
        /\ LeafPage.key_of p mid = Ok k
        /\ LeafPage.key_of new' 0 = Ok k
        /\ LeafPage.wf p' /\ LeafPage.wf new').
Proof.
  intros Hwf Hwf' Htd Hki Hcp n mid.
  pose proof Hwf as (Hty & Hcap & Hsz & Hdata).
  pose proof Hwf' as (Hty' & Hcap' & Hsz' & Hdata').
  unfold LeafPage.split. fold n. split.
  { intros ->. done. }
  intros Hn. destruct (Nat.eqb_spec n 0) as [|_]; [lia|].
  assert (to_uint16 (Z.of_nat n / 2) = mid) as Emid.
  { change 2 with (Z.of_nat 2). rewrite <- Nat2Z.inj_div.
    apply to_uint16_id. pose proof (Nat.Div0.div_le_upper_bound n 2 n). lia. }
  rewrite Emid.
  assert (mid < n)%nat as Hmid by (apply Nat.div_lt; lia).
  assert (to_uint16 (Z.of_nat n - Z.of_nat mid) = (n - mid)%nat) as Er.
  { replace (Z.of_nat n - Z.of_nat mid) with (Z.of_nat (n - mid)) by lia.
    apply to_uint16_id. lia. }
  rewrite Er, (key_of_val p mid) by done.
  set (tb := TD.length (LeafPage.td p)) in *.
  set (nd := Mem.write_at 0 _ _).
  assert (length (Mem.read_at (mid * tb) ((n - mid) * tb) (LeafPage.data p))
          = ((n - mid) * tb)%nat) as Hlen by (apply length_read_at; nia).
  assert (forall j, (j < n - mid)%nat ->
            Mem.read_at (j * tb) tb nd
            = Mem.read_at ((mid + j) * tb) tb (LeafPage.data p)) as Hslot.
  { intros j Hj. subst nd. rewrite Htd in Hdata'. fold tb in Hdata'.
    rewrite read_at_write_at_inside by nia.
    rewrite Nat.sub_0_r, read_at_read_at by nia. f_equal. lia. }
  eexists _, _, _. split; [reflexivity|].
  leaf_simpl.
  split; [done|]. split; [done|]. split; [done|]. split; [done|]. split; [done|].
  split.
  { intros j Hj. unfold LeafPage.slot_bytes.
    leaf_simpl. rewrite Htd. fold tb. by apply Hslot. }
  split.
  { intros j Hj. unfold LeafPage.getTuple. leaf_simpl.
    destruct (Nat.leb_spec (n - mid) j); [lia|]. f_equal.
    rewrite Htd. fold tb. apply deserialize_ext. fold tb. by apply Hslot. }
  split; [done|]. split.
  { unfold LeafPage.key_of. leaf_simpl.
    rewrite Htd, Hki. fold tb.
    rewrite <- (key_of_val p mid) by done. unfold LeafPage.key_of. fold tb.
    apply key_at_ext. fold tb.
    rewrite (Hslot 0%nat) by lia. f_equal. lia. }
  split.
  - unfold LeafPage.wf. leaf_simpl. repeat split; (done || lia).
  - unfold LeafPage.wf. leaf_simpl. rewrite Htd, Hki, Hcp. fold tb.
    split; [done|]. split; [done|]. split; [lia|].
    subst nd. rewrite length_write_at; rewrite ?Hlen; rewrite Htd in Hdata';
      fold tb in Hdata'; nia.
Qed.

Lemma leaf_strict_sorted p : leaf_strict p -> LeafPage.sorted p.
Proof.
  intros Hs i j Hij. destruct (decide (i = j)) as [->|Hne]; [lia|].
  apply Z.lt_le_incl, Hs. lia.
Qed.

Lemma leaf_insert_order p tup :
  LeafPage.wf p -> TD.compatible (LeafPage.td p) tup = true -> tuple_ok tup ->
  leaf_strict p ->
  let r := LeafPage.insertTuple p tup in
  exists k,
    Tup.get_int tup (LeafPage.key_index p) = Ok k
    /\ LeafPage.wf r.1 /\ leaf_strict r.1
    /\ ((exists pos b,
           r.2 = Ok b
           /\ (pos < LeafPage.size r.1)%nat
           /\ LeafPage.getTuple r.1 pos = Ok (stored tup)
           /\ LeafPage.key_val r.1 pos = k
           /\ (forall v, leaf_has_key r.1 v <-> leaf_has_key p v \/ v = k)
           /\ (leaf_has_key p k -> LeafPage.size r.1 = LeafPage.size p)
           /\ (~ leaf_has_key p k -> LeafPage.size r.1 = (LeafPage.size p + 1)%nat))
        \/ (r = (p, Ok true) /\ LeafPage.size p = LeafPage.capacity p
            /\ ~ leaf_has_key p k)).
Proof.
  intros Hwf Hc Hok Hstrict r. subst r.
  pose proof (leaf_strict_sorted p Hstrict) as Hs.
  destruct (leaf_insertTuple_spec p tup Hwf Hc Hok)
    as (k & pos & Hk & _ & Hpos & _ & Hfirst & Hup & Hfull & Hins).
  destruct (Hfirst Hs) as [Hlo Hhi]. exists k. split; [done|].
  assert (tup !! LeafPage.key_index p = Some (FInt k)) as Hfk.
  { unfold Tup.get_int in Hk.
    destruct (tup !! LeafPage.key_index p) as [[v|b|s]|]; try done. congruence. }
  destruct (decide ((pos < LeafPage.size p)%nat /\ LeafPage.key_val p pos = k))
    as [Hhit|Hmiss].
  - destruct (Hup Hhit) as (d & _ & -> & Hframe & Hget & Hwf'). cbn [fst snd].
    assert (forall j, LeafPage.key_val (LeafPage.set_data p d) j = LeafPage.key_val p j)
      as Hkeys.
    { intros j. destruct (decide (j = pos)) as [->|Hne].
      - rewrite (getTuple_key _ tup pos k Hwf' Hfk Hget). by destruct Hhit.
      - apply key_val_ext; try done. by apply Hframe. }
    split; [done|]. split.
    { intros i j Hij. rewrite !Hkeys. by apply Hstrict. }
    left. exists pos. eexists. split; [done|]. split; [apply Hhit|].
    split; [done|]. split; [rewrite Hkeys; apply Hhit|]. split; [|split; [done|]].
    + intros v. unfold leaf_has_key. cbn [LeafPage.size LeafPage.set_data].
      setoid_rewrite Hkeys. split; [by left|].
      intros [Hv| ->]; [done|]. exists pos. done.
    + intros Hno. exfalso. apply Hno. exists pos. done.
  - assert (~ leaf_has_key p k) as Habsent.
    { intros (j & Hj & Hkj).
      destruct (Nat.lt_ge_cases j pos) as [Hlt|Hge].
      - specialize (Hlo j Hlt). lia.
      - assert (pos < LeafPage.size p)%nat as Hp by lia.
        assert (LeafPage.key_val p pos <> k) as Hne by (intros E; by apply Hmiss).
        pose proof (Hhi pos ltac:(lia)) as H1.
        pose proof (Hs pos j ltac:(lia)) as H2. lia. }
    destruct (decide (LeafPage.size p = LeafPage.capacity p)) as [Hcap|Hroom].
    + rewrite (Hfull Hmiss Hcap). cbn [fst]. split; [done|]. split; [done|].
      by right.
    + pose proof Hwf as (_ & _ & Hsz & _).
      destruct (Hins Hmiss ltac:(lia))
        as (p' & -> & Hsize & _ & Htd & Hki & _ & Hbefore & Hafter & Hget & Hwf').
      cbn [fst snd]. split; [done|].
      rewrite <- Hki in Hfk.
      pose proof (getTuple_key p' tup pos k Hwf' Hfk Hget) as Hkpos.
      assert (forall j, (j < pos)%nat -> LeafPage.key_val p' j = LeafPage.key_val p j)
        as Hkb by (intros j Hj; apply key_val_ext; try done; by apply Hbefore).
      assert (forall j, (pos <= j < LeafPage.size p)%nat ->
                LeafPage.key_val p' (j + 1) = LeafPage.key_val p j)
        as Hka by (intros j Hj; apply key_val_ext; try done; by apply Hafter).
      assert (forall j, (pos <= j < LeafPage.size p)%nat -> k < LeafPage.key_val p j)
        as Hhi'.
      { intros j Hj. pose proof (Hhi j Hj).
        destruct (decide (LeafPage.key_val p j = k)) as [E|?]; [|lia].
        exfalso. apply Habsent. exists j. split; [lia|done]. }
      split.
      { intros i j Hij. rewrite Hsize in Hij.
        destruct (Nat.lt_total i pos) as [Hi|[->|Hi]];
          destruct (Nat.lt_total j pos) as [Hj|[->|Hj]]; try lia.
        * rewrite (Hkb i Hi), (Hkb j Hj). apply Hstrict. lia.
        * rewrite (Hkb i Hi), Hkpos. by apply Hlo.
        * rewrite (Hkb i Hi).
          replace j with (j - 1 + 1)%nat by lia. rewrite Hka by lia.
          specialize (Hlo i Hi). specialize (Hhi (j - 1)%nat ltac:(lia)). lia.
        * rewrite Hkpos. replace j with (j - 1 + 1)%nat by lia. rewrite Hka by lia.
          apply Hhi'. lia.
        * replace i with (i - 1 + 1)%nat by lia.
          replace j with (j - 1 + 1)%nat by lia.
          rewrite !Hka by lia. apply Hstrict. lia. }
      left. exists pos. eexists. split; [done|]. split; [lia|]. split; [done|].
      split; [done|]. split; [|split; [done|by intros _]].
      intros v. unfold leaf_has_key. rewrite Hsize. split.
      * intros (j & Hj & Hv).
        destruct (Nat.lt_total j pos) as [Hlt|[->|Hgt]].
        -- left. exists j. rewrite <- (Hkb j Hlt). split; [lia|done].
        -- right. congruence.
        -- left. exists (j - 1)%nat. rewrite <- Hka by lia.
           replace (j - 1 + 1)%nat with j by lia. split; [lia|done].
      * intros [(j & Hj & Hv)| ->].
        -- destruct (Nat.lt_ge_cases j pos) as [Hlt|Hge].
           ++ exists j. rewrite (Hkb j Hlt). split; [lia|done].
           ++ exists (j + 1)%nat. rewrite Hka by lia. split; [lia|done].
        -- exists pos. split; [lia|done].
Qed.

(** X26. [LeafPage::insertTuple] keeps a leaf a sorted map from keys to
    tuples.  On a leaf whose keys are in strictly ascending order it
    returns normally and the keys stay in strictly ascending order.  Either
    the tuple is then stored under its key, the keys of the leaf being those
    it had and this one, and the size growing by one exactly when the key is
    new; or the key is new and the leaf is full, and then the leaf is
    unchanged and the call returns true. *)
Theorem X26_leaf_insert_order p tup :
  LeafPage.wf p -> TD.compatible (LeafPage.td p) tup = true -> tuple_ok tup ->
  leaf_strict p ->
  let r := LeafPage.insertTuple p tup in
  exists k,
    Tup.get_int tup (LeafPage.key_index p) = Ok k
    /\ LeafPage.wf r.1 /\ leaf_strict r.1
    /\ ((exists pos b,
           r.2 = Ok b
           /\ (pos < LeafPage.size r.1)%nat
           /\ LeafPage.getTuple r.1 pos = Ok (stored tup)
           /\ LeafPage.key_val r.1 pos = k
           /\ (forall v, leaf_has_key r.1 v <-> leaf_has_key p v \/ v = k)
           /\ (leaf_has_key p k -> LeafPage.size r.1 = LeafPage.size p)
           /\ (~ leaf_has_key p k -> LeafPage.size r.1 = (LeafPage.size p + 1)%nat))
        \/ (r = (p, Ok true) /\ LeafPage.size p = LeafPage.capacity p
            /\ ~ leaf_has_key p k)).
Proof. apply leaf_insert_order. Qed.

Lemma sample_leaf_strict : leaf_strict sample_leaf.
Proof.
  intros i j Hij. cbn [LeafPage.size sample_leaf] in Hij.
  assert (i = 0 /\ j = 1)%nat as [-> ->] by lia. vm_compute. reflexivity.
Qed.

Lemma X26_leaf_insert_order_witness :
  leaf_strict (LeafPage.insertTuple sample_leaf leaf_tuple).1.
Proof.
  destruct (X26_leaf_insert_order sample_leaf leaf_tuple sample_leaf_wf eq_refl
              leaf_tuple_ok sample_leaf_strict) as (k & _ & _ & H & _).
  exact H.
Defined.

(** X27. [LeafPage::split] of a leaf whose keys are in strictly ascending
    order cuts it into two such leaves: the page keeps the tuples before the
    middle, the new page receives the others in the same order, and the
    split key, which is the first key of the new page, is above every key
    that stays and at most every key that moves.  No tuple is lost. *)
Theorem X27_leaf_split_order p new_page :
  LeafPage.wf p -> LeafPage.wf new_page ->
  LeafPage.td new_page = LeafPage.td p ->
  LeafPage.key_index new_page = LeafPage.key_index p ->
  LeafPage.capacity new_page = LeafPage.capacity p ->
  (0 < LeafPage.size p)%nat -> leaf_strict p ->
  exists p' new' k,
    LeafPage.split p new_page = Ok (p', new', k)
    /\ (LeafPage.size p' + LeafPage.size new')%nat = LeafPage.size p
    /\ (0 < LeafPage.size new')%nat
    /\ (forall j, (j < LeafPage.size p')%nat ->
          LeafPage.getTuple p' j = LeafPage.getTuple p j)
    /\ (forall j, (j < LeafPage.size new')%nat ->
          LeafPage.getTuple new' j = LeafPage.getTuple p (LeafPage.size p' + j))
    /\ leaf_strict p' /\ leaf_strict new'
    /\ LeafPage.key_val new' 0 = k
    /\ (forall v, leaf_has_key p' v -> v < k)
    /\ (forall v, leaf_has_key new' v -> k <= v)
    /\ (forall v, leaf_has_key p v <-> leaf_has_key p' v \/ leaf_has_key new' v).
Proof.
  intros Hwf Hwfn Htd Hki Hcap Hn Hstrict.
  destruct (leaf_split_spec p new_page Hwf Hwfn Htd Hki Hcap) as [_ Hsplit].
  destruct (Hsplit Hn)
    as (p' & new' & k & Heq & Hsz & Hdata & _ & Hszn & _ & Hslots & Hget & Hkey & _
        & Hwf' & Hwfn').
  set (n := LeafPage.size p) in *. set (mid := (n / 2)%nat) in *.
  assert (mid < n)%nat as Hmid by (apply Nat.div_lt; lia).
  assert (LeafPage.td p' = LeafPage.td p /\ LeafPage.key_index p' = LeafPage.key_index p
          /\ LeafPage.td new' = LeafPage.td p
          /\ LeafPage.key_index new' = LeafPage.key_index p) as (Htd' & Hki' & Htdn & Hkin).
  { clear -Heq Htd Hki. revert Heq. unfold LeafPage.split.
    destruct (_ =? _)%nat; [done|].
    destruct (LeafPage.key_of p _); [|done]. intros Hinv. inversion Hinv.
    subst p' new'. cbn. done. }
  assert (forall j, LeafPage.key_val p' j = LeafPage.key_val p j) as Hkl.
  { intros j. unfold LeafPage.key_val. by rewrite Htd', Hki', Hdata. }
  assert (forall j, (j < n - mid)%nat ->
            LeafPage.key_val new' j = LeafPage.key_val p (mid + j)) as Hkr.
  { intros j Hj. apply key_val_ext; try done. by apply Hslots. }
  assert (k = LeafPage.key_val p mid) as Hk.
  { rewrite (key_of_val p mid Hwf) in Hkey. by injection Hkey. }
  exists p', new', k. split; [done|]. rewrite Hsz, Hszn.
  split; [lia|]. split; [lia|]. split; [|split; [|split; [|split; [|split; [|split; [|split]]]]]].
  - intros j Hj. unfold LeafPage.getTuple. rewrite Hsz, Htd', Hdata. fold n.
    destruct (Nat.leb_spec mid j); [lia|]. by destruct (Nat.leb_spec n j); [lia|].
  - intros j Hj. rewrite (Hget j Hj). unfold LeafPage.getTuple. fold n.
    by destruct (Nat.leb_spec n (mid + j)); [lia|].
  - intros i j Hij. rewrite Hsz in Hij. rewrite !Hkl. apply Hstrict. fold n. lia.
  - intros i j Hij. rewrite Hszn in Hij. rewrite !Hkr by lia.
    apply Hstrict. fold n. lia.
  - rewrite (Hkr 0%nat) by lia. by rewrite Nat.add_0_r.
  - intros v (j & Hj & <-). rewrite Hsz in Hj. rewrite Hkl, Hk.
    apply Hstrict. fold n. lia.
  - intros v (j & Hj & <-). rewrite Hszn in Hj. rewrite Hkr, Hk by lia.
    destruct (decide (j = 0%nat)) as [->|Hne]; [by rewrite Nat.add_0_r|].
    apply Z.lt_le_incl, Hstrict. fold n. lia.
  - intros v. unfold leaf_has_key. rewrite Hsz, Hszn. fold n. split.
    + intros (j & Hj & Hv). destruct (Nat.lt_ge_cases j mid) as [Hlt|Hge].
      * left. exists j. by rewrite Hkl.
      * right. exists (j - mid)%nat. rewrite Hkr by lia.
        replace (mid + (j - mid))%nat with j by lia. split; [lia|done].
    + intros [(j & Hj & Hv)|(j & Hj & Hv)].
      * exists j. rewrite <- Hkl. split; [lia|done].
      * exists (mid + j)%nat. rewrite <- Hkr by lia. split; [lia|done].
Qed.

Lemma X27_leaf_split_order_witness :
  exists p' new' k,
    LeafPage.split sample_leaf empty_leaf = Ok (p', new', k)
    /\ (LeafPage.size p' + LeafPage.size new')%nat = LeafPage.size sample_leaf.
Proof.
  destruct (X27_leaf_split_order sample_leaf empty_leaf)
    as (p' & new' & k & Heq & Hsz & _).
  - exact sample_leaf_wf.
  - unfold LeafPage.wf. cbn. repeat split; lia.
  - reflexivity.
  - reflexivity.
  - reflexivity.
  - cbn. lia.
  - exact sample_leaf_strict.
  - exists p', new', k. split; [exact Heq | exact Hsz].
Defined.

Lemma valid_keys_lookup p (j : nat) :
  IndexPage.wf p -> (j < IndexPage.size p)%nat ->
  IndexPage.valid_keys p !! j = Some (IndexPage.key_at p j).
Proof.
  intros (_ & Hsz & Hlen & _) Hj. unfold IndexPage.valid_keys, IndexPage.key_at.
  rewrite lookup_take_lt by done.
  destruct (lookup_lt_is_Some_2 (IndexPage.keys p) j) as [x Hx]; [lia|].
  by rewrite Hx.
Qed.

Lemma length_valid_keys p :
  IndexPage.wf p -> length (IndexPage.valid_keys p) = IndexPage.size p.
Proof.
  intros (_ & Hsz & Hlen & _). unfold IndexPage.valid_keys.
  rewrite length_take. lia.
Qed.

Lemma length_valid_children p :
  IndexPage.wf p ->
  length (IndexPage.valid_children p) = (IndexPage.size p + 1)%nat.
Proof.
  intros (_ & Hsz & _ & Hlen & _). unfold IndexPage.valid_children.
  rewrite length_take. lia.
Qed.

(** X28. [IndexPage::insert] on a full page changes nothing and returns
    true.  On a page with room it adds the key to the keys in use and keeps
    them in ascending order, and in strictly ascending order when the key is
    new; the children in use are one more than the keys. *)
Theorem X28_index_insert_order p key child :
  IndexPage.wf p -> - 2 ^ 31 <= key < 2 ^ 31 ->
  let r := IndexPage.insert p key child in
  ((IndexPage.capacity p <= IndexPage.size p)%nat -> r = (p, true))
  /\ ((IndexPage.size p < IndexPage.capacity p)%nat ->
      IndexPage.wf r.1
      /\ IndexPage.valid_keys r.1 ≡ₚ key :: IndexPage.valid_keys p
      /\ length (IndexPage.valid_children r.1)
         = (length (IndexPage.valid_keys r.1) + 1)%nat
      /\ (StronglySorted Z.le (IndexPage.valid_keys p) ->
          StronglySorted Z.le (IndexPage.valid_keys r.1))
      /\ (StronglySorted Z.lt (IndexPage.valid_keys p) ->
          key ∉ IndexPage.valid_keys p ->
          StronglySorted Z.lt (IndexPage.valid_keys r.1))).
Proof.
  intros Hwf Hkey r. subst r. split.
  { intros Hfull. unfold IndexPage.insert.
    by destruct (Nat.leb_spec (IndexPage.capacity p) (IndexPage.size p)); [|lia]. }
  intros Hroom.
  destruct (index_insert_spec p key child Hwf Hroom Hkey)
    as (pos & Hpos & Hbelow & Hat & _ & _ & Hvk & _ & _ & _ & _ & _ & Hwf').
  set (vk := IndexPage.valid_keys p) in *.
  pose proof (length_valid_keys p Hwf) as Hlen. fold vk in Hlen.
  assert (forall x, x ∈ take pos vk -> x < key) as Hleft.
  { intros x Hx. apply list_elem_of_lookup in Hx as [j Hj].
    pose proof (lookup_lt_Some _ _ _ Hj) as Hjl. rewrite length_take in Hjl.
    rewrite lookup_take_lt in Hj by lia.
    unfold vk in Hj. rewrite valid_keys_lookup in Hj by (done || lia).
    injection Hj as <-. apply Hbelow. lia. }
  assert (StronglySorted Z.le vk -> forall x, x ∈ drop pos vk -> key <= x) as Hright.
  { intros Hs x Hx.
    destruct (Nat.lt_ge_cases pos (IndexPage.size p)) as [Hlt|Hge].
    2:{ rewrite drop_ge in Hx by lia. by apply elem_of_nil in Hx. }
    specialize (Hat Hlt).
    assert (drop pos vk = IndexPage.key_at p pos :: drop (S pos) vk) as E.
    { apply drop_S. unfold vk. by apply valid_keys_lookup. }
    rewrite E in Hx. apply elem_of_cons in Hx as [->|Hx]; [done|].
    rewrite <- (take_drop pos vk), E in Hs.
    apply StronglySorted_app_1_r, StronglySorted_inv in Hs as [_ Hall].
    pose proof (proj1 (Forall_forall _ _) Hall x Hx). lia. }
  split; [done|]. split; [|split; [|split]].
  - rewrite Hvk. rewrite <- Permutation_middle. by rewrite take_drop.
  - by rewrite (length_valid_children _ Hwf'), (length_valid_keys _ Hwf').
  - intros Hs. rewrite Hvk. pose proof Hs as Hs'.
    rewrite <- (take_drop pos vk) in Hs'.
    apply StronglySorted_app_2.
    + intros x1 x2 H1 H2. apply elem_of_cons in H2 as [->|H2].
      * apply Z.lt_le_incl. by apply Hleft.
      * by apply (StronglySorted_app_1_elem_of Z.le _ _ x1 x2 Hs').
    + by apply StronglySorted_app_1_l in Hs'.
    + apply SSorted_cons; [by apply StronglySorted_app_1_r in Hs'|].
      apply Forall_forall. intros x Hx. by apply Hright.
  - intros Hs Hnew. rewrite Hvk. pose proof Hs as Hs'.
    rewrite <- (take_drop pos vk) in Hs'.
    assert (StronglySorted Z.le vk) as Hle.
    { clear -Hs. induction Hs as [|x l _ IH Hall]; constructor; [done|].
      eapply Forall_impl; [exact Hall|]. intros y Hy. cbn in Hy. lia. }
    apply StronglySorted_app_2.
    + intros x1 x2 H1 H2. apply elem_of_cons in H2 as [->|H2].
      * by apply Hleft.
      * by apply (StronglySorted_app_1_elem_of Z.lt _ _ x1 x2 Hs').
    + by apply StronglySorted_app_1_l in Hs'.
    + apply SSorted_cons; [by apply StronglySorted_app_1_r in Hs'|].
      apply Forall_forall. intros x Hx. pose proof (Hright Hle x Hx).
      assert (x ∈ vk) as Hin
        by (rewrite <- (take_drop pos vk); apply elem_of_app; by right).
      assert (x <> key) by (by intros ->). lia.
Qed.

Lemma X28_index_insert_order_witness :
  IndexPage.valid_keys (IndexPage.insert sample_index 20 9).1
  ≡ₚ 20 :: IndexPage.valid_keys sample_index.
Proof.
  destruct (X28_index_insert_order sample_index 20 9) as [_ H].
  - exact sample_index_wf.
  - lia.
  - destruct H as (_ & Hperm & _); [vm_compute; lia|]. exact Hperm.
Defined.

(** X29. [IndexPage::split] of a page whose keys in use are in strictly
    ascending order leaves the keys before the middle on the page, moves
    the keys after it to the new page, and pushes the middle key up: every
    key that stays is below it and every key that moves is above it, both
    pages are in strictly ascending order, and the children in use are
    divided between the pages, each page having one child more than keys. *)
Theorem X29_index_split_order p new_page :
  IndexPage.wf p -> IndexPage.wf new_page ->
  IndexPage.capacity new_page = IndexPage.capacity p ->
  (0 < IndexPage.size p)%nat ->
  StronglySorted Z.lt (IndexPage.valid_keys p) ->
  let p' := (IndexPage.split p new_page).1.1 in
  let new' := (IndexPage.split p new_page).1.2 in
  let up_key := (IndexPage.split p new_page).2 in
  IndexPage.valid_keys p
  = IndexPage.valid_keys p' ++ up_key :: IndexPage.valid_keys new'
  /\ IndexPage.valid_children p
     = IndexPage.valid_children p' ++ IndexPage.valid_children new'
  /\ StronglySorted Z.lt (IndexPage.valid_keys p')
  /\ StronglySorted Z.lt (IndexPage.valid_keys new')
  /\ Forall (fun x => x < up_key) (IndexPage.valid_keys p')
  /\ Forall (fun x => up_key < x) (IndexPage.valid_keys new')
  /\ length (IndexPage.valid_children p')
     = (length (IndexPage.valid_keys p') + 1)%nat
  /\ length (IndexPage.valid_children new')
     = (length (IndexPage.valid_keys new') + 1)%nat
  /\ (IndexPage.size p' + IndexPage.size new' + 1)%nat = IndexPage.size p.
Proof.
  intros Hwf Hwfn Hcap Hn Hs p' new' up_key.
  destruct (index_split_spec p new_page Hwf Hwfn Hcap Hn)
    as (_ & Hsz & _ & _ & _ & Hszn & _ & _ & _ & Hvk & Hvc & _ & Hwf' & Hwfn').
  fold p' new' up_key in Hsz, Hszn, Hvk, Hvc, Hwf', Hwfn'.
  split; [done|]. split; [done|]. rewrite Hvk in Hs.
  pose proof (StronglySorted_app_1_l _ _ _ Hs) as Hl.
  pose proof (StronglySorted_app_1_r _ _ _ Hs) as Hr.
  apply StronglySorted_inv in Hr as [Hr Hall].
  split; [done|]. split; [done|]. split; [|split; [done|]].
  { apply Forall_forall. intros x Hx.
    apply (StronglySorted_app_1_elem_of Z.lt _ _ x up_key Hs Hx). left. }
  split; [by rewrite (length_valid_children _ Hwf'), (length_valid_keys _ Hwf')|].
  split; [by rewrite (length_valid_children _ Hwfn'), (length_valid_keys _ Hwfn')|].
  rewrite Hsz, Hszn.
  assert (IndexPage.size p / 2 < IndexPage.size p)%nat by (apply Nat.div_lt; lia).
  lia.
Qed.

Lemma X29_index_split_order_witness :
  IndexPage.valid_keys full_index
  = IndexPage.valid_keys (IndexPage.split full_index empty_index).1.1
    ++ (IndexPage.split full_index empty_index).2
    :: IndexPage.valid_keys (IndexPage.split full_index empty_index).1.2.
Proof.
  destruct (X29_index_split_order full_index empty_index) as [H _].
  - apply full_index_wf.
  - apply full_index_wf.
  - reflexivity.
  - vm_compute. lia.
  - vm_compute. repeat constructor.
  - exact H.
Defined.

(** ** Database.cpp: a database in use *)

Lemma init_db_ok n fs :
  (0 < n)%nat -> "" ∉ dom fs ->
  (forall nm g, fs !! nm = Some g -> name g = nm) ->
  db_ok n (dom fs) (mkDatabase fs (BP.init n)).
Proof.
  intros Hn Hno Hreg. split; try done.
  - apply init_wf.
  - apply init_full.
  - apply init_coherent.
Qed.

Lemma add_fresh_ok n D db f :
  db_ok n D db -> name f ∉ D -> name f <> ""%string ->
  let r := Registry.add f db in
  r.2 = Ok tt
  /\ db_ok n ({[name f]} ∪ D) r.1
  /\ (forall nm it, nm <> name f -> heap_tuple r.1 nm it = heap_tuple db nm it)
  /\ (forall id, page_view r.1 (mkPageId (name f) id) = File.pread_page f id).
Proof.
  intros [Hwf Hfull Hco Hreg Hno Hn] Hfresh Hname r. subst r.
  assert (files db !! name f = None) as Hnone.
  { apply not_elem_of_dom. by rewrite (wf_dom _ _ _ Hwf). }
  assert (Registry.add f db
          = (mkDatabase (<[name f := f]> (files db)) (bufferPool db), Ok tt)) as ->.
  { unfold Registry.add. unfold bind at 1. rewrite Hnone.
    rewrite bool_decide_eq_false_2 by (by intros [? ?]). done. }
  cbn [fst snd].
  assert (forall pid pos, pid_to_pos (bufferPool db) !! pid = Some pos ->
            file pid <> name f) as Hcached.
  { intros pid pos E Heq.
    destruct (wf_resident n D _ _ _ Hwf E) as (_ & _ & _ & HD & _).
    apply Hfresh. by rewrite <- Heq. }
  split; [done|]. split; [split; try done|split].
  - destruct Hwf as [Hdom Hpid ? ? ? ? ? ? ? ?]. split; pool_simpl; try done.
    + rewrite dom_insert_L. by rewrite Hdom.
    + intros pid pos E. destruct (Hpid pid pos E) as [? ?].
      split; [done|set_solver].
  - split; [exact (co_pages _ Hco)|].
    intros pid pos g. pool_simpl. intros E Hd Hg.
    rewrite lookup_insert_ne in Hg by (apply not_eq_sym; by eapply Hcached).
    by apply (co_clean _ Hco pid pos g).
  - intros nm g. cbn [files]. destruct (decide (nm = name f)) as [->|Hne].
    + rewrite lookup_insert_eq. by intros [= <-].
    + rewrite lookup_insert_ne by done. apply Hreg.
  - set_solver.
  - intros nm it Hne. unfold heap_tuple, page_view. pool_simpl.
    rewrite !lookup_insert_ne by done. done.
  - intros id. unfold page_view. pool_simpl.
    destruct (pid_to_pos (bufferPool db) !! mkPageId (name f) id) as [pos|] eqn:E.
    + exfalso. by apply (Hcached _ _ E).
    + by rewrite lookup_insert_eq.
Qed.

(** X30. A database is in use from the start: the pool the constructor
    builds, over files registered under their own, non-empty names, is a
    reachable pool that has lost no frame and whose clean frames agree with
    the files.  [Database::add] of a file under a new, non-empty name
    returns normally and keeps the database in use; it changes no tuple of
    the other files, and every page of the new file reads as the file has
    it. *)
Theorem X30_database_in_use n fs :
  (0 < n)%nat -> "" ∉ dom fs ->
  (forall nm g, fs !! nm = Some g -> name g = nm) ->
  db_ok n (dom fs) (mkDatabase fs (BP.init n))
  /\ (forall D db f,
        db_ok n D db -> name f ∉ D -> name f <> ""%string ->
        let r := Registry.add f db in
        r.2 = Ok tt
        /\ db_ok n ({[name f]} ∪ D) r.1
        /\ (forall nm it, nm <> name f -> heap_tuple r.1 nm it = heap_tuple db nm it)
        /\ (forall id, page_view r.1 (mkPageId (name f) id) = File.pread_page f id)).
Proof.
  intros Hn Hno Hreg. split; [by apply init_db_ok|].
  intros D db f. apply add_fresh_ok.
Qed.

Lemma X30_database_in_use_witness :
  db_ok 3 (dom (files people_db)) people_db
  /\ (Registry.add sample_file people_db).2 = Ok tt.
Proof.
  destruct (X30_database_in_use 3 (files people_db)) as [Hinit Hadd].
  - lia.
  - unfold people_db. cbn [files]. rewrite dom_singleton_L.
    by intros ?%elem_of_singleton.
  - intros nm g. unfold people_db. cbn [files].
    intros [<- <-]%lookup_singleton_Some. done.
  - split; [exact Hinit|].
    destruct (Hadd (dom (files people_db)) people_db sample_file Hinit) as [H _].
    + unfold people_db. cbn [files]. rewrite dom_singleton_L.
      by intros ?%elem_of_singleton.
    + done.
    + exact H.
Defined.
